(** * Singly-linked list starters (C and C++): memory model and operations

    The two reference implementations
      - [c-linkedlist/memo/linked_list.c]   (module [C])
      - [cpp-linkedlist/memo/LinkedList.cpp] (module [Cpp])
    are embedded statement by statement in a state-and-error monad over an
    explicit memory: a store of list objects, a store of heap nodes and a
    store of [int] objects.  Pointers are addresses ([Z], [NULL] is 0) and
    [size_t] is a 64-bit unsigned integer with its wrap-around written out. *)

From stdpp Require Import gmap list fin_maps strings.
From Stdlib Require Import ZArith Lia.

Local Open Scope Z_scope.

#[local] Set Warnings "-clear-no-such-hyp".

(** ** Machine integers and pointers *)

Definition NULL : Z := 0.

(** [size_t] arithmetic: results are reduced modulo [2^64]. *)
Definition SIZE_MOD : Z := 2 ^ 64.
Definition wrap (z : Z) : Z := z mod SIZE_MOD.
Definition is_size_t (z : Z) : Prop := 0 <= z < SIZE_MOD.

(** ** Data model *)

(** [struct Node { int value; Node* next; }] *)
Record Node := mkNode { value : Z; next : Z }.

(** [struct LinkedList { Node* head; Node* tail; size_t size; }]; the C++
    class names the same three members [head_], [tail_], [size_]. *)
Record LinkedList := mkList { head_ : Z; tail_ : Z; size_ : Z }.

Definition set_head (p : Z) (L : LinkedList) : LinkedList :=
  {| head_ := p; tail_ := tail_ L; size_ := size_ L |}.
Definition set_tail (p : Z) (L : LinkedList) : LinkedList :=
  {| head_ := head_ L; tail_ := p; size_ := size_ L |}.
Definition set_size (n : Z) (L : LinkedList) : LinkedList :=
  {| head_ := head_ L; tail_ := tail_ L; size_ := n |}.

Definition set_value (v : Z) (n : Node) : Node := {| value := v; next := next n |}.
Definition set_next (p : Z) (n : Node) : Node := {| value := value n; next := p |}.

(** The memory: list objects, heap nodes and [int] objects, each keyed by
    address.  An address absent from a store is not a live object there. *)
Record state := mkState {
  lists : gmap Z LinkedList;
  nodes : gmap Z Node;
  ints  : gmap Z Z
}.

Definition with_lists (f : gmap Z LinkedList → gmap Z LinkedList) (st : state) : state :=
  {| lists := f (lists st); nodes := nodes st; ints := ints st |}.
Definition with_nodes (f : gmap Z Node → gmap Z Node) (st : state) : state :=
  {| lists := lists st; nodes := f (nodes st); ints := ints st |}.
Definition with_ints (f : gmap Z Z → gmap Z Z) (st : state) : state :=
  {| lists := lists st; nodes := nodes st; ints := f (ints st) |}.

(** ** Outcomes *)

(** How a run is lost: the allocator is exhausted ([malloc] returns null and
    the next statement writes through it; [new] throws), a null pointer is
    dereferenced, a dead object is accessed or freed, or a pointer-chasing
    loop never reaches null. *)
Inductive error := AllocFailure | NullDeref | InvalidAccess | InvalidFree | Nonterm.

Inductive result (A : Type) :=
| Ok (a : A) (st : state)
| Fault (e : error).
Arguments Ok {A} a st.
Arguments Fault {A} e.

Definition M (A : Type) : Type := state → result A.

Definition ret {A} (a : A) : M A := λ st, Ok a st.
Definition fault {A} (e : error) : M A := λ _, Fault e.
Definition bind {A B} (k : A → M B) (c : M A) : M B :=
  λ st, match c st with
        | Ok a st' => k a st'
        | Fault e => Fault e
        end.

(** The notations [x ← c; k] and [c;; k] sequence two statements. *)
#[global] Instance M_ret : MRet M := @ret.
#[global] Instance M_bind : MBind M := @bind.

(** ** The allocator

    [malloc(sizeof(Node))] and [new Node] hand out the address of a node that
    is not live, never null and representable in a 64-bit pointer, or fail.
    A node from [malloc] has indeterminate contents; objects with automatic
    storage ([LinkedList dst;], [int tmp;]) start indeterminate as well. *)
Class Allocator := {
  alloc : gmap Z Node → option (Z * Node);
  uninit_list : LinkedList;
  uninit_int : Z;
  alloc_fresh : ∀ h p j, alloc h = Some (p, j) → h !! p = None;
  alloc_range : ∀ h p j, alloc h = Some (p, j) → 0 < p < SIZE_MOD
}.

(** An address above every key of a store: where a local object is placed. *)
Definition fresh_key {V} (m : gmap Z V) : Z :=
  1 + foldr Z.max 0 ((map_to_list m).*1).

Section Memory.
Context `{Allocator}.

Definition malloc_node : M Z :=
  λ st, match alloc (nodes st) with
        | Some (p, j) => Ok p (with_nodes (insert p j) st)
        | None => Fault AllocFailure
        end.

Definition load_node (p : Z) : M Node :=
  λ st, if p =? NULL then Fault NullDeref
        else match nodes st !! p with
             | Some n => Ok n st
             | None => Fault InvalidAccess
             end.

Definition put_node (p : Z) (n : Node) : M unit :=
  λ st, Ok tt (with_nodes (insert p n) st).
Definition store_node (p : Z) (n : Node) : M unit :=
  load_node p;; put_node p n.

Definition load_value (p : Z) : M Z := n ← load_node p; ret (value n).
Definition load_next (p : Z) : M Z := n ← load_node p; ret (next n).
Definition store_value (p v : Z) : M unit := n ← load_node p; store_node p (set_value v n).
Definition store_next (p q : Z) : M unit := n ← load_node p; store_node p (set_next q n).

(** [free(p)] / [delete p]; freeing null does nothing. *)
Definition free_node (p : Z) : M unit :=
  λ st, if p =? NULL then Ok tt st
        else match nodes st !! p with
             | Some _ => Ok tt (with_nodes (delete p) st)
             | None => Fault InvalidFree
             end.

Definition load_list (l : Z) : M LinkedList :=
  λ st, if l =? NULL then Fault NullDeref
        else match lists st !! l with
             | Some L => Ok L st
             | None => Fault InvalidAccess
             end.

Definition put_list (l : Z) (L : LinkedList) : M unit :=
  λ st, Ok tt (with_lists (insert l L) st).
Definition store_list (l : Z) (L : LinkedList) : M unit :=
  load_list l;; put_list l L.

Definition load_head (l : Z) : M Z := L ← load_list l; ret (head_ L).
Definition load_tail (l : Z) : M Z := L ← load_list l; ret (tail_ L).
Definition load_size (l : Z) : M Z := L ← load_list l; ret (size_ L).
Definition store_head (l p : Z) : M unit := L ← load_list l; store_list l (set_head p L).
Definition store_tail (l p : Z) : M unit := L ← load_list l; store_list l (set_tail p L).
Definition store_size (l n : Z) : M unit := L ← load_list l; store_list l (set_size n L).

(** [*out = v] *)
Definition store_int (out v : Z) : M unit :=
  λ st, if out =? NULL then Fault NullDeref
        else match ints st !! out with
             | Some _ => Ok tt (with_ints (insert out v) st)
             | None => Fault InvalidAccess
             end.

Definition load_int (p : Z) : M Z :=
  λ st, if p =? NULL then Fault NullDeref
        else match ints st !! p with
             | Some v => Ok v st
             | None => Fault InvalidAccess
             end.

(** A local [LinkedList] object: it lives at a fresh address for the
    duration of the body and is gone afterwards. *)
Definition with_local_list {A} (body : Z → M A) : M A :=
  λ st, let d := fresh_key (lists st) in
        match body d (with_lists (insert d uninit_list) st) with
        | Ok a st' => Ok a (with_lists (delete d) st')
        | Fault e => Fault e
        end.

(** A local [int] object. *)
Definition with_local_int {A} (body : Z → M A) : M A :=
  λ st, let d := fresh_key (ints st) in
        match body d (with_ints (insert d uninit_int) st) with
        | Ok a st' => Ok a (with_ints (delete d) st')
        | Fault e => Fault e
        end.

(** The number of live nodes: the fuel handed to a loop that follows [next]
    links until null.  A walk longer than that has met some node twice and
    so never ends; the model reports it as [Nonterm]. *)
Definition live_nodes : M nat := λ st, Ok (size (nodes st)) st.

(** [for (i = 0; i + 1 < index; ++i) prev = prev->next;] runs its body
    [index - 1] times. *)
Fixpoint advance (k : nat) (prev : Z) : M Z :=
  match k with
  | O => ret prev
  | S k' => nx ← load_next prev; advance k' nx
  end.

End Memory.

(** ** The C implementation: [c-linkedlist/memo/linked_list.c] *)

Module C.
Section Ops.
Context `{Allocator}.

(** [void ll_init(LinkedList* l)] *)
Definition ll_init (l : Z) : M unit :=
  store_head l NULL;; store_tail l NULL;; store_size l 0.

(** [int ll_empty(const LinkedList* l)] *)
Definition ll_empty (l : Z) : M Z :=
  sz ← load_size l; ret (if sz =? 0 then 1 else 0).

(** [size_t ll_size(const LinkedList* l)] *)
Definition ll_size (l : Z) : M Z := load_size l.

(** [while(n){ Node* nx=n->next; free(n); n=nx; }] *)
Fixpoint clear_loop (fuel : nat) (n : Z) : M unit :=
  if n =? NULL then ret tt
  else match fuel with
       | O => fault Nonterm
       | S fuel' => nx ← load_next n; free_node n;; clear_loop fuel' nx
       end.

(** [void ll_clear(LinkedList* l)] *)
Definition ll_clear (l : Z) : M unit :=
  n ← load_head l;
  fuel ← live_nodes;
  clear_loop fuel n;;
  store_tail l NULL;; store_head l NULL;;
  store_size l 0.

(** [void ll_push_front(LinkedList* l, int v)] *)
Definition ll_push_front (l v : Z) : M unit :=
  n ← malloc_node;
  store_value n v;;
  h ← load_head l; store_next n h;;
  store_head l n;;
  t ← load_tail l;
  (if t =? NULL then store_tail l n else ret tt);;
  sz ← load_size l; store_size l (wrap (sz + 1)).

(** [void ll_push_back(LinkedList* l, int v)] *)
Definition ll_push_back (l v : Z) : M unit :=
  n ← malloc_node;
  store_value n v;;
  store_next n NULL;;
  t ← load_tail l;
  (if t =? NULL then store_tail l n;; store_head l n
   else store_next t n;; store_tail l n);;
  sz ← load_size l; store_size l (wrap (sz + 1)).

(** [int ll_pop_front(LinkedList* l, int* out)] *)
Definition ll_pop_front (l out : Z) : M Z :=
  h ← load_head l;
  if h =? NULL then ret 0
  else
    let n := h in
    nx ← load_next n; store_head l nx;;
    h' ← load_head l;
    (if h' =? NULL then store_tail l NULL else ret tt);;
    (if out =? NULL then ret tt else v ← load_value n; store_int out v);;
    free_node n;;
    sz ← load_size l; store_size l (wrap (sz - 1));;
    ret 1.

(** [int ll_front(const LinkedList* l, int* out)] *)
Definition ll_front (l out : Z) : M Z :=
  h ← load_head l;
  if h =? NULL then ret 0
  else
    (if out =? NULL then ret tt else v ← load_value h; store_int out v);;
    ret 1.

(** [int ll_back(const LinkedList* l, int* out)] *)
Definition ll_back (l out : Z) : M Z :=
  t ← load_tail l;
  if t =? NULL then ret 0
  else
    (if out =? NULL then ret tt else v ← load_value t; store_int out v);;
    ret 1.

(** [int ll_insert(LinkedList* l, size_t index, int value)] *)
Definition ll_insert (l index v : Z) : M Z :=
  sz ← load_size l;
  if index >? sz then ret 0
  else if index =? 0 then ll_push_front l v;; ret 1
  else
    sz ← load_size l;
    if index =? sz then ll_push_back l v;; ret 1
    else
      h ← load_head l;
      prev ← advance (Z.to_nat (wrap (index - 1))) h;
      n ← malloc_node;
      store_value n v;;
      nx ← load_next prev; store_next n nx;;
      store_next prev n;;
      sz ← load_size l; store_size l (wrap (sz + 1));;
      ret 1.

(** [int ll_erase(LinkedList* l, size_t index)] *)
Definition ll_erase (l index : Z) : M Z :=
  sz ← load_size l;
  if index >=? sz then ret 0
  else if index =? 0 then with_local_int (λ tmp, ll_pop_front l tmp)
  else
    h ← load_head l;
    prev ← advance (Z.to_nat (wrap (index - 1))) h;
    victim ← load_next prev;
    nx ← load_next victim; store_next prev nx;;
    t ← load_tail l;
    (if victim =? t then store_tail l prev else ret tt);;
    free_node victim;;
    sz ← load_size l; store_size l (wrap (sz - 1));;
    ret 1.

(** [for(Node* n=src->head;n;n=n->next) ll_push_back(&dst, n->value);] *)
Fixpoint copy_loop (fuel : nat) (dst n : Z) : M unit :=
  if n =? NULL then ret tt
  else match fuel with
       | O => fault Nonterm
       | S fuel' =>
           v ← load_value n; ll_push_back dst v;;
           nx ← load_next n; copy_loop fuel' dst nx
       end.

(** [LinkedList ll_copy(const LinkedList* src)]: the result is returned by
    value; the local [dst] is gone when the function returns. *)
Definition ll_copy (src : Z) : M LinkedList :=
  with_local_list (λ dst,
    ll_init dst;;
    n ← load_head src;
    fuel ← live_nodes;
    copy_loop fuel dst n;;
    load_list dst).

(** [LinkedList ll_move_from(LinkedList* src)] *)
Definition ll_move_from (src : Z) : M LinkedList :=
  dst ← load_list src;
  ll_init src;;
  ret dst.

(** [void ll_move_assign_from(LinkedList* dst, LinkedList* src)] *)
Definition ll_move_assign_from (dst src : Z) : M unit :=
  ll_clear dst;;
  S ← load_list src; store_list dst S;;
  ll_init src.

(** The traversal of [print_list] in [c-linkedlist/main/main.c]: the values
    it prints, in order, and the size it prints after them. *)
Fixpoint print_loop (fuel : nat) (n : Z) : M (list Z) :=
  if n =? NULL then ret []
  else match fuel with
       | O => fault Nonterm
       | S fuel' =>
           v ← load_value n;
           nx ← load_next n;
           rest ← print_loop fuel' nx;
           ret (v :: rest)
       end.

Definition print_list (lst : Z) : M (list Z * Z) :=
  n ← load_head lst;
  fuel ← live_nodes;
  vs ← print_loop fuel n;
  sz ← load_size lst;
  ret (vs, sz).

(** *** Programs over the public interface

    A caller's straight-line program: each step is one call of the interface
    on list objects named by address.  [Copy dst src] is [dst = ll_copy(&src)]
    and [MoveFrom dst src] is [dst = ll_move_from(&src)], as the harness
    writes them. *)
Inductive op :=
| Init (l : Z)
| Clear (l : Z)
| Empty (l : Z)
| Size (l : Z)
| PushFront (l v : Z)
| PushBack (l v : Z)
| PopFront (l out : Z)
| Front (l out : Z)
| Back (l out : Z)
| Insert (l index v : Z)
| Erase (l index : Z)
| Copy (dst src : Z)
| MoveFrom (dst src : Z)
| MoveAssign (dst src : Z).

Definition run_op (o : op) : M unit :=
  match o with
  | Init l => ll_init l
  | Clear l => ll_clear l
  | Empty l => ll_empty l;; ret tt
  | Size l => ll_size l;; ret tt
  | PushFront l v => ll_push_front l v
  | PushBack l v => ll_push_back l v
  | PopFront l out => ll_pop_front l out;; ret tt
  | Front l out => ll_front l out;; ret tt
  | Back l out => ll_back l out;; ret tt
  | Insert l index v => ll_insert l index v;; ret tt
  | Erase l index => ll_erase l index;; ret tt
  | Copy dst src => L ← ll_copy src; store_list dst L
  | MoveFrom dst src => L ← ll_move_from src; store_list dst L
  | MoveAssign dst src => ll_move_assign_from dst src
  end.

Fixpoint run (os : list op) : M unit :=
  match os with
  | [] => ret tt
  | o :: os' => run_op o;; run os'
  end.

(** The list objects a step may write. *)
Definition writes (o : op) : list Z :=
  match o with
  | Init l | Clear l | Empty l | Size l | PushFront l _ | PushBack l _
  | PopFront l _ | Front l _ | Back l _ | Insert l _ _ | Erase l _ => [l]
  | Copy dst _ => [dst]
  | MoveFrom dst src | MoveAssign dst src => [dst; src]
  end.

(** The list objects a step names, its [int*] argument and its index. *)
Definition lists_of (o : op) : list Z :=
  match o with
  | Copy dst src | MoveFrom dst src | MoveAssign dst src => [dst; src]
  | _ => writes o
  end.

Definition out_of (o : op) : Z :=
  match o with
  | PopFront _ out | Front _ out | Back _ out => out
  | _ => NULL
  end.

Definition index_of (o : op) : Z :=
  match o with
  | Insert _ index _ | Erase _ index => index
  | _ => 0
  end.

End Ops.
End C.

(** ** The C++ implementation: [cpp-linkedlist/memo/LinkedList.cpp]

    A member function takes the address of its object as [this]; a [bool]
    result is a [bool]; an [int&] parameter is the address of the [int]. *)

Module Cpp.
Section Ops.
Context `{Allocator}.

(** [new Node(v)], with [explicit Node(int v) : value(v), next(nullptr) {}] *)
Definition new_Node (v : Z) : M Z :=
  n ← malloc_node;
  put_node n (mkNode v NULL);;
  ret n.

(** [LinkedList::LinkedList() : head_(nullptr), tail_(nullptr), size_(0) {}] *)
Definition ctor (this : Z) : M unit :=
  store_head this NULL;; store_tail this NULL;; store_size this 0.

(** [bool LinkedList::empty() const noexcept] *)
Definition empty (this : Z) : M bool :=
  sz ← load_size this; ret (sz =? 0).

(** [std::size_t LinkedList::size() const noexcept] *)
Definition size (this : Z) : M Z := load_size this.

(** [for (auto *n = head_; n;) { auto *next = n->next; delete n; n = next; }] *)
Fixpoint clear_loop (fuel : nat) (n : Z) : M unit :=
  if n =? NULL then ret tt
  else match fuel with
       | O => fault Nonterm
       | S fuel' => nx ← load_next n; free_node n;; clear_loop fuel' nx
       end.

(** [void LinkedList::clear() noexcept] *)
Definition clear (this : Z) : M unit :=
  n ← load_head this;
  fuel ← live_nodes;
  clear_loop fuel n;;
  store_tail this NULL;; store_head this NULL;;
  store_size this 0.

(** [LinkedList::~LinkedList() { clear(); }] *)
Definition dtor (this : Z) : M unit := clear this.

(** [void LinkedList::push_front(int v)] *)
Definition push_front (this v : Z) : M unit :=
  n ← new_Node v;
  h ← load_head this; store_next n h;;
  store_head this n;;
  t ← load_tail this;
  (if t =? NULL then store_tail this n else ret tt);;
  sz ← load_size this; store_size this (wrap (sz + 1)).

(** [void LinkedList::push_back(int v)] *)
Definition push_back (this v : Z) : M unit :=
  n ← new_Node v;
  t ← load_tail this;
  (if negb (t =? NULL) then store_next t n;; store_tail this n
   else store_tail this n;; store_head this n);;
  sz ← load_size this; store_size this (wrap (sz + 1)).

(** [bool LinkedList::pop_front(int &out)] *)
Definition pop_front (this out : Z) : M bool :=
  h ← load_head this;
  if h =? NULL then ret false
  else
    let n := h in
    v ← load_value n; store_int out v;;
    nx ← load_next n; store_head this nx;;
    h' ← load_head this;
    (if h' =? NULL then store_tail this NULL else ret tt);;
    free_node n;;
    sz ← load_size this; store_size this (wrap (sz - 1));;
    ret true.

(** [int &LinkedList::front() { return head_->value; }], read by the caller *)
Definition front (this : Z) : M Z :=
  h ← load_head this; load_value h.

(** [int &LinkedList::back() { return tail_->value; }], read by the caller *)
Definition back (this : Z) : M Z :=
  t ← load_tail this; load_value t.

(** [bool LinkedList::insert(std::size_t index, int value)] *)
Definition insert (this index v : Z) : M bool :=
  sz ← load_size this;
  if index >? sz then ret false
  else if index =? 0 then push_front this v;; ret true
  else
    sz ← load_size this;
    if index =? sz then push_back this v;; ret true
    else
      h ← load_head this;
      prev ← advance (Z.to_nat (index - 1)) h;
      n ← new_Node v;
      nx ← load_next prev; store_next n nx;;
      store_next prev n;;
      sz ← load_size this; store_size this (wrap (sz + 1));;
      ret true.

(** [bool LinkedList::erase(std::size_t index)] *)
Definition erase (this index : Z) : M bool :=
  sz ← load_size this;
  if index >=? sz then ret false
  else if index =? 0 then with_local_int (λ tmp, pop_front this tmp)
  else
    h ← load_head this;
    prev ← advance (Z.to_nat (index - 1)) h;
    victim ← load_next prev;
    nx ← load_next victim; store_next prev nx;;
    t ← load_tail this;
    (if victim =? t then store_tail this prev else ret tt);;
    free_node victim;;
    sz ← load_size this; store_size this (wrap (sz - 1));;
    ret true.

(** [for (auto *n = head_; n; n = n->next) out.push_back(n->value);] *)
Fixpoint toVector_loop (fuel : nat) (n : Z) : M (list Z) :=
  if n =? NULL then ret []
  else match fuel with
       | O => fault Nonterm
       | S fuel' =>
           v ← load_value n;
           nx ← load_next n;
           rest ← toVector_loop fuel' nx;
           ret (v :: rest)
       end.

(** [std::vector<int> LinkedList::toVector() const] *)
Definition toVector (this : Z) : M (list Z) :=
  n ← load_head this;
  fuel ← live_nodes;
  toVector_loop fuel n.

(** [for (auto *n = other.head_; n; n = n->next) push_back(n->value);] *)
Fixpoint copyFrom_loop (fuel : nat) (this n : Z) : M unit :=
  if n =? NULL then ret tt
  else match fuel with
       | O => fault Nonterm
       | S fuel' =>
           v ← load_value n; push_back this v;;
           nx ← load_next n; copyFrom_loop fuel' this nx
       end.

(** [void LinkedList::copyFrom(const LinkedList &other)] *)
Definition copyFrom (this other : Z) : M unit :=
  n ← load_head other;
  fuel ← live_nodes;
  copyFrom_loop fuel this n.

(** [LinkedList::LinkedList(const LinkedList &other) : LinkedList() { copyFrom(other); }] *)
Definition copy_ctor (this other : Z) : M unit :=
  ctor this;; copyFrom this other.

(** [LinkedList::LinkedList(LinkedList &&other) noexcept] *)
Definition move_ctor (this other : Z) : M unit :=
  h ← load_head other; store_head this h;;
  t ← load_tail other; store_tail this t;;
  sz ← load_size other; store_size this sz;;
  store_tail other NULL;; store_head other NULL;;
  store_size other 0.

(** [LinkedList &LinkedList::operator=(const LinkedList &other)] *)
Definition copy_assign (this other : Z) : M unit :=
  if negb (this =? other) then clear this;; copyFrom this other
  else ret tt.

(** [LinkedList &LinkedList::operator=(LinkedList &&other) noexcept] *)
Definition move_assign (this other : Z) : M unit :=
  if negb (this =? other) then
    clear this;;
    h ← load_head other; store_head this h;;
    t ← load_tail other; store_tail this t;;
    sz ← load_size other; store_size this sz;;
    store_tail other NULL;; store_head other NULL;;
    store_size other 0
  else ret tt.

(** *** Programs over the public interface *)
Inductive op :=
| Ctor (this : Z)
| CopyCtor (this other : Z)
| MoveCtor (this other : Z)
| CopyAssign (this other : Z)
| MoveAssign (this other : Z)
| Dtor (this : Z)
| Empty (this : Z)
| Size (this : Z)
| Clear (this : Z)
| PushFront (this v : Z)
| PushBack (this v : Z)
| PopFront (this out : Z)
| Front (this : Z)
| Back (this : Z)
| Insert (this index v : Z)
| Erase (this index : Z)
| ToVector (this : Z).

Definition run_op (o : op) : M unit :=
  match o with
  | Ctor this => ctor this
  | CopyCtor this other => copy_ctor this other
  | MoveCtor this other => move_ctor this other
  | CopyAssign this other => copy_assign this other
  | MoveAssign this other => move_assign this other
  | Dtor this => dtor this
  | Empty this => empty this;; ret tt
  | Size this => size this;; ret tt
  | Clear this => clear this
  | PushFront this v => push_front this v
  | PushBack this v => push_back this v
  | PopFront this out => pop_front this out;; ret tt
  | Front this => front this;; ret tt
  | Back this => back this;; ret tt
  | Insert this index v => insert this index v;; ret tt
  | Erase this index => erase this index;; ret tt
  | ToVector this => toVector this;; ret tt
  end.

Fixpoint run (os : list op) : M unit :=
  match os with
  | [] => ret tt
  | o :: os' => run_op o;; run os'
  end.

Definition writes (o : op) : list Z :=
  match o with
  | Ctor this | Dtor this | Empty this | Size this | Clear this
  | PushFront this _ | PushBack this _ | PopFront this _ | Front this
  | Back this | Insert this _ _ | Erase this _ | ToVector this => [this]
  | CopyCtor this _ | CopyAssign this _ => [this]
  | MoveCtor this other | MoveAssign this other => [this; other]
  end.

Definition lists_of (o : op) : list Z :=
  match o with
  | CopyCtor this other | CopyAssign this other
  | MoveCtor this other | MoveAssign this other => [this; other]
  | _ => writes o
  end.

(** The [int&] argument of a step, if it has one. *)
Definition out_of (o : op) : option Z :=
  match o with
  | PopFront _ out => Some out
  | _ => None
  end.

Definition index_of (o : op) : Z :=
  match o with
  | Insert _ index _ | Erase _ index => index
  | _ => 0
  end.

(** A step that reads through [head_] or [tail_] without a test. *)
Definition is_query (o : op) : bool :=
  match o with
  | Front _ | Back _ => true
  | _ => false
  end.

End Ops.
End Cpp.

(** ** The harness entry points

    [main] of [c-linkedlist/main/main.c] and of [cpp-linkedlist/main/main.cpp].
    [argv] holds the program name and then the arguments, so [argc] is its
    length.  The three task groups are the harness's own procedures; [main]
    runs them and returns the exit status. *)

Definition argc (argv : list string) : Z := Z.of_nat (length argv).

(** [argv[1]] *)
Definition argv1 (argv : list string) : string := nth 1 argv ""%string.

Section Harness.
Variables task1_basic_ops task2_insert_erase task3_copy_move : M unit.

Definition C_main (argv : list string) : M Z :=
  let which := if argc argv >=? 2 then argv1 argv else ""%string in
  if String.eqb which "task1" then task1_basic_ops;; ret 0
  else if String.eqb which "task2" then task2_insert_erase;; ret 0
  else if String.eqb which "task3" then task3_copy_move;; ret 0
  else
    task1_basic_ops;;
    task2_insert_erase;;
    task3_copy_move;;
    ret 0.

Definition Cpp_main (argv : list string) : M Z :=
  if argc argv >=? 2 then
    let which := argv1 argv in
    if String.eqb which "task1" then task1_basic_ops;; ret 0
    else if String.eqb which "task2" then task2_insert_erase;; ret 0
    else if String.eqb which "task3" then task3_copy_move;; ret 0
    else ret 2
  else
    task1_basic_ops;;
    task2_insert_erase;;
    task3_copy_move;;
    ret 0.

End Harness.

(** ** Chains of nodes

    A cell is a node seen from outside: its address and its value.
    [lseg h p cs q] says that following [next] links in [h] from [p] visits
    exactly the live nodes [cs], in order, and then arrives at [q]. *)

Abbreviation cell := (Z * Z)%type.

Fixpoint lseg (h : gmap Z Node) (p : Z) (cs : list cell) (q : Z) : Prop :=
  match cs with
  | [] => p = q
  | c :: cs' =>
      p = c.1 ∧ p ≠ NULL ∧ ∃ nx, h !! p = Some (mkNode c.2 nx) ∧ lseg h nx cs' q
  end.

(** The address of the last cell, null for no cell. *)
Definition last_addr (cs : list cell) : Z :=
  match last cs with
  | Some c => c.1
  | None => NULL
  end.

(** What the three members of a list object say about the heap: [head_]
    starts a null-terminated chain, [tail_] is its last node and [size_]
    its length. *)
Definition rep_list (h : gmap Z Node) (L : LinkedList) (cs : list cell) : Prop :=
  lseg h (head_ L) cs NULL ∧ tail_ L = last_addr cs ∧ size_ L = Z.of_nat (length cs).

(** Every live node sits at a non-null address that fits a pointer. *)
Definition heap_ok (h : gmap Z Node) : Prop :=
  ∀ p n, h !! p = Some n → 0 < p < SIZE_MOD.

(** All nodes at the addresses [ps] released. *)
Definition free_all (ps : list Z) (h : gmap Z Node) : gmap Z Node :=
  foldr delete h ps.

(** The heap [h'] agrees with [h] away from the addresses [ps]. *)
Definition frame_outside (ps : list Z) (h h' : gmap Z Node) : Prop :=
  ∀ a, a ∉ ps → h' !! a = h !! a.

(** Which cells each list object owns: every owner is a well-formed list over
    its cells, and no node belongs to two lists. *)
Definition world_inv (st : state) (O : gmap Z (list cell)) : Prop :=
  heap_ok (nodes st) ∧
  (∀ l cs, O !! l = Some cs →
     l ≠ NULL ∧ ∃ L, lists st !! l = Some L ∧ rep_list (nodes st) L cs) ∧
  (∀ l1 l2 cs1 cs2, l1 ≠ l2 → O !! l1 = Some cs1 → O !! l2 = Some cs2 →
     ∀ a, a ∈ cs1.*1 → a ∉ cs2.*1).

(** How one step, or a whole program, may end when it starts in a
    well-formed world: the allocator gave out, or the world is well-formed
    again over the same list objects, the same [int] objects are live, and
    every list the program does not write still owns the cells it owned. *)
Definition step_ok (ws : list Z) (st : state) (O : gmap Z (list cell))
    (r : result unit) : Prop :=
  r = Fault AllocFailure ∨
  ∃ st' O', r = Ok tt st' ∧ world_inv st' O' ∧ dom O' = dom O ∧
    dom (ints st') = dom (ints st) ∧ (∀ l, l ∉ ws → O' !! l = O !! l).

(** The invariant of one list object, in the words of the data model: the
    nodes reachable from [head_] are counted by [size_], the node at [tail_]
    has no successor, and the list is empty exactly when [head_] is null and
    exactly when [tail_] is null. *)
Definition structural_invariant (st : state) (l : Z) : Prop :=
  ∃ L cs, lists st !! l = Some L ∧
    lseg (nodes st) (head_ L) cs NULL ∧
    size_ L = Z.of_nat (length cs) ∧
    (tail_ L ≠ NULL → ∃ v, nodes st !! tail_ L = Some (mkNode v NULL)) ∧
    (size_ L = 0 ↔ head_ L = NULL) ∧ (head_ L = NULL ↔ tail_ L = NULL).

(** The write [if(out) *out = v], and an [out] that is null or points to an
    [int]. *)
Definition write_out (out v : Z) (m : gmap Z Z) : gmap Z Z :=
  if out =? NULL then m else <[out:=v]> m.

Definition out_ok (out : Z) (m : gmap Z Z) : Prop :=
  out = NULL ∨ is_Some (m !! out).

(** What a copy adds to the heap: new cells [ds'] holding the values [vs],
    all at addresses that were not live, everything else left as it was. *)
Definition copied (vs : list Z) (ds' : list cell) (owned : list Z)
    (h h' : gmap Z Node) : Prop :=
  ds'.*2 = vs ∧ frame_outside (ds'.*1 ++ owned) h h' ∧
  (∀ a, a ∈ ds'.*1 → h !! a = None) ∧ heap_ok h'.

(** The allocator delivers [n] nodes in a row starting from the heap [h],
    whatever the code stores in the nodes in between: what a loop of [n]
    allocations needs to run to its end. *)
Fixpoint can_alloc `{Allocator} (n : nat) (h : gmap Z Node) : Prop :=
  match n with
  | O => True
  | S n' =>
      ∃ p j, alloc h = Some (p, j) ∧ ∀ h', dom h' = dom h ∪ {[p]} → can_alloc n' h'
  end.

(** An [int] status of the C interface read as a [bool]. *)
Definition to_bool (r : Z) : bool := negb (r =? 0).

Definition as_bool (c : M Z) : M bool := r ← c; ret (to_bool r).

(** ** Observations

    [toSequence]: the values of a list from head to tail, as the C harness
    prints them and as [toVector] returns them; none if the traversal is
    lost. *)
Definition C_seq (l : Z) (st : state) : option (list Z) :=
  match C.print_list l st with
  | Ok (vs, _) _ => Some vs
  | Fault _ => None
  end.

Definition Cpp_seq (l : Z) (st : state) : option (list Z) :=
  match Cpp.toVector l st with
  | Ok vs _ => Some vs
  | Fault _ => None
  end.

(** The list object at [l] is in the empty state. *)
Definition is_reset (l : Z) (st : state) : Prop :=
  lists st !! l = Some (mkList NULL NULL 0).

(** The list object at [l] holds the one value [w] in the one node [p]:
    [head_] and [tail_] are both [p], which has no successor. *)
Definition is_single (l p w : Z) (st : state) : Prop :=
  lists st !! l = Some (mkList p p 1) ∧ nodes st !! p = Some (mkNode w NULL).

(** One push of [w], by any of the four push functions, on the list at [l]
    ends with [l] holding exactly [w] in the node the allocator hands out. *)
Definition push_makes_single `{Allocator} (l w : Z) (st : state) : Prop :=
  ∀ p j, alloc (nodes st) = Some (p, j) →
    ∀ push, push ∈ [C.ll_push_front l w; C.ll_push_back l w;
                    Cpp.push_front l w; Cpp.push_back l w] →
      ∃ st', push st = Ok tt st' ∧ is_single l p w st'.

(** A step of a C program is well-formed over the list objects [Ls] and the
    [int] objects [Is]: it names lists of [Ls], its [int*] argument is null
    or in [Is], and its index is a [size_t]. *)
Definition C_op_wf (Ls Is : gset Z) (o : C.op) : Prop :=
  (∀ l, l ∈ C.lists_of o → l ∈ Ls) ∧
  (C.out_of o = NULL ∨ C.out_of o ∈ Is) ∧
  0 <= C.index_of o < SIZE_MOD.

(** The same for a C++ program; an [int&] argument is always an object. *)
Definition Cpp_op_wf (Ls Is : gset Z) (o : Cpp.op) : Prop :=
  (∀ l, l ∈ Cpp.lists_of o → l ∈ Ls) ∧
  (∀ out, Cpp.out_of o = Some out → out ≠ NULL ∧ out ∈ Is) ∧
  0 <= Cpp.index_of o < SIZE_MOD.

(** ** A concrete allocator

    First address above all live nodes; fails when that address does not fit
    a pointer.  Fresh memory reads as [junk]. *)
Definition bump_alloc (junk : Node) (h : gmap Z Node) : option (Z * Node) :=
  let p := fresh_key h in
  if p <? SIZE_MOD then Some (p, junk) else None.

(** ** Example states

    A list object at address 100 and a second, empty one at 101, with one
    [int] object at 200. *)

(** The list at 100 holds 10 and 20 in the nodes 1 and 2. *)
Definition ex_state : state :=
  {| lists := {[ 100 := mkList 1 2 2; 101 := mkList NULL NULL 0 ]};
     nodes := {[ 1 := mkNode 10 2; 2 := mkNode 20 NULL ]};
     ints := {[ 200 := 0 ]} |}.

(** The list at 100 holds only 10, in the node 1. *)
Definition ex_single : state :=
  {| lists := {[ 100 := mkList 1 1 1 ]};
     nodes := {[ 1 := mkNode 10 NULL ]};
     ints := {[ 200 := 0 ]} |}.

(** Storage for the list objects 100 and 101, not yet initialised. *)
Definition ex_raw : state :=
  {| lists := {[ 100 := mkList 7 7 7; 101 := mkList 8 8 8 ]};
     nodes := ∅;
     ints := {[ 200 := 0 ]} |}.

(** A C program and a C++ program over the two list objects. *)
Definition ex_prog_C : list C.op :=
  [C.PushFront 100 2; C.PushBack 100 5; C.PushFront 100 1; C.PopFront 100 200;
   C.Copy 101 100; C.Insert 100 1 9; C.Erase 100 2; C.MoveAssign 101 100].

Definition ex_prog_Cpp : list Cpp.op :=
  [Cpp.PushFront 100 2; Cpp.PushBack 100 5; Cpp.PushFront 100 1; Cpp.Front 100;
   Cpp.PopFront 100 200; Cpp.CopyAssign 101 100; Cpp.Insert 100 1 9;
   Cpp.Erase 100 2; Cpp.MoveAssign 101 100].

(** A C program and a C++ program that leave the list at 101 alone. *)
Definition ex_mutate_C : list C.op :=
  [C.PushBack 100 40; C.Erase 100 1; C.PopFront 100 NULL; C.Clear 100].

Definition ex_mutate_Cpp : list Cpp.op :=
  [Cpp.PushBack 100 40; Cpp.Erase 100 1; Cpp.PopFront 100 200; Cpp.Clear 100].

(** The cells the two lists of [ex_state] own. *)
Definition ex_owner : gmap Z (list cell) := {[ 100 := [(1, 10); (2, 20)]; 101 := [] ]}.

(** Two lists in use and one raw object: the list at 100 holds 10 and 20 in
    the nodes 1 and 2, the list at 101 holds 30 in the node 5, and 102 is
    storage for a list object that no constructor has run on yet. *)
Definition ex_two : state :=
  {| lists := {[ 100 := mkList 1 2 2; 101 := mkList 5 5 1; 102 := mkList 7 7 7 ]};
     nodes := {[ 1 := mkNode 10 2; 2 := mkNode 20 NULL; 5 := mkNode 30 NULL ]};
     ints := {[ 200 := 0 ]} |}.

Definition ex_two_owner : gmap Z (list cell) :=
  {[ 100 := [(1, 10); (2, 20)]; 101 := [(5, 30)] ]}.

(** The sequences of the lists at 100 and 101 after a run. *)
Definition final_seqs (r : result unit) : option (list Z) * option (list Z) :=
  match r with
  | Ok _ st => (C_seq 100 st, C_seq 101 st)
  | Fault _ => (None, None)
  end.

(** ** The student skeleton: [c-linkedlist/spec/linked_list.c]

    The file handed to students: the same interface, with the bodies left to
    be written.  A program over it is a program over the C interface. *)

Module Skel.
Section Ops.
Context `{Allocator}.

(** [void ll_init(LinkedList* l){ l->head=0; l->tail=0; l->size=0; }] *)
Definition ll_init (l : Z) : M unit :=
  store_head l NULL;; store_tail l NULL;; store_size l 0.

(** [void ll_clear(LinkedList* l){ /* TODO */ }] *)
Definition ll_clear (l : Z) : M unit := ret tt.

(** [int ll_empty(const LinkedList* l){ return l->size==0; }] *)
Definition ll_empty (l : Z) : M Z :=
  sz ← load_size l; ret (if sz =? 0 then 1 else 0).

(** [size_t ll_size(const LinkedList* l){ return l->size; }] *)
Definition ll_size (l : Z) : M Z := load_size l.

(** [void ll_push_front(LinkedList* l, int v){ (void)l; (void)v; }] *)
Definition ll_push_front (l v : Z) : M unit := ret tt.

(** [void ll_push_back(LinkedList* l, int v){ (void)l; (void)v; }] *)
Definition ll_push_back (l v : Z) : M unit := ret tt.

(** [int ll_pop_front(LinkedList* l, int* out){ (void)l; (void)out; return 0; }] *)
Definition ll_pop_front (l out : Z) : M Z := ret 0.

(** [int ll_front(const LinkedList* l, int* out){ ...; return 0; }] *)
Definition ll_front (l out : Z) : M Z := ret 0.

(** [int ll_back(const LinkedList* l, int* out){ ...; return 0; }] *)
Definition ll_back (l out : Z) : M Z := ret 0.

(** [int ll_insert(LinkedList* l, size_t index, int value){ ...; return 0; }] *)
Definition ll_insert (l index v : Z) : M Z := ret 0.

(** [int ll_erase(LinkedList* l, size_t index){ ...; return 0; }] *)
Definition ll_erase (l index : Z) : M Z := ret 0.

(** [LinkedList ll_copy(const LinkedList* src){ (void)src; LinkedList d; ll_init(&d); return d; }] *)
Definition ll_copy (src : Z) : M LinkedList :=
  with_local_list (λ d, ll_init d;; load_list d).

(** [LinkedList ll_move_from(LinkedList* src){ LinkedList d=*src; ll_init(src); return d; }] *)
Definition ll_move_from (src : Z) : M LinkedList :=
  d ← load_list src;
  ll_init src;;
  ret d.

(** [void ll_move_assign_from(LinkedList* dst, LinkedList* src){ /* TODO */ }] *)
Definition ll_move_assign_from (dst src : Z) : M unit := ret tt.

Definition run_op (o : C.op) : M unit :=
  match o with
  | C.Init l => ll_init l
  | C.Clear l => ll_clear l
  | C.Empty l => ll_empty l;; ret tt
  | C.Size l => ll_size l;; ret tt
  | C.PushFront l v => ll_push_front l v
  | C.PushBack l v => ll_push_back l v
  | C.PopFront l out => ll_pop_front l out;; ret tt
  | C.Front l out => ll_front l out;; ret tt
  | C.Back l out => ll_back l out;; ret tt
  | C.Insert l index v => ll_insert l index v;; ret tt
  | C.Erase l index => ll_erase l index;; ret tt
  | C.Copy dst src => L ← ll_copy src; store_list dst L
  | C.MoveFrom dst src => L ← ll_move_from src; store_list dst L
  | C.MoveAssign dst src => ll_move_assign_from dst src
  end.

Fixpoint run (os : list C.op) : M unit :=
  match os with
  | [] => ret tt
  | o :: os' => run_op o;; run os'
  end.

End Ops.
End Skel.

(** ** Programs as sequence transformers

    What a program computes once nodes and addresses are forgotten: every
    list object holds a sequence of values and every [int] object a value.
    One step function per implementation, read off the operations above. *)

Record machine := mkMachine { seqs : gmap Z (list Z); vals : gmap Z Z }.

Definition seq_at (m : machine) (l : Z) : list Z := default [] (seqs m !! l).

Definition set_seq (l : Z) (xs : list Z) (m : machine) : machine :=
  mkMachine (<[l:=xs]> (seqs m)) (vals m).

Definition set_val (out v : Z) (m : machine) : machine :=
  mkMachine (seqs m) (write_out out v (vals m)).

(** [insert(index, v)] and [erase(index)] on a sequence; an index out of
    range changes nothing. *)
Definition insert_at (i v : Z) (xs : list Z) : list Z :=
  if i >? Z.of_nat (length xs) then xs
  else take (Z.to_nat i) xs ++ v :: drop (Z.to_nat i) xs.

Definition erase_at (i : Z) (xs : list Z) : list Z :=
  if i >=? Z.of_nat (length xs) then xs else delete (Z.to_nat i) xs.

(** The sequences taken from one list by another, which is left empty. *)
Definition transfer (dst src : Z) (m : machine) : machine :=
  set_seq src [] (set_seq dst (seq_at m src) m).

Definition C_seq_step (o : C.op) (m : machine) : machine :=
  match o with
  | C.Init l | C.Clear l => set_seq l [] m
  | C.Empty _ | C.Size _ => m
  | C.PushFront l v => set_seq l (v :: seq_at m l) m
  | C.PushBack l v => set_seq l (seq_at m l ++ [v]) m
  | C.PopFront l out =>
      match seq_at m l with
      | [] => m
      | x :: xs => set_val out x (set_seq l xs m)
      end
  | C.Front l out =>
      match seq_at m l with
      | [] => m
      | x :: _ => set_val out x m
      end
  | C.Back l out =>
      match last (seq_at m l) with
      | None => m
      | Some x => set_val out x m
      end
  | C.Insert l i v => set_seq l (insert_at i v (seq_at m l)) m
  | C.Erase l i => set_seq l (erase_at i (seq_at m l)) m
  | C.Copy dst src => set_seq dst (seq_at m src) m
  | C.MoveFrom dst src => if dst =? src then m else transfer dst src m
  | C.MoveAssign dst src => transfer dst src m
  end.

Definition C_seq_run (os : list C.op) (m : machine) : machine :=
  foldl (λ m o, C_seq_step o m) m os.

(** A C++ step has no outcome where the member function reads through a
    null [head_] or [tail_]. *)
Definition Cpp_seq_step (o : Cpp.op) (m : machine) : option machine :=
  match o with
  | Cpp.Ctor this | Cpp.Dtor this | Cpp.Clear this => Some (set_seq this [] m)
  | Cpp.CopyCtor this other =>
      Some (set_seq this (if this =? other then [] else seq_at m other) m)
  | Cpp.MoveCtor this other => Some (transfer this other m)
  | Cpp.CopyAssign this other =>
      Some (if this =? other then m else set_seq this (seq_at m other) m)
  | Cpp.MoveAssign this other =>
      Some (if this =? other then m else transfer this other m)
  | Cpp.Empty _ | Cpp.Size _ | Cpp.ToVector _ => Some m
  | Cpp.PushFront this v => Some (set_seq this (v :: seq_at m this) m)
  | Cpp.PushBack this v => Some (set_seq this (seq_at m this ++ [v]) m)
  | Cpp.PopFront this out =>
      Some match seq_at m this with
           | [] => m
           | x :: xs => set_val out x (set_seq this xs m)
           end
  | Cpp.Front this | Cpp.Back this =>
      match seq_at m this with
      | [] => None
      | _ :: _ => Some m
      end
  | Cpp.Insert this i v => Some (set_seq this (insert_at i v (seq_at m this)) m)
  | Cpp.Erase this i => Some (set_seq this (erase_at i (seq_at m this)) m)
  end.

Fixpoint Cpp_seq_run (os : list Cpp.op) (m : machine) : option machine :=
  match os with
  | [] => Some m
  | o :: os' =>
      match Cpp_seq_step o m with
      | Some m' => Cpp_seq_run os' m'
      | None => None
      end
  end.

(** Whether a step leaves no node behind.  Setting up a list object again
    ([ll_init], a constructor) or storing a returned list into it
    ([dst = ll_copy(&src)], [dst = ll_move_from(&src)]) overwrites its
    members, so the nodes it held are lost unless it held none; every other
    step releases what it unlinks. *)
Definition C_keeps_nodes (o : C.op) (m : machine) : bool :=
  match o with
  | C.Init l | C.Copy l _ => bool_decide (seq_at m l = [])
  | C.MoveFrom dst src => (dst =? src) || bool_decide (seq_at m dst = [])
  | _ => true
  end.

Definition Cpp_keeps_nodes (o : Cpp.op) (m : machine) : bool :=
  match o with
  | Cpp.Ctor this | Cpp.CopyCtor this _ | Cpp.MoveCtor this _ =>
      bool_decide (seq_at m this = [])
  | _ => true
  end.

Fixpoint C_leak_free (os : list C.op) (m : machine) : bool :=
  match os with
  | [] => true
  | o :: os' => C_keeps_nodes o m && C_leak_free os' (C_seq_step o m)
  end.

Fixpoint Cpp_leak_free (os : list Cpp.op) (m : machine) : bool :=
  match os with
  | [] => true
  | o :: os' =>
      Cpp_keeps_nodes o m &&
      match Cpp_seq_step o m with
      | Some m' => Cpp_leak_free os' m'
      | None => true
      end
  end.

(** The values a well-formed world holds. *)
Definition abs (O : gmap Z (list cell)) (im : gmap Z Z) : machine :=
  mkMachine ((λ cs : list cell, cs.*2) <$> O) im.

(** The addresses of the nodes the lists hold. *)
Definition owned_addrs (O : gmap Z (list cell)) : list Z :=
  (map_to_list O).*2 ≫= fmap fst.

(** No node is lost: away from the nodes the lists hold, the heap is [B]. *)
Definition tight (st : state) (O : gmap Z (list cell)) (B : gmap Z Node) : Prop :=
  (∀ a, a ∈ owned_addrs O → B !! a = None) ∧
  (∀ a, a ∉ owned_addrs O → nodes st !! a = B !! a).

(** A run ends as the sequence machine says: it stops for want of memory,
    or it ends in a well-formed world over the same objects whose values are
    those of [m'], with the lists outside [ws] on the nodes they had; and if
    [P] holds (the steps leave no node behind) no node is lost. *)
Definition tracks (P : Prop) (ws : list Z) (st : state) (O : gmap Z (list cell))
    (B : gmap Z Node) (r : result unit) (m' : machine) : Prop :=
  r = Fault AllocFailure ∨
  ∃ st' O', r = Ok tt st' ∧ world_inv st' O' ∧ dom O' = dom O ∧
    dom (ints st') = dom (ints st) ∧ (∀ l, l ∉ ws → O' !! l = O !! l) ∧
    abs O' (ints st') = m' ∧ (P → tight st O B → tight st' O' B).

(** The same for a run that may read through a null pointer: where the
    sequence machine has no outcome, the run is lost. *)
Definition tracks_or_lost (P : Prop) (ws : list Z) (st : state)
    (O : gmap Z (list cell)) (B : gmap Z Node)
    (r : result unit) (om : option machine) : Prop :=
  match om with
  | Some m' => tracks P ws st O B r m'
  | None => r = Fault AllocFailure ∨ r = Fault NullDeref
  end.

(** * Proofs

    ** A concrete allocator, for running the code *)

Lemma foldr_max_ge (ks : list Z) (k : Z) : k ∈ ks → k <= foldr Z.max 0 ks.
Proof.
  induction ks as [|a ks IH]; intros Hin.
  - by apply elem_of_nil in Hin.
  - apply elem_of_cons in Hin as [->|Hin]; simpl; [lia|].
    specialize (IH Hin). lia.
Qed.

Lemma foldr_max_nonneg (ks : list Z) : 0 <= foldr Z.max 0 ks.
Proof. induction ks; simpl; lia. Qed.

Lemma fresh_key_pos {V} (m : gmap Z V) : 0 < fresh_key m.
Proof. unfold fresh_key. pose proof (foldr_max_nonneg ((map_to_list m).*1)). lia. Qed.

Lemma fresh_key_fresh {V} (m : gmap Z V) : m !! fresh_key m = None.
Proof.
  destruct (m !! fresh_key m) as [v|] eqn:E; [|done].
  apply elem_of_map_to_list in E.
  assert (fresh_key m ∈ (map_to_list m).*1) as Hin.
  { apply list_elem_of_fmap. by exists (fresh_key m, v). }
  apply foldr_max_ge in Hin. unfold fresh_key in Hin at 1. lia.
Qed.

#[program] Definition bump_allocator : Allocator := {|
  alloc := bump_alloc (mkNode (-1) (-1));
  uninit_list := mkList (-1) (-1) (-1);
  uninit_int := -1
|}.
Next Obligation.
  intros h p j. unfold bump_alloc. case_match; [|done].
  intros [= <- _]. apply fresh_key_fresh.
Qed.
Next Obligation.
  intros h p j. unfold bump_alloc. case_match eqn:E; [|done].
  intros [= <- _]. pose proof (fresh_key_pos h). lia.
Qed.

Lemma foldr_max_le (ks : list Z) (K : Z) :
  0 <= K → (∀ k, k ∈ ks → k <= K) → foldr Z.max 0 ks <= K.
Proof.
  intros HK. induction ks as [|a ks IH]; intros Hall; simpl; [done|].
  apply Z.max_lub; [apply Hall; left|]. apply IH. intros k Hk. apply Hall. by right.
Qed.

Lemma fresh_key_le {V} (m : gmap Z V) (K : Z) :
  0 <= K → (∀ k, k ∈ dom m → k <= K) → fresh_key m <= K + 1.
Proof.
  intros HK Hall. unfold fresh_key.
  pose proof (foldr_max_le ((map_to_list m).*1) K HK) as Hle.
  assert (foldr Z.max 0 (map_to_list m).*1 <= K); [|lia].
  apply Hle. intros k ([k' v] & -> & Hin)%list_elem_of_fmap.
  apply elem_of_map_to_list in Hin. apply Hall. apply elem_of_dom. by eexists.
Qed.

(** The bump allocator delivers as long as addresses are left above the
    highest live node. *)
Lemma bump_can_alloc (n : nat) (h : gmap Z Node) (K : Z) :
  0 <= K → (∀ k, k ∈ dom h → k <= K) → K + Z.of_nat n < SIZE_MOD →
  @can_alloc bump_allocator n h.
Proof.
  revert h K. induction n as [|n IH]; intros h K HK Hall Hroom; [done|].
  pose proof (fresh_key_le h K HK Hall) as Hle.
  exists (fresh_key h), (mkNode (-1) (-1)). split.
  - simpl. unfold bump_alloc.
    destruct (Z.ltb_spec (fresh_key h) SIZE_MOD) as [_|Hge]; [done|lia].
  - intros h' Hdom. apply (IH h' (K + 1)); [lia| |lia].
    intros k Hk. rewrite Hdom in Hk. apply elem_of_union in Hk as [Hk|Hk].
    + specialize (Hall k Hk). lia.
    + apply elem_of_singleton in Hk as ->. done.
Qed.

Section Chains.
Implicit Types (h : gmap Z Node) (cs xs ys : list cell) (p q : Z).

Lemma lseg_cons_intro h a v nx cs q :
  a ≠ NULL → h !! a = Some (mkNode v nx) → lseg h nx cs q → lseg h a ((a, v) :: cs) q.
Proof. intros. simpl. eauto. Qed.

Lemma lseg_app h p xs ys q :
  lseg h p (xs ++ ys) q ↔ ∃ m, lseg h p xs m ∧ lseg h m ys q.
Proof.
  revert p. induction xs as [|c xs IH]; intros p; simpl.
  - split; [intros ?; by exists p | by intros (m & -> & ?)].
  - split.
    + intros (-> & Hnz & nx & Hl & Hrest). apply IH in Hrest as (m & ? & ?).
      exists m. naive_solver.
    + intros (m & (-> & Hnz & nx & Hl & Hxs) & Hys).
      repeat split; [done|]. exists nx. split; [done|]. apply IH. by exists m.
Qed.

Lemma lseg_frame h h' p cs q :
  (∀ a, a ∈ cs.*1 → h' !! a = h !! a) → lseg h p cs q → lseg h' p cs q.
Proof.
  revert p. induction cs as [|c cs IH]; intros p Hsame; simpl; [done|].
  intros (-> & Hnz & nx & Hl & Hrest). repeat split; [done|].
  exists nx. split.
  - rewrite Hsame; [done|]. simpl. left.
  - apply IH; [|done]. intros a Ha. apply Hsame. simpl. by right.
Qed.

Lemma lseg_live h p cs q a :
  lseg h p cs q → a ∈ cs.*1 → a ≠ NULL ∧ is_Some (h !! a).
Proof.
  revert p. induction cs as [|c cs IH]; intros p; simpl.
  - intros _ Ha. by apply elem_of_nil in Ha.
  - intros (-> & Hnz & nx & Hl & Hrest) Ha.
    apply elem_of_cons in Ha as [->|Ha]; [by eauto|]. by eapply IH.
Qed.

Lemma chain_null h cs : lseg h NULL cs NULL → cs = [].
Proof. destruct cs; [done|]. simpl. naive_solver. Qed.

Lemma chain_nonnull h p cs : lseg h p cs NULL → p ≠ NULL → ∃ c cs', cs = c :: cs'.
Proof. destruct cs; simpl; [done|]. eauto. Qed.

Lemma chain_inj h p xs ys : lseg h p xs NULL → lseg h p ys NULL → xs = ys.
Proof.
  revert p ys. induction xs as [|[a v] xs IH]; intros p ys; simpl.
  - intros -> Hys. symmetry. by eapply chain_null.
  - intros (-> & Hnz & nx & Hl & Hrest). destruct ys as [|[b w] ys]; simpl.
    + intros ->. done.
    + intros (-> & _ & nx' & Hl' & Hrest'). simpl in *.
      rewrite Hl in Hl'. injection Hl' as -> ->. f_equal. by eapply IH.
Qed.

Lemma chain_suffix h p cs a :
  lseg h p cs NULL → a ∈ cs.*1 → ∃ xs ys, cs = xs ++ ys ∧ lseg h a ys NULL ∧
    ∃ v ys', ys = (a, v) :: ys'.
Proof.
  revert p. induction cs as [|[b v] cs IH]; intros p; simpl.
  - intros _ Ha. by apply elem_of_nil in Ha.
  - intros (-> & Hnz & nx & Hl & Hrest) Ha.
    apply elem_of_cons in Ha as [->|Ha].
    + exists [], ((b, v) :: cs). simpl. split; [done|]. split; [|by eauto].
      repeat split; [done|]. by exists nx.
    + destruct (IH _ Hrest Ha) as (xs & ys & -> & Hys & Hshape).
      exists ((b, v) :: xs), ys. done.
Qed.

(** A chain that reaches null never meets a node twice. *)
Lemma chain_NoDup h p cs : lseg h p cs NULL → NoDup cs.*1.
Proof.
  revert p. induction cs as [|[a v] cs IH]; intros p; simpl; [constructor|].
  intros (-> & Hnz & nx & Hl & Hrest). constructor; [|by eapply IH].
  intros Ha. destruct (chain_suffix _ _ _ _ Hrest Ha) as (xs & ys & -> & Hys & w & ys' & ->).
  simpl in Hys. destruct Hys as (_ & _ & nx' & Hl' & Hys').
  rewrite Hl in Hl'. injection Hl' as -> ->.
  pose proof (chain_inj _ _ _ _ Hrest Hys') as Heq.
  apply (f_equal length) in Heq. rewrite length_app in Heq. simpl in Heq. lia.
Qed.

Lemma NoDup_range_length (ps : list Z) :
  NoDup ps → (∀ a, a ∈ ps → 0 < a < SIZE_MOD) → (Z.of_nat (length ps) < SIZE_MOD)%Z.
Proof.
  intros Hnd Hr.
  assert (ps ⊆ seqZ 1 (SIZE_MOD - 1)) as Hsub.
  { intros a Ha. apply elem_of_seqZ. specialize (Hr a Ha). lia. }
  apply NoDup_submseteq in Hsub; [|done].
  apply submseteq_length in Hsub. rewrite length_seqZ in Hsub.
  assert (0 < SIZE_MOD) by done. lia.
Qed.

Lemma chain_length_lt h p cs :
  heap_ok h → lseg h p cs NULL → Z.of_nat (length cs) < SIZE_MOD.
Proof.
  intros Hok Hc. rewrite <- (length_fmap fst cs).
  apply NoDup_range_length; [by eapply chain_NoDup|].
  intros a Ha. destruct (lseg_live _ _ _ _ _ Hc Ha) as [_ [n Hn]]. by eapply Hok.
Qed.

Lemma chain_length_le_size h p cs :
  lseg h p cs NULL → (length cs ≤ size h)%nat.
Proof.
  intros Hc.
  assert (cs.*1 ⊆ (map_to_list h).*1) as Hsub.
  { intros a Ha. destruct (lseg_live _ _ _ _ _ Hc Ha) as [_ [n Hn]].
    apply list_elem_of_fmap. exists (a, n). split; [done|]. by apply elem_of_map_to_list. }
  apply NoDup_submseteq in Hsub; [|by eapply chain_NoDup].
  apply submseteq_length in Hsub. by rewrite !length_fmap, length_map_to_list in Hsub.
Qed.

Lemma last_addr_snoc cs c : last_addr (cs ++ [c]) = c.1.
Proof. unfold last_addr. by rewrite last_snoc. Qed.

Lemma last_addr_cons_cons c c' cs : last_addr (c :: c' :: cs) = last_addr (c' :: cs).
Proof. done. Qed.

Lemma last_addr_elem cs : cs ≠ [] → last_addr cs ∈ cs.*1.
Proof.
  destruct cs as [|c cs] using rev_ind; [done|]. intros _.
  rewrite last_addr_snoc, fmap_app. apply elem_of_app. right. simpl. left.
Qed.

Lemma rep_list_empty_iff h L cs :
  rep_list h L cs →
  (size_ L = 0 ↔ head_ L = NULL) ∧ (head_ L = NULL ↔ tail_ L = NULL) ∧
  (head_ L = NULL ↔ cs = []).
Proof.
  intros (Hc & Ht & Hs). destruct cs as [|c cs].
  - simpl in *. rewrite Hc, Ht, Hs. done.
  - assert (last_addr (c :: cs) ≠ NULL) as Hl.
    { eapply (lseg_live _ _ _ _ _ Hc). by apply last_addr_elem. }
    simpl in Hc. destruct Hc as (Hh & Hnz & _). rewrite Ht, Hs. simpl length.
    split; [|split]; split; intros; try done; lia.
Qed.

End Chains.

(** ** Running the monad one statement at a time *)

Lemma bind_Ok {A B} (c : M A) (k : A → M B) st a st' :
  c st = Ok a st' → (c ≫= k) st = k a st'.
Proof. intros Hc. unfold mbind, M_bind, bind. by rewrite Hc. Qed.

Lemma bind_Fault {A B} (c : M A) (k : A → M B) st e :
  c st = Fault e → (c ≫= k) st = Fault e.
Proof. intros Hc. unfold mbind, M_bind, bind. by rewrite Hc. Qed.

Lemma bind_assoc {A B C} (c : M A) (k1 : A → M B) (k2 : B → M C) st :
  ((c ≫= k1) ≫= k2) st = (c ≫= (λ x, k1 x ≫= k2)) st.
Proof. unfold mbind, M_bind, bind. by destruct (c st). Qed.

Section Steps.
Context `{Allocator}.
Implicit Types (st : state) (L : LinkedList) (n : Node).

Lemma malloc_node_Ok st p j :
  alloc (nodes st) = Some (p, j) → malloc_node st = Ok p (with_nodes (insert p j) st).
Proof. intros Ha. unfold malloc_node. by rewrite Ha. Qed.

Lemma malloc_node_Fault st :
  alloc (nodes st) = None → malloc_node st = Fault AllocFailure.
Proof. intros Ha. unfold malloc_node. by rewrite Ha. Qed.

Lemma load_node_Ok st p n :
  p ≠ NULL → nodes st !! p = Some n → load_node p st = Ok n st.
Proof.
  intros Hp Hn. unfold load_node. rewrite Hn.
  by destruct (Z.eqb_spec p NULL).
Qed.

Lemma load_value_Ok st p n :
  p ≠ NULL → nodes st !! p = Some n → load_value p st = Ok (value n) st.
Proof. intros. unfold load_value. by erewrite bind_Ok by by apply load_node_Ok. Qed.

Lemma load_next_Ok st p n :
  p ≠ NULL → nodes st !! p = Some n → load_next p st = Ok (next n) st.
Proof. intros. unfold load_next. by erewrite bind_Ok by by apply load_node_Ok. Qed.

Lemma store_node_Ok st p n n' :
  p ≠ NULL → nodes st !! p = Some n →
  store_node p n' st = Ok tt (with_nodes (insert p n') st).
Proof. intros. unfold store_node. by erewrite bind_Ok by by apply load_node_Ok. Qed.

Lemma store_value_Ok st p n v :
  p ≠ NULL → nodes st !! p = Some n →
  store_value p v st = Ok tt (with_nodes (insert p (set_value v n)) st).
Proof.
  intros. unfold store_value. erewrite bind_Ok by by apply load_node_Ok.
  by eapply store_node_Ok.
Qed.

Lemma store_next_Ok st p n q :
  p ≠ NULL → nodes st !! p = Some n →
  store_next p q st = Ok tt (with_nodes (insert p (set_next q n)) st).
Proof.
  intros. unfold store_next. erewrite bind_Ok by by apply load_node_Ok.
  by eapply store_node_Ok.
Qed.

Lemma free_node_Ok st p n :
  p ≠ NULL → nodes st !! p = Some n →
  free_node p st = Ok tt (with_nodes (delete p) st).
Proof.
  intros Hp Hn. unfold free_node. rewrite Hn.
  by destruct (Z.eqb_spec p NULL).
Qed.

Lemma load_list_Ok st l L :
  l ≠ NULL → lists st !! l = Some L → load_list l st = Ok L st.
Proof.
  intros Hl HL. unfold load_list. rewrite HL.
  by destruct (Z.eqb_spec l NULL).
Qed.

Lemma load_head_Ok st l L :
  l ≠ NULL → lists st !! l = Some L → load_head l st = Ok (head_ L) st.
Proof. intros. unfold load_head. by erewrite bind_Ok by by apply load_list_Ok. Qed.

Lemma load_tail_Ok st l L :
  l ≠ NULL → lists st !! l = Some L → load_tail l st = Ok (tail_ L) st.
Proof. intros. unfold load_tail. by erewrite bind_Ok by by apply load_list_Ok. Qed.

Lemma load_size_Ok st l L :
  l ≠ NULL → lists st !! l = Some L → load_size l st = Ok (size_ L) st.
Proof. intros. unfold load_size. by erewrite bind_Ok by by apply load_list_Ok. Qed.

Lemma store_list_Ok st l L L' :
  l ≠ NULL → lists st !! l = Some L →
  store_list l L' st = Ok tt (with_lists (insert l L') st).
Proof. intros. unfold store_list. by erewrite bind_Ok by by apply load_list_Ok. Qed.

Lemma store_head_Ok st l L p :
  l ≠ NULL → lists st !! l = Some L →
  store_head l p st = Ok tt (with_lists (insert l (set_head p L)) st).
Proof.
  intros. unfold store_head. erewrite bind_Ok by by apply load_list_Ok.
  by eapply store_list_Ok.
Qed.

Lemma store_tail_Ok st l L p :
  l ≠ NULL → lists st !! l = Some L →
  store_tail l p st = Ok tt (with_lists (insert l (set_tail p L)) st).
Proof.
  intros. unfold store_tail. erewrite bind_Ok by by apply load_list_Ok.
  by eapply store_list_Ok.
Qed.

Lemma store_size_Ok st l L k :
  l ≠ NULL → lists st !! l = Some L →
  store_size l k st = Ok tt (with_lists (insert l (set_size k L)) st).
Proof.
  intros. unfold store_size. erewrite bind_Ok by by apply load_list_Ok.
  by eapply store_list_Ok.
Qed.

Lemma store_int_Ok st out v w :
  out ≠ NULL → ints st !! out = Some w →
  store_int out v st = Ok tt (with_ints (insert out v) st).
Proof.
  intros Ho Hw. unfold store_int. rewrite Hw.
  by destruct (Z.eqb_spec out NULL).
Qed.

Lemma live_nodes_Ok st : live_nodes st = Ok (size (nodes st)) st.
Proof. done. Qed.

Lemma ret_Ok {A} (a : A) st : ret a st = Ok a st.
Proof. done. Qed.

Lemma mret_Ok {A} (a : A) st : (mret a : M A) st = Ok a st.
Proof. done. Qed.

End Steps.

(** Side conditions of a step: the object is live at a non-null address. *)
Ltac solve_live :=
  cbn [lists nodes ints with_lists with_nodes with_ints];
  repeat first
    [ rewrite lookup_insert_eq
    | rewrite lookup_insert_ne by (first [done | congruence | lia])
    | rewrite lookup_delete_ne by (first [done | congruence | lia]) ];
  first [reflexivity | eassumption | done | congruence | unfold NULL in *; lia].

(** Execute the first statement of the program in the goal. *)
Ltac simpl_fields :=
  cbn [head_ tail_ size_ set_head set_tail set_size value next set_value set_next fst snd].

Ltac step_with lem :=
  lazymatch goal with
  | |- (_ ≫= _) _ = _ => erewrite bind_Ok; [ | eapply lem; solve_live ]
  | |- _ => erewrite lem by solve_live
  end;
  cbv beta; simpl_fields.

Ltac step_stmt c :=
  lazymatch c with
  | @malloc_node _ => step_with @malloc_node_Ok
  | load_node _ => step_with load_node_Ok
  | load_value _ => step_with load_value_Ok
  | load_next _ => step_with load_next_Ok
  | store_node _ _ => step_with store_node_Ok
  | store_value _ _ => step_with store_value_Ok
  | store_next _ _ => step_with store_next_Ok
  | free_node _ => step_with free_node_Ok
  | load_list _ => step_with load_list_Ok
  | load_head _ => step_with load_head_Ok
  | load_tail _ => step_with load_tail_Ok
  | load_size _ => step_with load_size_Ok
  | store_list _ _ => step_with store_list_Ok
  | store_head _ _ => step_with store_head_Ok
  | store_tail _ _ => step_with store_tail_Ok
  | store_size _ _ => step_with store_size_Ok
  | store_int _ _ => step_with store_int_Ok
  | live_nodes => step_with live_nodes_Ok
  | ret _ => step_with @ret_Ok
  | mret _ => step_with @mret_Ok
  end.

Ltac step :=
  cbv beta iota;
  lazymatch goal with
  | |- ((_ ≫= _) ≫= _) _ = _ => rewrite bind_assoc; step
  | |- (?c ≫= _) _ = _ => step_stmt c
  | |- ?c _ = _ => step_stmt c
  end.

(** The state after a run, with every store written as a map expression. *)
Ltac norm_state :=
  cbn [lists nodes ints with_lists with_nodes with_ints
       head_ tail_ size_ set_head set_tail set_size
       value next set_value set_next fst snd];
  rewrite ?insert_insert_eq.

(** Execute the first statement on both sides of an equation. *)
Ltac step2 := step; symmetry; step; symmetry.

(** Two runs end in the same state. *)
Ltac state_eq :=
  unfold with_lists, with_nodes, with_ints;
  cbn [lists nodes ints]; simpl_fields;
  rewrite ?insert_insert_eq;
  first [reflexivity | f_equal; f_equal; first [reflexivity | done]].

(** ** Heap updates that keep a chain *)

Section Updates.
Implicit Types (h : gmap Z Node) (cs xs ys : list cell) (p q : Z).

Lemma heap_ok_insert h a n : heap_ok h → 0 < a < SIZE_MOD → heap_ok (<[a:=n]> h).
Proof.
  intros Hok Ha b m. rewrite lookup_insert. case_decide; [naive_solver|]. apply Hok.
Qed.

Lemma heap_ok_delete h a : heap_ok h → heap_ok (delete a h).
Proof.
  intros Hok b m. rewrite lookup_delete. case_decide; [done|]. apply Hok.
Qed.

Lemma heap_ok_alter h a (f : Node → Node) : heap_ok h → heap_ok (alter f a h).
Proof.
  intros Hok b m. rewrite lookup_alter. case_decide; [|apply Hok]. subst.
  destruct (h !! b) as [n|] eqn:E; simpl; [|done]. intros _. by eapply Hok.
Qed.

Lemma heap_ok_free_all h ps : heap_ok h → heap_ok (free_all ps h).
Proof. induction ps; simpl; [done|]. intros. by apply heap_ok_delete, IHps. Qed.

Lemma lseg_insert_other h p cs q a n :
  a ∉ cs.*1 → lseg h p cs q → lseg (<[a:=n]> h) p cs q.
Proof.
  intros Ha. apply lseg_frame. intros b Hb.
  rewrite lookup_insert_ne; [done|]. by intros ->.
Qed.

Lemma lseg_delete_other h p cs q a :
  a ∉ cs.*1 → lseg h p cs q → lseg (delete a h) p cs q.
Proof.
  intros Ha. apply lseg_frame. intros b Hb.
  rewrite lookup_delete_ne; [done|]. by intros ->.
Qed.

Lemma lseg_not_live h p cs q a : lseg h p cs q → h !! a = None → a ∉ cs.*1.
Proof.
  intros Hc Ha Hin. destruct (lseg_live _ _ _ _ _ Hc Hin) as [_ [n Hn]]. congruence.
Qed.

Lemma chain_split h p xs ys :
  lseg h p (xs ++ ys) NULL →
  ∃ m, lseg h p xs m ∧ lseg h m ys NULL ∧ (∀ a, a ∈ xs.*1 → a ∉ ys.*1).
Proof.
  intros Hc. pose proof (chain_NoDup _ _ _ Hc) as Hnd.
  rewrite fmap_app in Hnd. apply NoDup_app in Hnd as (_ & Hdisj & _).
  apply lseg_app in Hc as (m & Hxs & Hys). by exists m.
Qed.

Lemma chain_cons_inv h p a v cs :
  lseg h p ((a, v) :: cs) NULL →
  p = a ∧ a ≠ NULL ∧ (a ∉ cs.*1) ∧ ∃ nx, h !! a = Some (mkNode v nx) ∧ lseg h nx cs NULL.
Proof.
  intros Hc. pose proof (chain_NoDup _ _ _ Hc) as Hnd.
  apply NoDup_cons in Hnd as [Hni _].
  destruct Hc as (-> & Hnz & nx & Hl & Hrest). eauto 10.
Qed.

Lemma chain_snoc_inv h p xs t w :
  lseg h p (xs ++ [(t, w)]) NULL →
  lseg h p xs t ∧ t ≠ NULL ∧ (t ∉ xs.*1) ∧ h !! t = Some (mkNode w NULL).
Proof.
  intros Hc. apply chain_split in Hc as (m & Hxs & Hys & Hdisj).
  destruct Hys as (-> & Hnz & nx & Hl & ->). simpl in *.
  split; [done|]. split; [done|]. split; [|done].
  intros Hin. apply (Hdisj _ Hin). simpl. left.
Qed.

Lemma insert_as_alter h a (n : Node) (f : Node → Node) :
  h !! a = Some n → <[a:=f n]> h = alter f a h.
Proof.
  intros Ha. apply map_eq. intros b. rewrite lookup_insert, lookup_alter.
  case_decide; [subst; by rewrite Ha|done].
Qed.

Lemma alter_not_live h a (f : Node → Node) : h !! a = None → alter f a h = h.
Proof.
  intros Ha. apply map_eq. intros b. rewrite lookup_alter.
  case_decide; [subst; by rewrite Ha|done].
Qed.

Lemma free_all_delete h a ps : free_all ps (delete a h) = delete a (free_all ps h).
Proof.
  induction ps as [|b ps IH]; simpl; [done|]. rewrite IH. apply delete_delete.
Qed.

Lemma lookup_free_all h ps a :
  free_all ps h !! a = if decide (a ∈ ps) then None else h !! a.
Proof.
  induction ps as [|b ps IH]; unfold free_all; cbn [foldr]; fold free_all.
  - destruct (decide (a ∈ [])) as [Hd|_]; [by apply elem_of_nil in Hd|done].
  - fold (free_all ps h). rewrite lookup_delete, IH.
    destruct (decide (a ∈ b :: ps)) as [H2|H2], (decide (a ∈ ps)) as [H1|H1],
      (decide (b = a)) as [Hb|Hb]; try done.
    + apply elem_of_cons in H2 as [?|?]; [by subst|done].
    + exfalso. apply H2. by right.
    + exfalso. apply H2. by right.
    + exfalso. apply H2. subst. left.
Qed.

Lemma last_addr_app xs ys : ys ≠ [] → last_addr (xs ++ ys) = last_addr ys.
Proof.
  destruct ys as [|c ys _] using rev_ind; [done|]. intros _.
  by rewrite app_assoc, !last_addr_snoc.
Qed.

(** A list cut around the positions [n - 1] and [n]. *)
Lemma cut_around (cs : list cell) (n : nat) :
  (0 < n < length cs)%nat →
  ∃ xs prev c, cs = xs ++ prev :: c :: drop (S n) cs ∧ length xs = (n - 1)%nat ∧
    take n cs = xs ++ [prev] ∧ drop n cs = c :: drop (S n) cs.
Proof.
  intros Hn.
  destruct (lookup_lt_is_Some_2 cs (n - 1)) as [prev Hprev]; [lia|].
  destruct (lookup_lt_is_Some_2 cs n) as [c Hc]; [lia|].
  assert (take n cs = take (n - 1) cs ++ [prev]) as Ht.
  { replace n with (S (n - 1)) at 1 by lia. by apply take_S_r. }
  assert (drop n cs = c :: drop (S n) cs) as Hd by (by apply drop_S).
  exists (take (n - 1) cs), prev, c. split; [|split; [|done]].
  - rewrite <- (take_drop n cs) at 1. rewrite Ht, Hd, <- app_assoc. done.
  - rewrite length_take. lia.
Qed.

Lemma heap_ok_frame h h' ps :
  heap_ok h → frame_outside ps h h' → (∀ a, a ∈ ps → 0 < a < SIZE_MOD) → heap_ok h'.
Proof.
  intros Hok Hfr Hps a n Ha. destruct (decide (a ∈ ps)) as [Hin|Hni]; [by apply Hps|].
  rewrite Hfr in Ha by done. by eapply Hok.
Qed.

Lemma lseg_frame_outside h h' ps p cs q :
  frame_outside ps h h' → (∀ a, a ∈ cs.*1 → a ∉ ps) → lseg h p cs q → lseg h' p cs q.
Proof. intros Hfr Hdisj. apply lseg_frame. intros a Ha. by apply Hfr, Hdisj. Qed.

Lemma lseg_range h p cs q a : heap_ok h → lseg h p cs q → a ∈ cs.*1 → 0 < a < SIZE_MOD.
Proof.
  intros Hok Hc Ha. destruct (lseg_live _ _ _ _ _ Hc Ha) as [_ [n Hn]]. by eapply Hok.
Qed.

Lemma wrap_small z : 0 <= z < SIZE_MOD → wrap z = z.
Proof. intros. unfold wrap. by apply Z.mod_small. Qed.

Lemma last_addr_cons c cs : last_addr (c :: cs) = if decide (cs = []) then c.1 else last_addr cs.
Proof. destruct cs; done. Qed.

End Updates.

(** ** What each operation does to a well-formed list *)

Section Specs.
Context `{Allocator}.
Implicit Types (st : state) (L : LinkedList) (cs : list cell).

Lemma ll_push_front_Ok l v st L cs p j :
  l ≠ NULL → lists st !! l = Some L → rep_list (nodes st) L cs → heap_ok (nodes st) →
  alloc (nodes st) = Some (p, j) →
  let L' := mkList p (if tail_ L =? NULL then p else tail_ L) (wrap (size_ L + 1)) in
  let h' := <[p:=mkNode v (head_ L)]> (nodes st) in
  C.ll_push_front l v st = Ok tt (mkState (<[l:=L']> (lists st)) h' (ints st)) ∧
  rep_list h' L' ((p, v) :: cs) ∧ frame_outside (p :: cs.*1) (nodes st) h'.
Proof.
  intros Hl HL Hrep Hok Ha L' h'.
  assert (frame_outside (p :: cs.*1) (nodes st) h') as Hframe.
  { intros a Hni. unfold h'. rewrite lookup_insert_ne; [done|].
    intros ->. apply Hni. left. }
  pose proof (alloc_fresh _ _ _ Ha) as Hfresh.
  pose proof (alloc_range _ _ _ Ha) as Hrange.
  destruct (rep_list_empty_iff _ _ _ Hrep) as (_ & Hht & Hhc).
  destruct Hrep as (Hc & Ht & Hs).
  assert (lseg h' p ((p, v) :: cs) NULL) as Hc'.
  { simpl. repeat split; [unfold NULL; lia|]. exists (head_ L).
    unfold h'. rewrite lookup_insert_eq. split; [done|].
    apply lseg_insert_other; [|done]. by eapply lseg_not_live. }
  split.
  - unfold C.ll_push_front. do 6 step.
    destruct (Z.eqb_spec (tail_ L) NULL); do 3 step; state_eq.
  - split; [|done]. split; [done|]. split.
    + rewrite last_addr_cons. subst L'. simpl.
      destruct (Z.eqb_spec (tail_ L) NULL); case_decide; naive_solver.
    + pose proof (chain_length_lt _ _ _ (heap_ok_insert _ _ _ Hok Hrange) Hc') as Hlt.
      simpl length in *. subst L'; simpl. rewrite wrap_small; lia.
Qed.

Lemma ll_push_front_Fault l v st :
  alloc (nodes st) = None → C.ll_push_front l v st = Fault AllocFailure.
Proof.
  intros Ha. unfold C.ll_push_front. cbv beta iota; apply bind_Fault. by apply malloc_node_Fault.
Qed.

Lemma ll_push_back_Ok l v st L cs p j :
  l ≠ NULL → lists st !! l = Some L → rep_list (nodes st) L cs → heap_ok (nodes st) →
  alloc (nodes st) = Some (p, j) →
  let L' := mkList (if tail_ L =? NULL then p else head_ L) p (wrap (size_ L + 1)) in
  let h' := alter (set_next p) (tail_ L) (<[p:=mkNode v NULL]> (nodes st)) in
  C.ll_push_back l v st = Ok tt (mkState (<[l:=L']> (lists st)) h' (ints st)) ∧
  rep_list h' L' (cs ++ [(p, v)]) ∧ frame_outside (p :: cs.*1) (nodes st) h'.
Proof.
  intros Hl HL Hrep Hok Ha L' h'.
  pose proof (alloc_fresh _ _ _ Ha) as Hfresh.
  pose proof (alloc_range _ _ _ Ha) as Hrange.
  assert (p ≠ NULL) as Hp by (unfold NULL; lia).
  destruct (rep_list_empty_iff _ _ _ Hrep) as (_ & Hht & Hhc).
  destruct Hrep as (Hc & Ht & Hs).
  assert (heap_ok h') as Hok'.
  { by apply heap_ok_alter, heap_ok_insert. }
  assert (p ∉ cs.*1) as Hpcs by (by eapply lseg_not_live).
  destruct cs as [|[t w] xs _] using rev_ind.
  - assert (tail_ L = NULL) as Htl by done.
    assert (head_ L = NULL) as Hhd by (by apply Hhc).
    assert (h' = <[p:=mkNode v NULL]> (nodes st)) as Hh'.
    { unfold h'. rewrite alter_not_live; [done|].
      rewrite Htl, lookup_insert_ne by done.
      destruct (nodes st !! NULL) as [n|] eqn:E; [|done].
      apply Hok in E. unfold NULL in E. lia. }
    split; [|split].
    + unfold C.ll_push_back. do 4 step. rewrite Htl, Z.eqb_refl.
      do 4 step. f_equal. unfold L'. rewrite Hh', Htl, Z.eqb_refl. state_eq.
    + unfold L'. rewrite Hh', Htl, Z.eqb_refl.
      split; [|by rewrite Hs].
      simpl. repeat split; [done|]. exists NULL. by rewrite lookup_insert_eq.
    + intros a Hni. rewrite Hh', lookup_insert_ne; [done|].
      intros ->. apply Hni. left.
  - rewrite last_addr_snoc in Ht. simpl in Ht.
    apply chain_snoc_inv in Hc as (Hxs & Htz & Htx & Hlt).
    assert (t ≠ p) as Htp by congruence.
    assert (h' = <[t:=mkNode w p]> (<[p:=mkNode v NULL]> (nodes st))) as Hh'.
    { unfold h'. rewrite Ht. symmetry.
      apply (insert_as_alter _ _ (mkNode w NULL) (set_next p)).
      by rewrite lookup_insert_ne. }
    assert (lseg h' (head_ L) ((xs ++ [(t, w)]) ++ [(p, v)]) NULL) as Hc'.
    { rewrite <- app_assoc. apply lseg_app. exists t. split.
      - rewrite Hh'. apply lseg_insert_other; [done|].
        apply lseg_insert_other; [|done].
        rewrite fmap_app in Hpcs. set_solver.
      - simpl. repeat split; [done|]. exists p. rewrite Hh', lookup_insert_eq.
        split; [done|]. repeat split; [done|]. exists NULL.
        by rewrite lookup_insert_ne, lookup_insert_eq. }
    assert ((tail_ L =? NULL) = false) as Hb by (apply Z.eqb_neq; congruence).
    split; [|split].
    + unfold C.ll_push_back. do 4 step. rewrite Hb. rewrite Ht.
      do 4 step. f_equal. unfold L'. rewrite Hh', Hb. state_eq.
    + unfold L'. rewrite Hb. split; [done|]. split; [by rewrite last_addr_snoc|].
      pose proof (chain_length_lt _ _ _ Hok' Hc') as Hlt'.
      rewrite !length_app in *. simpl in *. rewrite wrap_small; lia.
    + intros a Hni. rewrite Hh', !lookup_insert_ne; [done| |].
      * intros ->. apply Hni. left.
      * intros ->. apply Hni. right. rewrite fmap_app. apply elem_of_app. right. left.
Qed.

Lemma ll_push_back_Fault l v st :
  alloc (nodes st) = None → C.ll_push_back l v st = Fault AllocFailure.
Proof.
  intros Ha. unfold C.ll_push_back. cbv beta iota; apply bind_Fault. by apply malloc_node_Fault.
Qed.

Lemma ll_init_Ok l st L :
  l ≠ NULL → lists st !! l = Some L →
  C.ll_init l st = Ok tt (mkState (<[l:=mkList NULL NULL 0]> (lists st)) (nodes st) (ints st)).
Proof. intros Hl HL. unfold C.ll_init. do 3 step. f_equal. state_eq. Qed.

Lemma rep_list_nil h : rep_list h (mkList NULL NULL 0) [].
Proof. done. Qed.

Lemma ll_empty_Ok l st L :
  l ≠ NULL → lists st !! l = Some L →
  C.ll_empty l st = Ok (if size_ L =? 0 then 1 else 0) st.
Proof. intros Hl HL. unfold C.ll_empty. by do 2 step. Qed.

Lemma ll_size_Ok l st L :
  l ≠ NULL → lists st !! l = Some L → C.ll_size l st = Ok (size_ L) st.
Proof. intros Hl HL. unfold C.ll_size. by step. Qed.

Lemma ll_pop_front_empty l out st L :
  l ≠ NULL → lists st !! l = Some L → rep_list (nodes st) L [] →
  C.ll_pop_front l out st = Ok 0 st.
Proof.
  intros Hl HL (Hc & _). simpl in Hc. unfold C.ll_pop_front.
  step. rewrite Hc, Z.eqb_refl. by step.
Qed.

Lemma ll_pop_front_Ok l out st L a v cs :
  l ≠ NULL → lists st !! l = Some L → rep_list (nodes st) L ((a, v) :: cs) →
  heap_ok (nodes st) → out_ok out (ints st) →
  ∃ L', C.ll_pop_front l out st =
          Ok 1 (mkState (<[l:=L']> (lists st)) (delete a (nodes st))
                  (write_out out v (ints st))) ∧
        rep_list (delete a (nodes st)) L' cs ∧
        nodes st !! a = Some (mkNode v (head_ L')).
Proof.
  intros Hl HL Hrep Hok Hout.
  destruct Hrep as (Hc & Ht & Hs).
  pose proof (chain_length_lt _ _ _ Hok Hc) as Hlen.
  apply chain_cons_inv in Hc as (Hh & Ha & Hni & nx & Hla & Hrest).
  assert ((head_ L =? NULL) = false) as Hb by (apply Z.eqb_neq; congruence).
  assert (rep_list (delete a (nodes st))
            (mkList nx (if nx =? NULL then NULL else tail_ L) (wrap (size_ L - 1))) cs) as Hrep'.
  { split; [by apply lseg_delete_other|]. split; simpl.
    - destruct cs as [|c cs].
      + simpl in Hrest. by rewrite Hrest, Z.eqb_refl.
      + destruct Hrest as (-> & Hnz & _). rewrite last_addr_cons_cons in Ht.
        apply Z.eqb_neq in Hnz. by rewrite Hnz.
    - simpl length in *. rewrite wrap_small; lia. }
  eexists. split; [|split; [exact Hrep'|done]].
  unfold C.ll_pop_front. step. rewrite Hb, Hh. do 3 step.
  unfold write_out.
  destruct (Z.eqb_spec nx NULL) as [Hnx|Hnx], (Z.eqb_spec out NULL) as [Ho|Ho];
    destruct Hout as [?|[w Hw]]; try done.
  all: repeat step; f_equal; state_eq.
Qed.

Lemma ll_front_empty l out st L :
  l ≠ NULL → lists st !! l = Some L → rep_list (nodes st) L [] →
  C.ll_front l out st = Ok 0 st.
Proof.
  intros Hl HL (Hc & _). simpl in Hc. unfold C.ll_front.
  step. rewrite Hc, Z.eqb_refl. by step.
Qed.

Lemma ll_front_Ok l out st L a v cs :
  l ≠ NULL → lists st !! l = Some L → rep_list (nodes st) L ((a, v) :: cs) →
  out_ok out (ints st) →
  C.ll_front l out st =
    Ok 1 (mkState (lists st) (nodes st) (write_out out v (ints st))).
Proof.
  intros Hl HL (Hc & _) Hout.
  apply chain_cons_inv in Hc as (Hh & Ha & Hni & nx & Hla & Hrest).
  assert ((head_ L =? NULL) = false) as Hb by (apply Z.eqb_neq; congruence).
  unfold C.ll_front. step. rewrite Hb, Hh. unfold write_out.
  destruct (Z.eqb_spec out NULL) as [Ho|Ho]; destruct Hout as [?|[w Hw]]; try done.
  all: repeat step; by destruct st.
Qed.

Lemma ll_back_empty l out st L :
  l ≠ NULL → lists st !! l = Some L → rep_list (nodes st) L [] →
  C.ll_back l out st = Ok 0 st.
Proof.
  intros Hl HL (_ & Ht & _). unfold C.ll_back.
  step. rewrite Ht. change (last_addr []) with NULL. rewrite Z.eqb_refl. by step.
Qed.

Lemma ll_back_Ok l out st L cs t w :
  l ≠ NULL → lists st !! l = Some L → rep_list (nodes st) L (cs ++ [(t, w)]) →
  out_ok out (ints st) →
  C.ll_back l out st =
    Ok 1 (mkState (lists st) (nodes st) (write_out out w (ints st))).
Proof.
  intros Hl HL (Hc & Ht & _) Hout. rewrite last_addr_snoc in Ht. simpl in Ht.
  apply chain_snoc_inv in Hc as (Hxs & Htz & Htx & Hlt).
  assert ((tail_ L =? NULL) = false) as Hb by (apply Z.eqb_neq; congruence).
  unfold C.ll_back. step. rewrite Hb, Ht. unfold write_out.
  destruct (Z.eqb_spec out NULL) as [Ho|Ho]; destruct Hout as [?|[w' Hw]]; try done.
  all: repeat step; by destruct st.
Qed.

Lemma state_eta st : mkState (lists st) (nodes st) (ints st) = st.
Proof. by destruct st. Qed.

Lemma advance_Ok st p xs q :
  lseg (nodes st) p xs q → advance (length xs) p st = Ok q st.
Proof.
  revert p. induction xs as [|[a v] xs IH]; intros p; simpl.
  - by intros ->.
  - intros (-> & Hnz & nx & Hl & Hrest). step. by apply IH.
Qed.

Lemma clear_loop_Ok fuel st p cs :
  lseg (nodes st) p cs NULL → (length cs ≤ fuel)%nat →
  C.clear_loop fuel p st = Ok tt (mkState (lists st) (free_all (cs.*1) (nodes st)) (ints st)).
Proof.
  revert fuel st p. induction cs as [|[a v] cs IH]; intros fuel st p Hc Hfuel.
  - simpl in Hc. subst p. rewrite state_eta. by destruct fuel.
  - apply chain_cons_inv in Hc as (-> & Ha & Hni & nx & Hla & Hrest).
    destruct fuel as [|fuel]; [simpl in Hfuel; lia|].
    simpl. destruct (Z.eqb_spec a NULL) as [|_]; [done|].
    do 2 step. rewrite (IH fuel _ nx).
    + f_equal. simpl. by rewrite free_all_delete.
    + simpl. by apply lseg_delete_other.
    + simpl in Hfuel. lia.
Qed.

Lemma ll_clear_Ok l st L cs :
  l ≠ NULL → lists st !! l = Some L → rep_list (nodes st) L cs →
  C.ll_clear l st =
    Ok tt (mkState (<[l:=mkList NULL NULL 0]> (lists st)) (free_all (cs.*1) (nodes st)) (ints st)).
Proof.
  intros Hl HL (Hc & _). unfold C.ll_clear. do 2 step.
  erewrite bind_Ok; [|by apply clear_loop_Ok; [|eapply chain_length_le_size]].
  do 3 step. f_equal. state_eq.
Qed.

Lemma ll_insert_reject l i v st L :
  l ≠ NULL → lists st !! l = Some L → size_ L < i →
  C.ll_insert l i v st = Ok 0 st.
Proof.
  intros Hl HL Hi. unfold C.ll_insert. step.
  assert ((i >? size_ L) = true) as -> by lia. by step.
Qed.

Lemma ll_insert_Ok l i v st L cs p j :
  l ≠ NULL → lists st !! l = Some L → rep_list (nodes st) L cs → heap_ok (nodes st) →
  alloc (nodes st) = Some (p, j) → 0 <= i <= Z.of_nat (length cs) →
  ∃ L' h', C.ll_insert l i v st = Ok 1 (mkState (<[l:=L']> (lists st)) h' (ints st)) ∧
    rep_list h' L' (take (Z.to_nat i) cs ++ (p, v) :: drop (Z.to_nat i) cs) ∧
    frame_outside (p :: cs.*1) (nodes st) h'.
Proof.
  intros Hl HL Hrep Hok Ha Hi.
  pose proof (alloc_fresh _ _ _ Ha) as Hfresh.
  pose proof (alloc_range _ _ _ Ha) as Hrange.
  assert (p ≠ NULL) as Hp by (unfold NULL; lia).
  pose proof Hrep as (Hc & Ht & Hs).
  pose proof (chain_length_lt _ _ _ Hok Hc) as Hlen.
  assert ((i >? size_ L) = false) as Hgt by lia.
  destruct (Z.eqb_spec i 0) as [->|Hi0].
  { destruct (ll_push_front_Ok l v st L cs p j) as (Hrun & Hrep' & Hfr); try done.
    eexists _, _. split; [|split; [exact Hrep'|exact Hfr]].
    unfold C.ll_insert. step. rewrite Hgt. simpl (0 =? 0).
    cbv beta iota; erewrite bind_Ok by exact Hrun. by step. }
  destruct (Z.eqb_spec i (size_ L)) as [Heq|Hne].
  { destruct (ll_push_back_Ok l v st L cs p j) as (Hrun & Hrep' & Hfr); try done.
    eexists _, _. split; [|split; [|exact Hfr]].
    - unfold C.ll_insert. step. rewrite Hgt.
      assert ((i =? 0) = false) as -> by lia. step.
      rewrite Heq, Z.eqb_refl. cbv beta iota; erewrite bind_Ok by exact Hrun. by step.
    - assert (Z.to_nat i = length cs) as -> by lia.
      rewrite take_ge, drop_ge by lia. exact Hrep'. }
  set (n := Z.to_nat i).
  destruct (cut_around cs n) as (xs & [pa pv] & [ca cv] & Hcs & Hxs & Htake & Hdrop); [lia|].
  set (ys := drop (S n) cs) in *.
  rewrite Htake, Hdrop, <- app_assoc. simpl.
  rewrite Hcs in Hc. apply chain_split in Hc as (m & Hseg & Hrest & Hdisj).
  apply chain_cons_inv in Hrest as (-> & Hpa & Hpani & nx & Hlpa & Hrest).
  assert (nx = ca) as -> by (by destruct Hrest).
  assert (pa ∉ xs.*1) as Hpaxs.
  { intros Hin. apply (Hdisj _ Hin). simpl. left. }
  assert (pa ≠ p) as Hpap by congruence.
  assert (p ∉ xs.*1) as Hpxs by (by eapply lseg_not_live).
  assert (p ∉ ((ca, cv) :: ys).*1) as Hpys by (by eapply lseg_not_live).
  set (h' := <[pa:=mkNode pv p]> (<[p:=mkNode v ca]> (nodes st))).
  assert (heap_ok h') as Hok'.
  { apply heap_ok_insert; [by apply heap_ok_insert|]. by eapply Hok. }
  assert (lseg h' (head_ L) (xs ++ (pa, pv) :: (p, v) :: (ca, cv) :: ys) NULL) as Hc'.
  { apply lseg_app. exists pa. split.
    - apply lseg_insert_other; [done|]. by apply lseg_insert_other.
    - apply (lseg_cons_intro _ _ _ p); [done|apply lookup_insert_eq|].
      apply (lseg_cons_intro _ _ _ ca); [done| |].
      { unfold h'. by rewrite lookup_insert_ne, lookup_insert_eq. }
      apply lseg_insert_other; [done|]. by apply lseg_insert_other. }
  exists (mkList (head_ L) (tail_ L) (wrap (size_ L + 1))), h'.
  split; [|split].
  - unfold C.ll_insert. step. rewrite Hgt.
    assert ((i =? 0) = false) as -> by lia. step.
    assert ((i =? size_ L) = false) as -> by lia. step.
    assert (Z.to_nat (wrap (i - 1)) = length xs) as ->.
    { rewrite wrap_small by lia. lia. }
    cbv beta iota; erewrite bind_Ok by (by apply advance_Ok).
    do 8 step. f_equal. unfold h'. state_eq.
  - split; [done|]. split; simpl.
    + rewrite Ht, Hcs. by rewrite !last_addr_app.
    + pose proof (chain_length_lt _ _ _ Hok' Hc') as Hlt'.
      rewrite Hcs in Hs. rewrite !length_app in *. simpl in *.
      rewrite wrap_small; lia.
  - intros a Hni. unfold h'. rewrite !lookup_insert_ne; [done| |].
    + intros ->. apply Hni. left.
    + intros ->. apply Hni. right. rewrite Hcs, fmap_app. apply elem_of_app. right. left.
Qed.

Lemma ll_insert_Fault l i v st L cs :
  l ≠ NULL → lists st !! l = Some L → rep_list (nodes st) L cs → heap_ok (nodes st) →
  alloc (nodes st) = None → 0 <= i <= Z.of_nat (length cs) →
  C.ll_insert l i v st = Fault AllocFailure.
Proof.
  intros Hl HL Hrep Hok Ha Hi.
  pose proof Hrep as (Hc & Ht & Hs).
  pose proof (chain_length_lt _ _ _ Hok Hc) as Hlen.
  assert ((i >? size_ L) = false) as Hgt by lia.
  unfold C.ll_insert. step. rewrite Hgt.
  destruct (Z.eqb_spec i 0) as [->|Hi0].
  { cbv beta iota; apply bind_Fault. by apply ll_push_front_Fault. }
  step. destruct (Z.eqb_spec i (size_ L)) as [Heq|Hne].
  { cbv beta iota; apply bind_Fault. by apply ll_push_back_Fault. }
  set (n := Z.to_nat i).
  destruct (cut_around cs n) as (xs & [pa pv] & [ca cv] & Hcs & Hxs & Htake & Hdrop); [lia|].
  rewrite Hcs in Hc. apply lseg_app in Hc as (m & Hseg & Hrest).
  step.
  assert (Z.to_nat (wrap (i - 1)) = length xs) as ->.
  { rewrite wrap_small by lia. lia. }
  cbv beta iota; erewrite bind_Ok by (by apply advance_Ok).
  cbv beta iota; apply bind_Fault. by apply malloc_node_Fault.
Qed.

Lemma ll_erase_reject l i st L :
  l ≠ NULL → lists st !! l = Some L → size_ L <= i →
  C.ll_erase l i st = Ok 0 st.
Proof.
  intros Hl HL Hi. unfold C.ll_erase. step.
  assert ((i >=? size_ L) = true) as -> by lia. by step.
Qed.

Lemma with_local_int_pop_front l st L a v cs :
  l ≠ NULL → lists st !! l = Some L → rep_list (nodes st) L ((a, v) :: cs) →
  heap_ok (nodes st) →
  ∃ L', with_local_int (λ tmp, C.ll_pop_front l tmp) st =
          Ok 1 (mkState (<[l:=L']> (lists st)) (delete a (nodes st)) (ints st)) ∧
        rep_list (delete a (nodes st)) L' cs.
Proof.
  intros Hl HL Hrep Hok.
  pose proof (fresh_key_pos (ints st)) as Hd.
  pose proof (fresh_key_fresh (ints st)) as Hfresh.
  set (d := fresh_key (ints st)) in *.
  destruct (ll_pop_front_Ok l d (with_ints (insert d uninit_int) st) L a v cs)
    as (L' & Hrun & Hrep' & _); try done.
  { right. simpl. rewrite lookup_insert_eq. by eexists. }
  exists L'. split; [|done].
  unfold with_local_int. fold d. rewrite Hrun. f_equal.
  unfold with_ints, write_out. cbn [lists nodes ints].
  assert ((d =? NULL) = false) as -> by (unfold NULL; lia).
  by rewrite insert_insert_eq, delete_insert_id.
Qed.

Lemma ll_erase_Ok l i st L cs :
  l ≠ NULL → lists st !! l = Some L → rep_list (nodes st) L cs → heap_ok (nodes st) →
  0 <= i < Z.of_nat (length cs) →
  ∃ L' h', C.ll_erase l i st = Ok 1 (mkState (<[l:=L']> (lists st)) h' (ints st)) ∧
    rep_list h' L' (delete (Z.to_nat i) cs) ∧
    frame_outside (cs.*1) (nodes st) h'.
Proof.
  intros Hl HL Hrep Hok Hi.
  pose proof Hrep as (Hc & Ht & Hs).
  pose proof (chain_length_lt _ _ _ Hok Hc) as Hlen.
  assert ((i >=? size_ L) = false) as Hge by lia.
  destruct (Z.eqb_spec i 0) as [->|Hi0].
  { destruct cs as [|[a v] cs]; [simpl in Hi; lia|].
    destruct (with_local_int_pop_front l st L a v cs) as (L' & Hrun & Hrep'); try done.
    exists L', (delete a (nodes st)). split; [|split; [done|]].
    - unfold C.ll_erase. step. by rewrite Hge.
    - intros b Hb. rewrite lookup_delete_ne; [done|]. intros ->. apply Hb. left. }
  set (n := Z.to_nat i).
  destruct (cut_around cs n) as (xs & [pa pv] & [va vv] & Hcs & Hxs & Htake & Hdrop); [lia|].
  set (ys := drop (S n) cs) in *.
  rewrite delete_take_drop, Htake. fold ys. rewrite <- app_assoc. simpl.
  rewrite Hcs in Hc. apply chain_split in Hc as (m & Hseg & Hrest & Hdisj).
  apply chain_cons_inv in Hrest as (-> & Hpa & Hpani & nx & Hlpa & Hrest).
  apply chain_cons_inv in Hrest as (-> & Hva & Hvani & nxv & Hlva & Hrest).
  assert (pa ∉ xs.*1) as Hpaxs.
  { intros Hin. apply (Hdisj _ Hin). simpl. left. }
  assert (va ∉ xs.*1) as Hvaxs.
  { intros Hin. apply (Hdisj _ Hin). simpl. right. left. }
  assert (pa ≠ va) as Hpava.
  { intros ->. apply Hpani. simpl. left. }
  assert (pa ∉ ys.*1) as Hpays.
  { intros Hin. apply Hpani. simpl. by right. }
  set (h' := delete va (<[pa:=mkNode pv nxv]> (nodes st))).
  assert (lseg h' (head_ L) (xs ++ (pa, pv) :: ys) NULL) as Hc'.
  { apply lseg_app. exists pa. split.
    - apply lseg_delete_other; [done|]. by apply lseg_insert_other.
    - apply (lseg_cons_intro _ _ _ nxv); [done| |].
      { unfold h'. by rewrite lookup_delete_ne, lookup_insert_eq. }
      apply lseg_delete_other; [done|]. by apply lseg_insert_other. }
  assert (tail_ L = if decide (ys = []) then va else last_addr ys) as Htl.
  { rewrite Ht, Hcs, last_addr_app by done. by rewrite last_addr_cons_cons, last_addr_cons. }
  exists (mkList (head_ L) (if decide (ys = []) then pa else tail_ L) (wrap (size_ L - 1))), h'.
  split; [|split].
  - unfold C.ll_erase. step. rewrite Hge.
    assert ((i =? 0) = false) as -> by lia. step.
    assert (Z.to_nat (wrap (i - 1)) = length xs) as ->.
    { rewrite wrap_small by lia. lia. }
    cbv beta iota; erewrite bind_Ok by (by apply advance_Ok).
    do 4 step.
    destruct (decide (ys = [])) as [Hys|Hys].
    + assert ((va =? tail_ L) = true) as -> by (apply Z.eqb_eq; congruence).
      do 5 step. unfold h'. state_eq.
    + assert ((va =? tail_ L) = false) as ->.
      { apply Z.eqb_neq. rewrite Htl. intros ->. apply Hvani. by apply last_addr_elem. }
      do 5 step. unfold h'. state_eq.
  - split; [done|]. split; simpl.
    + destruct (decide (ys = [])) as [->|Hys]; [by rewrite last_addr_snoc|].
      rewrite Htl, last_addr_app by done. rewrite last_addr_cons.
      by destruct (decide (ys = [])).
    + rewrite Hcs in Hs, Hlen. rewrite !length_app in *. cbn [length] in *.
      rewrite wrap_small; lia.
  - intros a Hni. unfold h'. rewrite lookup_delete_ne, lookup_insert_ne; [done| |].
    + intros ->. apply Hni. rewrite Hcs, fmap_app. apply elem_of_app. right. left.
    + intros ->. apply Hni. rewrite Hcs, fmap_app. apply elem_of_app. right. right. left.
Qed.

Lemma print_loop_Ok fuel st p cs :
  lseg (nodes st) p cs NULL → (length cs ≤ fuel)%nat →
  C.print_loop fuel p st = Ok (cs.*2) st.
Proof.
  revert fuel p. induction cs as [|[a v] cs IH]; intros fuel p Hc Hfuel.
  - simpl in Hc. subst p. by destruct fuel.
  - apply chain_cons_inv in Hc as (-> & Ha & Hni & nx & Hla & Hrest).
    destruct fuel as [|fuel]; [simpl in Hfuel; lia|].
    simpl. destruct (Z.eqb_spec a NULL) as [|_]; [done|].
    do 2 step. erewrite bind_Ok; [|apply IH; [done|simpl in Hfuel; lia]].
    done.
Qed.

Lemma print_list_Ok l st L cs :
  l ≠ NULL → lists st !! l = Some L → rep_list (nodes st) L cs →
  C.print_list l st = Ok (cs.*2, size_ L) st.
Proof.
  intros Hl HL (Hc & _). unfold C.print_list. do 2 step.
  erewrite bind_Ok; [|by apply print_loop_Ok; [|eapply chain_length_le_size]].
  by do 2 step.
Qed.

Lemma copy_loop_step fuel dst a st v nx :
  a ≠ NULL → nodes st !! a = Some (mkNode v nx) →
  C.copy_loop (S fuel) dst a st =
    (C.ll_push_back dst v;; nx' ← load_next a; C.copy_loop fuel dst nx') st.
Proof.
  intros Ha Hla. simpl. destruct (Z.eqb_spec a NULL) as [|_]; [done|]. by step.
Qed.

(** The copy loop appends one fresh node per element; it stops for want of
    memory only when the allocator does not deliver that many nodes. *)
Lemma copy_loop_exact fuel dst st n xs Ld ds :
  dst ≠ NULL → lists st !! dst = Some Ld → rep_list (nodes st) Ld ds →
  heap_ok (nodes st) → lseg (nodes st) n xs NULL →
  (∀ a, a ∈ xs.*1 → a ∉ ds.*1) → (length xs ≤ fuel)%nat →
  (C.copy_loop fuel dst n st = Fault AllocFailure ∧
   ¬ can_alloc (length xs) (nodes st)) ∨
  ∃ Ld' h' ds',
    C.copy_loop fuel dst n st = Ok tt (mkState (<[dst:=Ld']> (lists st)) h' (ints st)) ∧
    rep_list h' Ld' (ds ++ ds') ∧ copied (xs.*2) ds' (ds.*1) (nodes st) h'.
Proof.
  revert fuel st n Ld ds.
  induction xs as [|[a v] xs IH]; intros fuel st n Ld ds Hdst HLd Hrep Hok Hc Hdisj Hfuel.
  - right. simpl in Hc. subst n. exists Ld, (nodes st), [].
    rewrite app_nil_r, insert_id, state_eta by done.
    split; [by destruct fuel|]. split; [done|].
    split; [done|]. split; [done|]. split; [|done].
    intros a Ha. by apply elem_of_nil in Ha.
  - apply chain_cons_inv in Hc as (-> & Ha & Hni & nx & Hla & Hrest).
    destruct fuel as [|fuel]; [simpl in Hfuel; lia|].
    rewrite (copy_loop_step fuel dst a st v nx) by done.
    destruct (alloc (nodes st)) as [[p j]|] eqn:Halloc.
    2:{ left. split; [apply bind_Fault; by apply ll_push_back_Fault|].
        simpl. intros (p' & j' & Ha' & _). congruence. }
    pose proof (alloc_fresh _ _ _ Halloc) as Hfresh.
    pose proof (alloc_range _ _ _ Halloc) as Hrange.
    destruct (ll_push_back_Ok dst v st Ld ds p j) as (Hrun & Hrep1 & Hfr1); try done.
    cbv zeta in Hrun, Hrep1, Hfr1. erewrite bind_Ok by exact Hrun. cbv beta.
    set (L1 := mkList _ _ _) in *. set (h1 := alter _ _ _) in *.
    assert (dom h1 = dom (nodes st) ∪ {[p]}) as Hdom1.
    { unfold h1. rewrite dom_alter_L, dom_insert_L. set_solver. }
    assert (∀ b, b ∈ ((a, v) :: xs).*1 → b ∉ p :: ds.*1) as Hout.
    { assert (lseg (nodes st) a ((a, v) :: xs) NULL) as Hc0
        by (by apply (lseg_cons_intro _ _ _ nx)).
      intros b Hb Hin. apply elem_of_cons in Hin as [->|Hin]; [|by eapply Hdisj].
      destruct (lseg_live _ _ _ _ p Hc0 Hb) as [_ [m Hm]]. congruence. }
    assert (heap_ok h1) as Hok1.
    { eapply heap_ok_frame; [exact Hok|exact Hfr1|].
      intros b Hb. apply elem_of_cons in Hb as [->|Hb]; [done|].
      destruct Hrep as (Hcd & _). by apply (lseg_range _ _ _ _ _ Hok Hcd). }
    assert (h1 !! a = Some (mkNode v nx)) as Hla1.
    { rewrite Hfr1; [done|]. apply Hout. simpl. left. }
    erewrite bind_Ok by (by eapply load_next_Ok). cbv beta. simpl next.
    destruct (IH fuel (mkState (<[dst:=L1]> (lists st)) h1 (ints st)) nx L1 (ds ++ [(p, v)]))
      as [[Hfault Hno]|(Ld' & h' & ds' & Hrun' & Hrep' & Hval & Hfr' & Hnew & Hok')];
      try done.
    + simpl. apply lookup_insert_eq.
    + simpl. eapply lseg_frame_outside; [exact Hfr1| |exact Hrest].
      intros b Hb. apply Hout. simpl. by right.
    + intros b Hb. rewrite fmap_app. intros Hin.
      apply (Hout b); [simpl; by right|].
      apply elem_of_app in Hin as [Hin|Hin]; [by right|].
      apply list_elem_of_singleton in Hin. simpl in Hin. subst. left.
    + simpl in Hfuel. lia.
    + left. split; [done|]. simpl. intros (p' & j' & Ha' & Hnext).
      assert (p' = p) as -> by congruence. apply Hno. simpl. by apply Hnext.
    + right. exists Ld', h', ((p, v) :: ds').
      cbn [lists nodes ints] in *. rewrite insert_insert_eq in Hrun'.
      split; [done|]. split; [by rewrite <- app_assoc in Hrep'|].
      split; [by rewrite !fmap_cons, Hval|]. split; [|split; [|done]].
      * intros b Hb. rewrite Hfr', Hfr1; [done| |].
        -- intros Hin. apply Hb. simpl. apply elem_of_cons in Hin as [->|Hin]; [left|].
           right. apply elem_of_app. by right.
        -- intros Hin. apply Hb. simpl. rewrite fmap_app in Hin.
           apply elem_of_app in Hin as [Hin|Hin].
           ++ right. apply elem_of_app. by left.
           ++ apply elem_of_app in Hin as [Hin|Hin].
              ** right. apply elem_of_app. by right.
              ** apply list_elem_of_singleton in Hin. simpl in Hin. subst. left.
      * intros b Hb. simpl in Hb. apply elem_of_cons in Hb as [->|Hb]; [done|].
        specialize (Hnew b Hb). rewrite <- Hfr1; [done|].
        intros Hin. pose proof Hrep1 as (Hc1 & _).
        destruct (lseg_live _ _ _ _ b Hc1) as [_ [m Hm]]; [|congruence].
        rewrite fmap_app. apply elem_of_cons in Hin as [->|Hin].
        -- apply elem_of_app. right. simpl. left.
        -- apply elem_of_app. by left.
Qed.

Lemma copy_loop_spec fuel dst st n xs Ld ds :
  dst ≠ NULL → lists st !! dst = Some Ld → rep_list (nodes st) Ld ds →
  heap_ok (nodes st) → lseg (nodes st) n xs NULL →
  (∀ a, a ∈ xs.*1 → a ∉ ds.*1) → (length xs ≤ fuel)%nat →
  C.copy_loop fuel dst n st = Fault AllocFailure ∨
  ∃ Ld' h' ds',
    C.copy_loop fuel dst n st = Ok tt (mkState (<[dst:=Ld']> (lists st)) h' (ints st)) ∧
    rep_list h' Ld' (ds ++ ds') ∧ copied (xs.*2) ds' (ds.*1) (nodes st) h'.
Proof.
  intros Hdst HLd Hrep Hok Hc Hdisj Hfuel.
  destruct (copy_loop_exact fuel dst st n xs Ld ds) as [[Hf _]|Hrun]; try done;
    [by left|by right].
Qed.

Lemma ll_copy_exact src st S cs :
  src ≠ NULL → lists st !! src = Some S → rep_list (nodes st) S cs →
  heap_ok (nodes st) →
  (C.ll_copy src st = Fault AllocFailure ∧ ¬ can_alloc (length cs) (nodes st)) ∨
  ∃ Lc h' cs',
    C.ll_copy src st = Ok Lc (mkState (lists st) h' (ints st)) ∧
    rep_list h' Lc cs' ∧ copied (cs.*2) cs' [] (nodes st) h'.
Proof.
  intros Hsrc HS Hrep Hok.
  pose proof (fresh_key_pos (lists st)) as Hd.
  pose proof (fresh_key_fresh (lists st)) as Hfresh.
  assert (fresh_key (lists st) ≠ src) as Hne by congruence.
  unfold C.ll_copy, with_local_list.
  set (d := fresh_key (lists st)) in *.
  set (st2 := mkState (<[d:=mkList NULL NULL 0]> (lists st)) (nodes st) (ints st)).
  assert (∀ {A} (k : unit → M A),
            (C.ll_init d ≫= k) (with_lists (insert d uninit_list) st) = k tt st2) as Hinit.
  { intros A k. erewrite bind_Ok; [reflexivity|].
    erewrite ll_init_Ok; [|unfold NULL; lia|simpl; apply lookup_insert_eq].
    f_equal. unfold st2. state_eq. }
  rewrite Hinit. clear Hinit.
  erewrite bind_Ok; [|eapply load_head_Ok; [done|]; simpl; by rewrite lookup_insert_ne].
  erewrite bind_Ok by apply live_nodes_Ok. cbv beta.
  destruct Hrep as (Hc & _).
  destruct (copy_loop_exact (size (nodes st2)) d st2 (head_ S) cs (mkList NULL NULL 0) [])
    as [[Hfault Hno]|(Ld' & h' & ds' & Hrun & Hrep' & Hcopied)]; try done.
  - unfold NULL; lia.
  - simpl. apply lookup_insert_eq.
  - intros a _ Hin. by apply elem_of_nil in Hin.
  - by eapply chain_length_le_size.
  - left. split; [|done]. erewrite bind_Fault by exact Hfault. done.
  - right. exists Ld', h', ds'. split; [|done].
    erewrite bind_Ok by exact Hrun.
    erewrite load_list_Ok; [|unfold NULL; lia|simpl; apply lookup_insert_eq].
    f_equal. unfold with_lists, st2. cbn [lists nodes ints]. f_equal.
    by rewrite !insert_insert_eq, delete_insert_id.
Qed.

Lemma ll_copy_spec src st S cs :
  src ≠ NULL → lists st !! src = Some S → rep_list (nodes st) S cs →
  heap_ok (nodes st) →
  C.ll_copy src st = Fault AllocFailure ∨
  ∃ Lc h' cs',
    C.ll_copy src st = Ok Lc (mkState (lists st) h' (ints st)) ∧
    rep_list h' Lc cs' ∧ copied (cs.*2) cs' [] (nodes st) h'.
Proof.
  intros Hsrc HS Hrep Hok.
  destruct (ll_copy_exact src st S cs) as [[Hf _]|Hrun]; try done; [by left|by right].
Qed.

Lemma ll_move_from_Ok src st S :
  src ≠ NULL → lists st !! src = Some S →
  C.ll_move_from src st =
    Ok S (mkState (<[src:=mkList NULL NULL 0]> (lists st)) (nodes st) (ints st)).
Proof.
  intros Hsrc HS. unfold C.ll_move_from. step.
  cbv beta iota; erewrite bind_Ok by (by eapply ll_init_Ok). by step.
Qed.

(** Move-assignment between two distinct list objects. *)
Lemma ll_move_assign_from_Ok dst src st D S ds :
  dst ≠ NULL → src ≠ NULL → dst ≠ src →
  lists st !! dst = Some D → lists st !! src = Some S →
  rep_list (nodes st) D ds →
  C.ll_move_assign_from dst src st =
    Ok tt (mkState (<[src:=mkList NULL NULL 0]> (<[dst:=S]> (lists st)))
             (free_all (ds.*1) (nodes st)) (ints st)).
Proof.
  intros Hdst Hsrc Hne HD HS Hrep. unfold C.ll_move_assign_from.
  erewrite bind_Ok by (by eapply ll_clear_Ok). do 2 step.
  erewrite ll_init_Ok; [|done|solve_live].
  f_equal. state_eq.
Qed.

(** Move-assignment of a list object to itself. *)
Lemma ll_move_assign_from_self l st L cs :
  l ≠ NULL → lists st !! l = Some L → rep_list (nodes st) L cs →
  C.ll_move_assign_from l l st =
    Ok tt (mkState (<[l:=mkList NULL NULL 0]> (lists st))
             (free_all (cs.*1) (nodes st)) (ints st)).
Proof.
  intros Hl HL Hrep. unfold C.ll_move_assign_from.
  erewrite bind_Ok by (by eapply ll_clear_Ok). do 2 step.
  erewrite ll_init_Ok; [|done|solve_live].
  f_equal. state_eq.
Qed.

End Specs.

(** ** The C++ member functions against the C functions *)

Section CppSpecs.
Context `{Allocator}.
Implicit Types (st : state) (L : LinkedList) (cs : list cell).

Lemma as_bool_Ok (c : M Z) st r st' : c st = Ok r st' → as_bool c st = Ok (to_bool r) st'.
Proof. intros Hc. unfold as_bool. by erewrite bind_Ok by exact Hc. Qed.

Lemma as_bool_Fault (c : M Z) st e : c st = Fault e → as_bool c st = Fault e.
Proof. intros Hc. unfold as_bool. by apply bind_Fault. Qed.

Lemma new_Node_Ok st v p j :
  alloc (nodes st) = Some (p, j) →
  Cpp.new_Node v st = Ok p (mkState (lists st) (<[p:=mkNode v NULL]> (nodes st)) (ints st)).
Proof.
  intros Ha. unfold Cpp.new_Node. step.
  unfold mbind, M_bind, bind, put_node. f_equal. state_eq.
Qed.

Lemma new_Node_Fault st v :
  alloc (nodes st) = None → Cpp.new_Node v st = Fault AllocFailure.
Proof. intros Ha. unfold Cpp.new_Node. apply bind_Fault. by apply malloc_node_Fault. Qed.

Lemma ctor_eq this st : Cpp.ctor this st = C.ll_init this st.
Proof. reflexivity. Qed.

Lemma clear_eq this st : Cpp.clear this st = C.ll_clear this st.
Proof. reflexivity. Qed.

Lemma size_eq this st : Cpp.size this st = C.ll_size this st.
Proof. reflexivity. Qed.

Lemma toVector_loop_eq fuel n st : Cpp.toVector_loop fuel n st = C.print_loop fuel n st.
Proof. reflexivity. Qed.

Lemma push_back_eq this v st : Cpp.push_back this v st = C.ll_push_back this v st.
Proof.
  unfold Cpp.push_back, C.ll_push_back.
  destruct (alloc (nodes st)) as [[p j]|] eqn:Ha.
  2:{ etrans; [apply bind_Fault; by apply new_Node_Fault|].
      symmetry. apply bind_Fault. by apply malloc_node_Fault. }
  pose proof (alloc_range _ _ _ Ha) as Hrange.
  erewrite bind_Ok by (by eapply new_Node_Ok).
  symmetry. do 3 step. symmetry.
  match goal with |- _ ?s1 = _ ?s2 => replace s2 with s1 by state_eq end.
  unfold mbind, M_bind, bind.
  destruct (load_tail this _) as [t s|e]; [|done].
  by destruct (t =? NULL).
Qed.

Lemma copyFrom_loop_eq fuel this n st :
  Cpp.copyFrom_loop fuel this n st = C.copy_loop fuel this n st.
Proof.
  revert n st. induction fuel as [|fuel IH]; intros n st; simpl; [done|].
  destruct (n =? NULL); [done|]. unfold mbind, M_bind, bind.
  destruct (load_value n st) as [v s|e]; [|done]. rewrite push_back_eq.
  destruct (C.ll_push_back this v s) as [[] s'|e]; [|done].
  destruct (load_next n s') as [nx s''|e]; [|done]. apply IH.
Qed.

Lemma push_front_eq this v st L :
  this ≠ NULL → lists st !! this = Some L →
  Cpp.push_front this v st = C.ll_push_front this v st.
Proof.
  intros Hl HL. unfold Cpp.push_front, C.ll_push_front.
  destruct (alloc (nodes st)) as [[p j]|] eqn:Ha.
  2:{ etrans; [apply bind_Fault; by apply new_Node_Fault|].
      symmetry. apply bind_Fault. by apply malloc_node_Fault. }
  pose proof (alloc_range _ _ _ Ha) as Hrange.
  erewrite bind_Ok by (by eapply new_Node_Ok).
  destruct (Z.eqb_spec (tail_ L) NULL).
  - etrans; [repeat step; reflexivity|]. symmetry. repeat step. state_eq.
  - etrans; [repeat step; reflexivity|]. symmetry. repeat step. state_eq.
Qed.

Lemma pop_front_eq this out st L cs :
  this ≠ NULL → lists st !! this = Some L → rep_list (nodes st) L cs →
  heap_ok (nodes st) → out ≠ NULL → is_Some (ints st !! out) →
  Cpp.pop_front this out st = as_bool (C.ll_pop_front this out) st.
Proof.
  intros Hl HL Hrep Hok Hout [w Hw]. destruct cs as [|[a v] cs].
  - erewrite as_bool_Ok by (by eapply ll_pop_front_empty).
    destruct Hrep as (Hc & _). simpl in Hc.
    unfold Cpp.pop_front. step. rewrite Hc, Z.eqb_refl. by step.
  - destruct (ll_pop_front_Ok this out st L a v cs) as (L' & Hrun & Hrep' & Hla);
      [done..|by right|].
    erewrite as_bool_Ok by exact Hrun.
    destruct Hrep as (Hc & Ht & Hs).
    pose proof (chain_length_lt _ _ _ Hok Hc) as Hlen.
    apply chain_cons_inv in Hc as (Hh & Ha & Hni & nx & Hla' & Hrest).
    rewrite Hla in Hla'. injection Hla' as Hnx.
    assert ((head_ L =? NULL) = false) as Hb by (apply Z.eqb_neq; congruence).
    assert ((out =? NULL) = false) as Hob by (by apply Z.eqb_neq).
    unfold Cpp.pop_front. step. rewrite Hb, Hh. do 5 step.
    destruct Hrep' as (Hc' & Ht' & Hs').
    assert (L' = mkList (head_ L') (if head_ L' =? NULL then NULL else tail_ L)
                   (wrap (size_ L - 1))) as ->.
    { destruct L' as [h' t' s']. simpl in *. f_equal.
      - destruct cs as [|c cs].
        + simpl in Hc'. by rewrite Ht', Hc', Z.eqb_refl.
        + rewrite Ht', Ht. destruct Hc' as (_ & Hnz & _).
          apply Z.eqb_neq in Hnz. by rewrite Hnz.
      - simpl length in *. rewrite Hs', wrap_small; lia. }
    simpl head_ in *. unfold write_out. rewrite Hob.
    destruct (Z.eqb_spec (head_ L') NULL); repeat step; state_eq.
Qed.

Lemma front_Ok this st L a v cs :
  this ≠ NULL → lists st !! this = Some L → rep_list (nodes st) L ((a, v) :: cs) →
  Cpp.front this st = Ok v st.
Proof.
  intros Hl HL (Hc & _).
  apply chain_cons_inv in Hc as (Hh & Ha & Hni & nx & Hla & Hrest).
  unfold Cpp.front. step. rewrite Hh. by step.
Qed.

Lemma back_Ok this st L cs t w :
  this ≠ NULL → lists st !! this = Some L → rep_list (nodes st) L (cs ++ [(t, w)]) →
  Cpp.back this st = Ok w st.
Proof.
  intros Hl HL (Hc & Ht & _). rewrite last_addr_snoc in Ht. simpl in Ht.
  apply chain_snoc_inv in Hc as (Hxs & Htz & Htx & Hlt).
  unfold Cpp.back. step. rewrite Ht. by step.
Qed.

(** On an empty list [front()] and [back()] go through the null pointer. *)
Lemma front_empty this st L :
  this ≠ NULL → lists st !! this = Some L → rep_list (nodes st) L [] →
  Cpp.front this st = Fault NullDeref.
Proof.
  intros Hl HL (Hc & _). simpl in Hc. unfold Cpp.front. step. by rewrite Hc.
Qed.

Lemma back_empty this st L :
  this ≠ NULL → lists st !! this = Some L → rep_list (nodes st) L [] →
  Cpp.back this st = Fault NullDeref.
Proof.
  intros Hl HL (_ & Ht & _). unfold Cpp.back. step. by rewrite Ht.
Qed.

Lemma empty_Ok this st L :
  this ≠ NULL → lists st !! this = Some L →
  Cpp.empty this st = Ok (size_ L =? 0) st.
Proof. intros Hl HL. unfold Cpp.empty. by do 2 step. Qed.

Lemma toVector_Ok this st L cs :
  this ≠ NULL → lists st !! this = Some L → rep_list (nodes st) L cs →
  Cpp.toVector this st = Ok (cs.*2) st.
Proof.
  intros Hl HL (Hc & _). unfold Cpp.toVector. do 2 step.
  rewrite toVector_loop_eq. by apply print_loop_Ok; [|eapply chain_length_le_size].
Qed.

Lemma bind_ext {A B} (c : M A) (k1 k2 : A → M B) st :
  (∀ a s, k1 a s = k2 a s) → (c ≫= k1) st = (c ≫= k2) st.
Proof. intros Hk. unfold mbind, M_bind, bind. destruct (c st); [apply Hk|done]. Qed.

Lemma bind_eq {A B} (c1 c2 : M A) (k1 k2 : A → M B) st :
  c1 st = c2 st → (∀ a s, k1 a s = k2 a s) → (c1 ≫= k1) st = (c2 ≫= k2) st.
Proof.
  intros Hc Hk. unfold mbind, M_bind, bind. rewrite Hc.
  destruct (c2 st); [apply Hk|done].
Qed.

Lemma as_bool_bind {A} (c : M A) (k : A → M Z) st :
  as_bool (c ≫= k) st = (c ≫= λ x, as_bool (k x)) st.
Proof. unfold as_bool. apply bind_assoc. Qed.

Lemma insert_eq this i v st L cs :
  this ≠ NULL → lists st !! this = Some L → rep_list (nodes st) L cs →
  heap_ok (nodes st) → 0 <= i →
  Cpp.insert this i v st = as_bool (C.ll_insert this i v) st.
Proof.
  intros Hl HL Hrep Hok Hi.
  pose proof Hrep as (Hc & Ht & Hs).
  pose proof (chain_length_lt _ _ _ Hok Hc) as Hlen.
  unfold Cpp.insert, C.ll_insert. rewrite as_bool_bind. step2.
  destruct (i >? size_ L) eqn:Hgt; [done|].
  destruct (Z.eqb_spec i 0) as [->|Hi0].
  { rewrite as_bool_bind.
    apply bind_eq; [by eapply push_front_eq|by intros [] s]. }
  rewrite as_bool_bind. step2.
  destruct (Z.eqb_spec i (size_ L)) as [Heq|Hne].
  { rewrite as_bool_bind.
    apply bind_eq; [by apply push_back_eq|by intros [] s]. }
  rewrite as_bool_bind. step2.
  assert (wrap (i - 1) = i - 1) as -> by (apply wrap_small; lia).
  set (n := Z.to_nat i).
  destruct (cut_around cs n) as (xs & [pa pv] & [ca cv] & Hcs & Hxs & Htake & Hdrop); [lia|].
  rewrite Hcs in Hc. apply lseg_app in Hc as (m & Hseg & Hrest).
  destruct Hrest as (-> & Hpa & nx & Hlpa & Hrest). simpl in Hpa, Hlpa, Hseg.
  assert (Z.to_nat (i - 1) = length xs) as -> by lia.
  rewrite as_bool_bind.
  erewrite bind_Ok by (by apply advance_Ok). symmetry.
  erewrite bind_Ok by (by apply advance_Ok). symmetry. cbv beta.
  rewrite as_bool_bind.
  destruct (alloc (nodes st)) as [[p j]|] eqn:Ha.
  2:{ etrans; [apply bind_Fault; by apply new_Node_Fault|].
      symmetry. apply bind_Fault. by apply malloc_node_Fault. }
  pose proof (alloc_range _ _ _ Ha) as Hrange.
  pose proof (alloc_fresh _ _ _ Ha) as Hfresh.
  assert (pa ≠ p) as Hpap by congruence.
  erewrite bind_Ok by (by eapply new_Node_Ok).
  etrans; [repeat step; reflexivity|]. symmetry.
  step. repeat (rewrite as_bool_bind; step). unfold as_bool. step.
  unfold to_bool. simpl negb. state_eq.
Qed.

Lemma erase_eq this i st L cs :
  this ≠ NULL → lists st !! this = Some L → rep_list (nodes st) L cs →
  heap_ok (nodes st) → 0 <= i →
  Cpp.erase this i st = as_bool (C.ll_erase this i) st.
Proof.
  intros Hl HL Hrep Hok Hi.
  pose proof Hrep as (Hc & Ht & Hs).
  pose proof (chain_length_lt _ _ _ Hok Hc) as Hlen.
  unfold Cpp.erase, C.ll_erase. rewrite as_bool_bind. step2.
  destruct (i >=? size_ L) eqn:Hge; [done|].
  destruct (Z.eqb_spec i 0) as [->|Hi0].
  { pose proof (fresh_key_pos (ints st)) as Hd.
    unfold as_bool at 1, with_local_int. unfold mbind at 1, M_bind at 1, bind at 1.
    erewrite pop_front_eq; [|done|done|done|done|unfold NULL; lia|].
    2:{ simpl. rewrite lookup_insert_eq. by eexists. }
    unfold as_bool, mbind, M_bind, bind.
    by destruct (C.ll_pop_front this _ _). }
  assert (wrap (i - 1) = i - 1) as -> by (apply wrap_small; lia).
  repeat (rewrite as_bool_bind; apply bind_ext; intros ? ?).
  done.
Qed.

End CppSpecs.

(** ** Several lists in one heap *)

Section World.
Implicit Types (st : state) (O : gmap Z (list cell)) (cs : list cell).

Lemma rep_list_structural st l L cs :
  lists st !! l = Some L → rep_list (nodes st) L cs → structural_invariant st l.
Proof.
  intros HL Hrep. destruct (rep_list_empty_iff _ _ _ Hrep) as (H1 & H2 & H3).
  destruct Hrep as (Hc & Ht & Hs).
  exists L, cs. repeat split; try done; try apply H1; try apply H2.
  intros Hnz. destruct cs as [|[t w] cs _] using rev_ind; [done|].
  rewrite last_addr_snoc in Ht. simpl in Ht.
  apply chain_snoc_inv in Hc as (_ & _ & _ & Hl). exists w. by rewrite Ht.
Qed.

Lemma world_inv_structural st O l :
  world_inv st O → is_Some (O !! l) → structural_invariant st l.
Proof.
  intros (_ & Hown & _) [cs Hcs]. destruct (Hown _ _ Hcs) as (_ & L & HL & Hrep).
  by eapply rep_list_structural.
Qed.

Lemma world_inv_ints ls ns im im' O :
  world_inv (mkState ls ns im) O → world_inv (mkState ls ns im') O.
Proof. done. Qed.

Lemma world_update st st' O l cs' L' :
  world_inv st O → l ≠ NULL →
  lists st' = <[l:=L']> (lists st) → rep_list (nodes st') L' cs' →
  heap_ok (nodes st') →
  (∀ l2 cs2, l2 ≠ l → O !! l2 = Some cs2 →
     ∀ a, a ∈ cs2.*1 → nodes st' !! a = nodes st !! a ∧ a ∉ cs'.*1) →
  world_inv st' (<[l:=cs']> O).
Proof.
  intros (Hok & Hown & Hdisj) Hl Hlists Hrep Hok' Hkeep.
  split; [done|]. split.
  - intros l2 cs2. rewrite lookup_insert. case_decide as Hd.
    + intros [= <-]. subst l2. split; [done|]. exists L'.
      by rewrite Hlists, lookup_insert_eq.
    + intros Hcs2. destruct (Hown _ _ Hcs2) as (Hl2 & L2 & HL2 & Hc2 & Htl & Hsz).
      split; [done|]. exists L2. rewrite Hlists, lookup_insert_ne by done.
      split; [done|]. split; [|done].
      eapply lseg_frame; [|exact Hc2]. intros a Ha.
      by apply (Hkeep l2 cs2).
  - intros l1 l2 cs1 cs2 Hne. rewrite !lookup_insert.
    case_decide as H1; case_decide as H2; intros E1 E2 a Ha.
    + congruence.
    + injection E1 as <-. intros Hin.
      by destruct (Hkeep l2 cs2 (not_eq_sym H2) E2 a Hin) as [_ Hni].
    + injection E2 as <-. by destruct (Hkeep l1 cs1 (not_eq_sym H1) E1 a Ha) as [_ Hni].
    + exact (Hdisj l1 l2 cs1 cs2 Hne E1 E2 a Ha).
Qed.

(** What keeps the other lists out of the way of an operation on [l]: it
    touches only the cells of [l] and nodes that were not live. *)
Lemma others_kept st O l cs fresh h' cs' :
  world_inv st O → O !! l = Some cs →
  frame_outside (fresh ++ cs.*1) (nodes st) h' →
  (∀ a, a ∈ fresh → nodes st !! a = None) →
  (∀ a, a ∈ cs'.*1 → a ∈ fresh ∨ a ∈ cs.*1) →
  ∀ l2 cs2, l2 ≠ l → O !! l2 = Some cs2 →
    ∀ a, a ∈ cs2.*1 → h' !! a = nodes st !! a ∧ a ∉ cs'.*1.
Proof.
  intros (Hok & Hown & Hdisj) Hcs Hfr Hfresh Hsub l2 cs2 Hne Hcs2 a Ha.
  destruct (Hown _ _ Hcs2) as (_ & L2 & _ & Hc2 & _).
  destruct (lseg_live _ _ _ _ _ Hc2 Ha) as [_ [n Hn]].
  assert (a ∉ fresh) as Hnf.
  { intros Hin. apply Hfresh in Hin. congruence. }
  assert (a ∉ cs.*1) as Hnc.
  { intros Hin. by eapply (Hdisj l2 l cs2 cs). }
  split.
  - apply Hfr. intros Hin. apply elem_of_app in Hin as [?|?]; done.
  - intros Hin. apply Hsub in Hin as [?|?]; done.
Qed.

Lemma world_heap_ok st O l cs fresh h' :
  world_inv st O → O !! l = Some cs →
  frame_outside (fresh ++ cs.*1) (nodes st) h' →
  (∀ a, a ∈ fresh → 0 < a < SIZE_MOD) → heap_ok h'.
Proof.
  intros (Hok & Hown & _) Hcs Hfr Hfresh.
  eapply heap_ok_frame; [exact Hok|exact Hfr|].
  intros a Ha. apply elem_of_app in Ha as [Ha|Ha]; [by apply Hfresh|].
  destruct (Hown _ _ Hcs) as (_ & L & _ & Hc & _).
  by apply (lseg_range _ _ _ _ _ Hok Hc).
Qed.

Lemma frame_outside_weaken ps qs h h' :
  frame_outside ps h h' → (∀ a, a ∈ ps → a ∈ qs) → frame_outside qs h h'.
Proof. intros Hfr Hsub a Ha. apply Hfr. intros Hin. by apply Ha, Hsub. Qed.

Lemma world_step st O l cs fresh L' h' im' cs' :
  world_inv st O → O !! l = Some cs →
  rep_list h' L' cs' → frame_outside (fresh ++ cs.*1) (nodes st) h' →
  (∀ a, a ∈ fresh → nodes st !! a = None ∧ 0 < a < SIZE_MOD) →
  (∀ a, a ∈ cs'.*1 → a ∈ fresh ∨ a ∈ cs.*1) →
  world_inv (mkState (<[l:=L']> (lists st)) h' im') (<[l:=cs']> O).
Proof.
  intros Hw Hcs Hrep Hfr Hfresh Hsub.
  pose proof Hw as (_ & Hown & _). destruct (Hown _ _ Hcs) as (Hl & _).
  eapply world_update; [exact Hw|done|done|done| |].
  - eapply world_heap_ok; [done..|]. intros a Ha. by apply Hfresh.
  - eapply others_kept; [done..| |done]. intros a Ha. by apply Hfresh.
Qed.

Lemma dom_insert_live {V} (m : gmap Z V) k v :
  is_Some (m !! k) → dom (<[k:=v]> m) = dom m.
Proof.
  intros Hk. rewrite dom_insert_L. apply elem_of_dom in Hk. set_solver.
Qed.

Lemma dom_write_out out v (im : gmap Z Z) :
  out_ok out im → dom (write_out out v im) = dom im.
Proof.
  intros Hout. unfold write_out. destruct (Z.eqb_spec out NULL); [done|].
  destruct Hout; [done|]. by apply dom_insert_live.
Qed.

Lemma step_ok_single st O l cs fresh L' h' im' cs' r :
  world_inv st O → O !! l = Some cs →
  r = Ok tt (mkState (<[l:=L']> (lists st)) h' im') →
  dom im' = dom (ints st) →
  rep_list h' L' cs' → frame_outside (fresh ++ cs.*1) (nodes st) h' →
  (∀ a, a ∈ fresh → nodes st !! a = None ∧ 0 < a < SIZE_MOD) →
  (∀ a, a ∈ cs'.*1 → a ∈ fresh ∨ a ∈ cs.*1) →
  step_ok [l] st O r.
Proof.
  intros Hw Hcs -> Hdom Hrep Hfr Hfresh Hsub. right.
  eexists _, (<[l:=cs']> O). split; [done|]. split; [by eapply world_step|].
  split; [by apply dom_insert_live|]. split; [done|].
  intros l2 Hl2. apply lookup_insert_ne. intros ->. apply Hl2. left.
Qed.

Lemma step_ok_same ws st O im' r :
  world_inv st O → r = Ok tt (mkState (lists st) (nodes st) im') →
  dom im' = dom (ints st) → step_ok ws st O r.
Proof.
  intros Hw -> Hdom. right. exists (mkState (lists st) (nodes st) im'), O.
  split; [done|]. split; [|done]. eapply world_inv_ints. by rewrite state_eta.
Qed.

Lemma fst_insert_at (cs : list cell) (n : nat) (c : cell) a :
  a ∈ (take n cs ++ c :: drop n cs).*1 → a ∈ [c.1] ∨ a ∈ cs.*1.
Proof.
  rewrite <- (take_drop n cs) at 3. rewrite !fmap_app, fmap_cons.
  rewrite !elem_of_app, elem_of_cons, list_elem_of_singleton. tauto.
Qed.

Lemma fst_delete_at (cs : list cell) (n : nat) a :
  a ∈ (delete n cs).*1 → a ∈ [] ∨ a ∈ cs.*1.
Proof.
  rewrite delete_take_drop. rewrite <- (take_drop n cs) at 3.
  rewrite !fmap_app, !elem_of_app. intros [?|Hin]; [tauto|]. right. right.
  rewrite <- (take_drop 1 (drop n cs)), drop_drop, fmap_app.
  apply elem_of_app. right. by replace (n + 1)%nat with (S n) by lia.
Qed.

Lemma frame_outside_refl ps h : frame_outside ps h h.
Proof. done. Qed.

Lemma frame_outside_free_all ps h : frame_outside ps h (free_all ps h).
Proof. intros a Ha. rewrite lookup_free_all. by case_decide. Qed.

Lemma frame_outside_delete ps a h : a ∈ ps → frame_outside ps h (delete a h).
Proof. intros Ha b Hb. apply lookup_delete_ne. by intros ->. Qed.

End World.

(** ** Every step of a program keeps the world well-formed *)

Section WorldSteps.
Context `{Allocator}.
Implicit Types (st : state) (O : gmap Z (list cell)) (cs : list cell).

Lemma owned_list st O l :
  world_inv st O → l ∈ dom O →
  ∃ cs L, O !! l = Some cs ∧ l ≠ NULL ∧ lists st !! l = Some L ∧
    rep_list (nodes st) L cs ∧ heap_ok (nodes st).
Proof.
  intros (Hok & Hown & _) [cs Hcs]%elem_of_dom.
  destruct (Hown _ _ Hcs) as (Hl & L & HL & Hrep). by exists cs, L.
Qed.

Lemma bind_ret_tt {A} (c : M A) st a st' :
  c st = Ok a st' → (c;; ret tt) st = Ok tt st'.
Proof. intros Hc. by erewrite bind_Ok by exact Hc. Qed.

Lemma out_ok_dom out (im : gmap Z Z) : out = NULL ∨ out ∈ dom im → out_ok out im.
Proof. intros [?|?%elem_of_dom]; [by left|by right]. Qed.

Lemma step_ok_weaken ws ws' st O r :
  step_ok ws st O r → (∀ l, l ∈ ws → l ∈ ws') → step_ok ws' st O r.
Proof.
  intros [->|(st' & O' & -> & Hw & Hd & Hi & Hk)] Hsub; [by left|].
  right. exists st', O'. do 4 (split; [done|]).
  intros l Hl. apply Hk. intros Hin. by apply Hl, Hsub.
Qed.

Lemma C_single_op_world o l st O :
  world_inv st O → C_op_wf (dom O) (dom (ints st)) o →
  match o with
  | C.Copy _ _ | C.MoveFrom _ _ | C.MoveAssign _ _ => False
  | _ => C.writes o = [l]
  end →
  step_ok [l] st O (C.run_op o st).
Proof.
  intros Hw (Hls & Hout & Hidx) Hsingle.
  assert (l ∈ dom O) as Hdom.
  { apply Hls. destruct o; simpl in *; try done; injection Hsingle as ->; left. }
  destruct (owned_list _ _ _ Hw Hdom) as (cs & L & Hcs & Hl & HL & Hrep & Hok).
  apply out_ok_dom in Hout.
  destruct o as [l'|l'|l'|l'|l' v|l' v|l' out|l' out|l' out|l' i v|l' i| | |];
    simpl in Hsingle, Hout, Hidx; try done; injection Hsingle as ->; simpl C.run_op.
  - (* Init *)
    eapply (step_ok_single _ _ _ _ [] _ _ _ []); [done..|by eapply ll_init_Ok|done| | | |];
      [apply rep_list_nil|apply frame_outside_refl|by intros a Ha%elem_of_nil..].
  - (* Clear *)
    eapply (step_ok_single _ _ _ _ [] _ _ _ []); [done..|by eapply ll_clear_Ok|done| | | |];
      [apply rep_list_nil|apply frame_outside_free_all|by intros a Ha%elem_of_nil..].
  - (* Empty *)
    eapply step_ok_same; [done| |reflexivity].
    rewrite state_eta. eapply bind_ret_tt. by eapply ll_empty_Ok.
  - (* Size *)
    eapply step_ok_same; [done| |reflexivity].
    rewrite state_eta. eapply bind_ret_tt. by eapply ll_size_Ok.
  - (* PushFront *)
    destruct (alloc (nodes st)) as [[p j]|] eqn:Ha; [|left; by apply ll_push_front_Fault].
    destruct (ll_push_front_Ok l v st L cs p j) as (Hrun & Hrep' & Hfr); try done.
    eapply (step_ok_single _ _ _ _ [p]); [done..|exact Hrun|done|exact Hrep'|exact Hfr| |].
    + intros a ->%list_elem_of_singleton.
      split; [by eapply alloc_fresh|by eapply alloc_range].
    + intros a Ha'. simpl in Ha'. apply elem_of_cons in Ha' as [->|?]; [left; left|by right].
  - (* PushBack *)
    destruct (alloc (nodes st)) as [[p j]|] eqn:Ha; [|left; by apply ll_push_back_Fault].
    destruct (ll_push_back_Ok l v st L cs p j) as (Hrun & Hrep' & Hfr); try done.
    eapply (step_ok_single _ _ _ _ [p]); [done..|exact Hrun|done|exact Hrep'|exact Hfr| |].
    + intros a ->%list_elem_of_singleton.
      split; [by eapply alloc_fresh|by eapply alloc_range].
    + intros a Ha'. rewrite fmap_app in Ha'.
      apply elem_of_app in Ha' as [?|Hp]; [by right|].
      apply list_elem_of_singleton in Hp as ->. left. left.
  - (* PopFront *)
    destruct cs as [|[a v] cs].
    + eapply step_ok_same; [done| |reflexivity].
      rewrite state_eta. eapply bind_ret_tt. by eapply ll_pop_front_empty.
    + destruct (ll_pop_front_Ok l out st L a v cs) as (L' & Hrun & Hrep' & _); try done.
      eapply (step_ok_single _ _ _ _ []);
        [done..|by eapply bind_ret_tt|by apply dom_write_out|exact Hrep'| | |].
      * apply frame_outside_delete. left.
      * by intros b Hb%elem_of_nil.
      * intros b Hb. right. by right.
  - (* Front *)
    destruct cs as [|[a v] cs].
    + eapply step_ok_same; [done| |reflexivity].
      rewrite state_eta. eapply bind_ret_tt. by eapply ll_front_empty.
    + eapply step_ok_same; [done| |by apply (dom_write_out out v)].
      eapply bind_ret_tt. by eapply ll_front_Ok.
  - (* Back *)
    destruct cs as [|[t w] cs _] using rev_ind.
    + eapply step_ok_same; [done| |reflexivity].
      rewrite state_eta. eapply bind_ret_tt. by eapply ll_back_empty.
    + eapply step_ok_same; [done| |by apply (dom_write_out out w)].
      eapply bind_ret_tt. by eapply ll_back_Ok.
  - (* Insert *)
    pose proof Hrep as (_ & _ & Hs).
    destruct (Z_lt_le_dec (size_ L) i) as [Hlt|Hle].
    { eapply step_ok_same; [done| |reflexivity].
      rewrite state_eta. eapply bind_ret_tt. by eapply ll_insert_reject. }
    destruct (alloc (nodes st)) as [[p j]|] eqn:Ha.
    2:{ left. apply bind_Fault. eapply ll_insert_Fault; [done..|lia]. }
    destruct (ll_insert_Ok l i v st L cs p j) as (L' & h' & Hrun & Hrep' & Hfr);
      [done..|lia|].
    eapply (step_ok_single _ _ _ _ [p]);
      [done..|by eapply bind_ret_tt|done|exact Hrep'|exact Hfr| |].
    + intros a ->%list_elem_of_singleton.
      split; [by eapply alloc_fresh|by eapply alloc_range].
    + intros a Ha'. by apply fst_insert_at in Ha'.
  - (* Erase *)
    pose proof Hrep as (_ & _ & Hs).
    destruct (Z_lt_le_dec i (size_ L)) as [Hlt|Hle].
    2:{ eapply step_ok_same; [done| |reflexivity].
        rewrite state_eta. eapply bind_ret_tt. by eapply ll_erase_reject. }
    destruct (ll_erase_Ok l i st L cs) as (L' & h' & Hrun & Hrep' & Hfr); [done..|lia|].
    eapply (step_ok_single _ _ _ _ []);
      [done..|by eapply bind_ret_tt|done|exact Hrep'|exact Hfr| |].
    + by intros b Hb%elem_of_nil.
    + intros a Ha'. by apply fst_delete_at in Ha'.
Qed.

(** Handing the cells of [src] over to [dst] and leaving [src] empty. *)
Lemma world_transfer st O dst src csS S :
  world_inv st O → dst ≠ src → dst ∈ dom O →
  O !! src = Some csS → lists st !! src = Some S →
  world_inv
    (mkState (<[src:=mkList NULL NULL 0]> (<[dst:=S]> (lists st))) (nodes st) (ints st))
    (<[src:=[]]> (<[dst:=csS]> O)).
Proof.
  intros Hw Hne Hdst Hsrc HS.
  destruct (owned_list _ _ _ Hw Hdst) as (csD & D & HcsD & Hdnz & HD & HrepD & Hok).
  pose proof Hw as (_ & Hown & Hdisj).
  destruct (Hown _ _ Hsrc) as (Hsnz & S' & HS' & HrepS).
  assert (S' = S) as -> by congruence.
  rewrite (insert_insert_ne (lists st) src dst) by done.
  rewrite (insert_insert_ne O src dst) by done.
  eapply (world_update (mkState (<[src:=mkList NULL NULL 0]> (lists st)) (nodes st) (ints st)));
    [ |done|done|exact HrepS|done| ].
  - eapply (world_step st O src csS []); [done..|apply rep_list_nil|apply frame_outside_refl| |];
      by intros a Ha%elem_of_nil.
  - simpl. intros l2 cs2 Hl2. rewrite lookup_insert. case_decide as Hd.
    + intros [= <-] a Ha. by apply elem_of_nil in Ha.
    + intros Hcs2 a Ha. split; [done|]. intros Hin.
      by apply (Hdisj l2 src cs2 csS (not_eq_sym Hd) Hcs2 Hsrc a Ha).
Qed.

Lemma C_Copy_world dst src st O :
  world_inv st O → dst ∈ dom O → src ∈ dom O →
  step_ok [dst] st O (C.run_op (C.Copy dst src) st).
Proof.
  intros Hw Hdst Hsrc.
  destruct (owned_list _ _ _ Hw Hsrc) as (csS & S & HcsS & Hsnz & HS & HrepS & Hok).
  destruct (owned_list _ _ _ Hw Hdst) as (csD & D & HcsD & Hdnz & HD & HrepD & _).
  simpl C.run_op.
  destruct (ll_copy_spec src st S csS) as
    [Hfault|(Lc & h' & cs' & Hrun & Hrep' & Hval & Hfr & Hnew & Hok')]; try done.
  { left. by apply bind_Fault. }
  eapply (step_ok_single _ _ dst csD (cs'.*1) Lc h' (ints st) cs'); try done.
  - erewrite bind_Ok by exact Hrun. by erewrite store_list_Ok.
  - eapply frame_outside_weaken; [exact Hfr|]. intros a Ha.
    apply elem_of_app in Ha as [Ha|Ha]; [|by apply elem_of_nil in Ha].
    apply elem_of_app. by left.
  - intros a Ha. split; [by apply Hnew|].
    destruct Hrep' as (Hc' & _). by apply (lseg_range _ _ _ _ _ Hok' Hc').
  - intros a Ha. by left.
Qed.

Lemma C_MoveFrom_world dst src st O :
  world_inv st O → dst ∈ dom O → src ∈ dom O →
  step_ok [dst; src] st O (C.run_op (C.MoveFrom dst src) st).
Proof.
  intros Hw Hdst Hsrc.
  destruct (owned_list _ _ _ Hw Hsrc) as (csS & S & HcsS & Hsnz & HS & HrepS & Hok).
  destruct (owned_list _ _ _ Hw Hdst) as (csD & D & HcsD & Hdnz & HD & HrepD & _).
  assert (C.run_op (C.MoveFrom dst src) st =
          Ok tt (mkState (<[dst:=S]> (<[src:=mkList NULL NULL 0]> (lists st)))
                   (nodes st) (ints st))) as Hrun.
  { simpl. erewrite bind_Ok by (by eapply ll_move_from_Ok).
    destruct (decide (dst = src)) as [->|Hne].
    - by erewrite store_list_Ok; [|done|apply lookup_insert_eq].
    - by erewrite store_list_Ok; [|done|simpl; by rewrite lookup_insert_ne]. }
  destruct (decide (dst = src)) as [->|Hne].
  - eapply step_ok_same; [done| |reflexivity]. rewrite Hrun.
    by rewrite insert_insert_eq, insert_id.
  - right. eexists _, (<[src:=[]]> (<[dst:=csS]> O)). split; [exact Hrun|].
    rewrite (insert_insert_ne (lists st) dst src) by done.
    split; [by apply world_transfer|].
    split; [|split; [done|]].
    + rewrite !dom_insert_live; [done|by apply elem_of_dom|].
      rewrite lookup_insert_ne by done. by apply elem_of_dom.
    + intros l Hl. rewrite !lookup_insert_ne; [done| |].
      * intros ->. apply Hl. left.
      * intros ->. apply Hl. right. left.
Qed.

Lemma C_MoveAssign_world dst src st O :
  world_inv st O → dst ∈ dom O → src ∈ dom O →
  step_ok [dst; src] st O (C.run_op (C.MoveAssign dst src) st).
Proof.
  intros Hw Hdst Hsrc.
  destruct (owned_list _ _ _ Hw Hsrc) as (csS & S & HcsS & Hsnz & HS & HrepS & Hok).
  destruct (owned_list _ _ _ Hw Hdst) as (csD & D & HcsD & Hdnz & HD & HrepD & _).
  simpl C.run_op.
  destruct (decide (dst = src)) as [->|Hne].
  - assert (csD = csS) as -> by congruence. assert (D = S) as -> by congruence.
    eapply step_ok_weaken.
    + eapply (step_ok_single _ _ src csS [] _ _ _ []);
        [done..|by eapply ll_move_assign_from_self|done| | | |];
        [apply rep_list_nil|apply frame_outside_free_all|by intros a Ha%elem_of_nil..].
    + intros l Hl. apply elem_of_cons. by right.
  - assert (world_inv (mkState (<[dst:=mkList NULL NULL 0]> (lists st))
                         (free_all (csD.*1) (nodes st)) (ints st))
                      (<[dst:=[]]> O)) as Hw1.
    { eapply (world_step st O dst csD []); [done..|apply rep_list_nil| | |].
      - apply frame_outside_free_all.
      - by intros a Ha%elem_of_nil.
      - by intros a Ha%elem_of_nil. }
    pose proof (world_transfer _ _ dst src csS S Hw1 Hne) as Hw2.
    simpl in Hw2. rewrite insert_insert_eq in Hw2.
    right. eexists _, _. split; [by eapply ll_move_assign_from_Ok|].
    split; [apply Hw2|].
    + rewrite dom_insert_live; [done|by apply elem_of_dom].
    + by rewrite lookup_insert_ne.
    + by rewrite lookup_insert_ne.
    + split; [|split; [done|]].
      * rewrite !dom_insert_live; [done|by apply elem_of_dom| |].
        -- rewrite lookup_insert_eq. by eexists.
        -- rewrite !lookup_insert_ne by done. by apply elem_of_dom.
      * intros l Hl. rewrite !lookup_insert_ne; [done| | |].
        -- intros ->. apply Hl. left.
        -- intros ->. apply Hl. left.
        -- intros ->. apply Hl. right. left.
Qed.

Lemma C_run_op_world o st O :
  world_inv st O → C_op_wf (dom O) (dom (ints st)) o →
  step_ok (C.writes o) st O (C.run_op o st).
Proof.
  intros Hw Hwf. pose proof Hwf as (Hls & _).
  destruct o as [l|l|l|l|l v|l v|l out|l out|l out|l i v|l i|dst src|dst src|dst src];
    try (by apply (C_single_op_world _ l)).
  - apply C_Copy_world; [done|apply Hls..]; simpl; [left|right; left].
  - apply C_MoveFrom_world; [done|apply Hls..]; simpl; [left|right; left].
  - apply C_MoveAssign_world; [done|apply Hls..]; simpl; [left|right; left].
Qed.

(** A whole program keeps the world well-formed. *)
Lemma C_run_world os st O :
  world_inv st O → Forall (C_op_wf (dom O) (dom (ints st))) os →
  step_ok (concat (C.writes <$> os)) st O (C.run os st).
Proof.
  revert st O. induction os as [|o os IH]; intros st O Hw Hwf.
  - eapply step_ok_same; [done| |reflexivity]. by rewrite state_eta.
  - apply Forall_cons in Hwf as [Ho Hos]. simpl C.run.
    destruct (C_run_op_world o st O Hw Ho) as [Hf|(st1 & O1 & Hrun & Hw1 & Hd1 & Hi1 & Hk1)].
    { left. by apply bind_Fault. }
    erewrite bind_Ok by exact Hrun.
    rewrite <- Hd1, <- Hi1 in Hos.
    destruct (IH st1 O1 Hw1 Hos) as [Hf|(st2 & O2 & Hrun2 & Hw2 & Hd2 & Hi2 & Hk2)].
    { by left. }
    right. exists st2, O2. split; [done|]. split; [done|].
    split; [congruence|]. split; [congruence|].
    intros l Hl. simpl in Hl. rewrite Hk2, Hk1; [done| |].
    + intros Hin. apply Hl. apply elem_of_app. by left.
    + intros Hin. apply Hl. apply elem_of_app. by right.
Qed.

(** *** The C++ steps *)

Lemma as_bool_ret_tt (c : M Z) st : (as_bool c;; ret tt) st = (c;; ret tt) st.
Proof. unfold as_bool. rewrite bind_assoc. by apply bind_ext. Qed.

Lemma step_ok_seq ws1 ws2 st O (c1 c2 : M unit) :
  step_ok ws1 st O (c1 st) →
  (∀ st1 O1, world_inv st1 O1 → dom O1 = dom O → dom (ints st1) = dom (ints st) →
     (∀ l, l ∉ ws1 → O1 !! l = O !! l) → step_ok ws2 st1 O1 (c2 st1)) →
  step_ok (ws1 ++ ws2) st O ((c1;; c2) st).
Proof.
  intros [Hf|(st1 & O1 & Hrun & Hw1 & Hd1 & Hi1 & Hk1)] Hc2.
  { left. by apply bind_Fault. }
  erewrite bind_Ok by exact Hrun.
  destruct (Hc2 st1 O1 Hw1 Hd1 Hi1 Hk1) as [Hf|(st2 & O2 & Hrun2 & Hw2 & Hd2 & Hi2 & Hk2)].
  { by left. }
  right. exists st2, O2. split; [done|]. split; [done|].
  split; [congruence|]. split; [congruence|].
  intros l Hl. rewrite Hk2, Hk1; [done| |].
  + intros Hin. apply Hl. apply elem_of_app. by left.
  + intros Hin. apply Hl. apply elem_of_app. by right.
Qed.

Lemma move_ctor_Ok this other st T S :
  this ≠ NULL → other ≠ NULL → this ≠ other →
  lists st !! this = Some T → lists st !! other = Some S →
  Cpp.move_ctor this other st =
    Ok tt (mkState (<[other:=mkList NULL NULL 0]> (<[this:=S]> (lists st)))
             (nodes st) (ints st)).
Proof.
  intros Ht Ho Hne HT HS. unfold Cpp.move_ctor. do 9 step.
  destruct S. state_eq.
Qed.

Lemma move_ctor_self this st T :
  this ≠ NULL → lists st !! this = Some T →
  Cpp.move_ctor this this st =
    Ok tt (mkState (<[this:=mkList NULL NULL 0]> (lists st)) (nodes st) (ints st)).
Proof. intros Ht HT. unfold Cpp.move_ctor. do 9 step. state_eq. Qed.

Lemma move_assign_eq this other st T S ts :
  this ≠ NULL → other ≠ NULL → this ≠ other →
  lists st !! this = Some T → lists st !! other = Some S →
  rep_list (nodes st) T ts →
  Cpp.move_assign this other st = C.ll_move_assign_from this other st.
Proof.
  intros Ht Ho Hne HT HS Hrep.
  erewrite ll_move_assign_from_Ok by done.
  unfold Cpp.move_assign.
  assert ((this =? other) = false) as -> by (by apply Z.eqb_neq).
  cbv beta iota delta [negb]. rewrite bind_Ok with (a := tt)
    (st' := mkState (<[this:=mkList NULL NULL 0]> (lists st)) (free_all (ts.*1) (nodes st)) (ints st)).
  2:{ rewrite clear_eq. by eapply ll_clear_Ok. }
  do 9 step. destruct S. state_eq.
Qed.

Lemma move_assign_self this st :
  Cpp.move_assign this this st = Ok tt st.
Proof. unfold Cpp.move_assign. by rewrite Z.eqb_refl. Qed.

Lemma copy_assign_self this st :
  Cpp.copy_assign this this st = Ok tt st.
Proof. unfold Cpp.copy_assign. by rewrite Z.eqb_refl. Qed.

(** [copyFrom] appends a fresh copy of [other] to [this]; it stops for want
    of memory only when the allocator does not deliver a node per element. *)
Lemma copyFrom_exact this other st T S ts cs :
  this ≠ NULL → other ≠ NULL → this ≠ other →
  lists st !! this = Some T → lists st !! other = Some S →
  rep_list (nodes st) T ts → rep_list (nodes st) S cs → heap_ok (nodes st) →
  (∀ a, a ∈ cs.*1 → a ∉ ts.*1) →
  (Cpp.copyFrom this other st = Fault AllocFailure ∧
   ¬ can_alloc (length cs) (nodes st)) ∨
  ∃ T' h' ts',
    Cpp.copyFrom this other st = Ok tt (mkState (<[this:=T']> (lists st)) h' (ints st)) ∧
    rep_list h' T' (ts ++ ts') ∧ copied (cs.*2) ts' (ts.*1) (nodes st) h'.
Proof.
  intros Ht Ho Hne HT HS HrepT HrepS Hok Hdisj.
  destruct HrepS as (Hc & _).
  destruct (copy_loop_exact (size (nodes st)) this st (head_ S) cs T ts)
    as [[Hf Hno]|(T' & h' & ts' & Hrun & Hrest)]; try done.
  - by eapply chain_length_le_size.
  - left. split; [|done]. unfold Cpp.copyFrom. do 2 step. by rewrite copyFrom_loop_eq.
  - right. exists T', h', ts'. split; [|done].
    unfold Cpp.copyFrom. do 2 step. by rewrite copyFrom_loop_eq.
Qed.

Lemma copyFrom_spec this other st T S ts cs :
  this ≠ NULL → other ≠ NULL → this ≠ other →
  lists st !! this = Some T → lists st !! other = Some S →
  rep_list (nodes st) T ts → rep_list (nodes st) S cs → heap_ok (nodes st) →
  (∀ a, a ∈ cs.*1 → a ∉ ts.*1) →
  Cpp.copyFrom this other st = Fault AllocFailure ∨
  ∃ T' h' ts',
    Cpp.copyFrom this other st = Ok tt (mkState (<[this:=T']> (lists st)) h' (ints st)) ∧
    rep_list h' T' (ts ++ ts') ∧ copied (cs.*2) ts' (ts.*1) (nodes st) h'.
Proof.
  intros Ht Ho Hne HT HS HrepT HrepS Hok Hdisj.
  destruct (copyFrom_exact this other st T S ts cs) as [[Hf _]|Hrun]; try done;
    [by left|by right].
Qed.

Lemma copyFrom_world this other st O :
  world_inv st O → this ∈ dom O → other ∈ dom O → this ≠ other →
  O !! this = Some [] →
  step_ok [this] st O (Cpp.copyFrom this other st).
Proof.
  intros Hw Hthis Hother Hne Hempty.
  destruct (owned_list _ _ _ Hw Hother) as (cs & S & Hcs & Honz & HS & HrepS & Hok).
  destruct (owned_list _ _ _ Hw Hthis) as (ts & T & Hts & Htnz & HT & HrepT & _).
  assert (ts = []) as -> by congruence.
  destruct (copyFrom_spec this other st T S [] cs) as
    [Hf|(T' & h' & ts' & Hrun & Hrep' & Hval & Hfr & Hnew & Hok')]; try done.
  { intros a _ Ha. by apply elem_of_nil in Ha. }
  { by left. }
  eapply (step_ok_single _ _ this [] (ts'.*1) T' h' (ints st) ts'); try done.
  - intros a Ha. split; [by apply Hnew|].
    destruct Hrep' as (Hc' & _). by apply (lseg_range _ _ _ _ _ Hok' Hc').
  - intros a Ha. by left.
Qed.

Lemma step_ok_after ws st O st1 O1 (c1 c2 : M unit) :
  c1 st = Ok tt st1 → world_inv st1 O1 → dom O1 = dom O →
  dom (ints st1) = dom (ints st) → (∀ l, l ∉ ws → O1 !! l = O !! l) →
  step_ok ws st1 O1 (c2 st1) → step_ok ws st O ((c1;; c2) st).
Proof.
  intros Hrun Hw1 Hd1 Hi1 Hk1 [Hf|(st2 & O2 & Hrun2 & Hw2 & Hd2 & Hi2 & Hk2)].
  { left. by erewrite bind_Ok by exact Hrun. }
  right. exists st2, O2. erewrite bind_Ok by exact Hrun.
  split; [done|]. split; [done|]. split; [congruence|]. split; [congruence|].
  intros l Hl. by rewrite Hk2, Hk1.
Qed.

Lemma copy_ctor_self this st T :
  this ≠ NULL → lists st !! this = Some T →
  Cpp.copy_ctor this this st =
    Ok tt (mkState (<[this:=mkList NULL NULL 0]> (lists st)) (nodes st) (ints st)).
Proof.
  intros Ht HT. unfold Cpp.copy_ctor, Cpp.ctor, Cpp.copyFrom. do 5 step.
  match goal with |- Cpp.copyFrom_loop ?f _ _ _ = _ => destruct f end;
    simpl; unfold ret; f_equal; state_eq.
Qed.

Ltac c_wf :=
  split; [|split];
  [ first [ done | intros ? ?; set_solver ]
  | first [ by left | by right | done ]
  | first [ done | simpl; unfold SIZE_MOD; lia ] ].

Lemma Cpp_run_op_world o st O :
  world_inv st O → Cpp_op_wf (dom O) (dom (ints st)) o →
  (Cpp.is_query o = true ∧ Cpp.run_op o st = Fault NullDeref) ∨
  step_ok (Cpp.writes o) st O (Cpp.run_op o st).
Proof.
  intros Hw (Hls & Hout & Hidx).
  assert (∀ l, l ∈ Cpp.lists_of o → ∃ cs L, O !! l = Some cs ∧ l ≠ NULL ∧
            lists st !! l = Some L ∧ rep_list (nodes st) L cs ∧ heap_ok (nodes st)) as Hown.
  { intros l Hl. by apply owned_list, Hls. }
  destruct o as [this|this other|this other|this other|this other|this|this|this|this
                |this v|this v|this out|this|this|this i v|this i|this];
    simpl in Hls, Hout, Hidx, Hown; simpl Cpp.writes; simpl Cpp.run_op.
  - (* Ctor *)
    right. apply (C_single_op_world (C.Init this) this); [done|c_wf|done].
  - (* CopyCtor *)
    right.
    destruct (Hown this) as (ts & T & Hts & Htnz & HT & HrepT & Hok); [left|].
    destruct (decide (this = other)) as [<-|Hne].
    + eapply (step_ok_single _ _ _ _ [] _ _ _ []);
        [done..|by eapply copy_ctor_self|done| | | |];
        [apply rep_list_nil|apply frame_outside_refl|by intros a Ha%elem_of_nil..].
    + eapply (step_ok_after _ _ _ _ (<[this:=[]]> O)); [by eapply ll_init_Ok| | | | |].
      * eapply (world_step st O this ts []); [done..|apply rep_list_nil|apply frame_outside_refl| |];
          by intros a Ha%elem_of_nil.
      * apply dom_insert_live. by eexists.
      * done.
      * intros l Hl. apply lookup_insert_ne. intros ->. apply Hl. left.
      * apply copyFrom_world.
        -- eapply (world_step st O this ts []); [done..|apply rep_list_nil|apply frame_outside_refl| |];
             by intros a Ha%elem_of_nil.
        -- rewrite dom_insert_live by (by eexists). apply Hls. left.
        -- rewrite dom_insert_live by (by eexists). apply Hls. right. left.
        -- done.
        -- apply lookup_insert_eq.
  - (* MoveCtor *)
    right.
    destruct (Hown this) as (ts & T & Hts & Htnz & HT & HrepT & Hok); [left|].
    destruct (Hown other) as (cs & S & Hcs & Honz & HS & HrepS & _); [right; left|].
    destruct (decide (this = other)) as [<-|Hne].
    + eapply step_ok_weaken.
      * eapply (step_ok_single _ _ this ts [] _ _ _ []);
          [done..|by eapply move_ctor_self|done| | | |];
          [apply rep_list_nil|apply frame_outside_refl|by intros a Ha%elem_of_nil..].
      * intros l Hl. apply elem_of_cons. by right.
    + right. eexists _, (<[other:=[]]> (<[this:=cs]> O)).
      split; [by eapply move_ctor_Ok|]. split; [apply world_transfer; try done|].
      { apply Hls. left. }
      split; [|split; [done|]].
      * rewrite !dom_insert_live; [done|by eexists|].
        rewrite lookup_insert_ne by done. by eexists.
      * intros l Hl. rewrite !lookup_insert_ne; [done| |].
        -- intros ->. apply Hl. left.
        -- intros ->. apply Hl. right. left.
  - (* CopyAssign *)
    right.
    destruct (Hown this) as (ts & T & Hts & Htnz & HT & HrepT & Hok); [left|].
    destruct (decide (this = other)) as [<-|Hne].
    + eapply step_ok_same; [done| |reflexivity]. by rewrite state_eta, copy_assign_self.
    + unfold Cpp.copy_assign.
      assert ((this =? other) = false) as -> by (by apply Z.eqb_neq).
      cbv beta iota delta [negb].
      assert (world_inv (mkState (<[this:=mkList NULL NULL 0]> (lists st))
                (free_all (ts.*1) (nodes st)) (ints st)) (<[this:=[]]> O)) as Hw1.
      { eapply (world_step st O this ts []); [done..|apply rep_list_nil| | |];
          [apply frame_outside_free_all|by intros a Ha%elem_of_nil..]. }
      eapply (step_ok_after _ _ _ _ (<[this:=[]]> O)).
      * rewrite clear_eq. by eapply ll_clear_Ok.
      * exact Hw1.
      * apply dom_insert_live. by eexists.
      * done.
      * intros l Hl. apply lookup_insert_ne. intros ->. apply Hl. left.
      * apply copyFrom_world; [exact Hw1| | |done|apply lookup_insert_eq].
        -- rewrite dom_insert_live by (by eexists). apply Hls. left.
        -- rewrite dom_insert_live by (by eexists). apply Hls. right. left.
  - (* MoveAssign *)
    right.
    destruct (Hown this) as (ts & T & Hts & Htnz & HT & HrepT & Hok); [left|].
    destruct (Hown other) as (cs & S & Hcs & Honz & HS & HrepS & _); [right; left|].
    destruct (decide (this = other)) as [<-|Hne].
    + eapply step_ok_same; [done| |reflexivity]. by rewrite state_eta, move_assign_self.
    + erewrite move_assign_eq by done.
      apply (C_MoveAssign_world this other); [done|apply Hls..]; [left|right; left].
  - (* Dtor *)
    right. apply (C_single_op_world (C.Clear this) this); [done|c_wf|done].
  - (* Empty *)
    right. destruct (Hown this) as (ts & T & Hts & Htnz & HT & HrepT & Hok); [left|].
    eapply step_ok_same; [done| |reflexivity].
    rewrite state_eta. eapply bind_ret_tt. by eapply empty_Ok.
  - (* Size *)
    right. apply (C_single_op_world (C.Size this) this); [done|c_wf|done].
  - (* Clear *)
    right. apply (C_single_op_world (C.Clear this) this); [done|c_wf|done].
  - (* PushFront *)
    right. destruct (Hown this) as (ts & T & Hts & Htnz & HT & HrepT & Hok); [left|].
    erewrite push_front_eq by done.
    apply (C_single_op_world (C.PushFront this v) this); [done|c_wf|done].
  - (* PushBack *)
    right. rewrite push_back_eq.
    apply (C_single_op_world (C.PushBack this v) this); [done|c_wf|done].
  - (* PopFront *)
    right. destruct (Hown this) as (ts & T & Hts & Htnz & HT & HrepT & Hok); [left|].
    destruct (Hout out eq_refl) as [Honz Hoin].
    rewrite (bind_eq _ (as_bool (C.ll_pop_front this out)) _ (λ _, ret tt));
      [|eapply pop_front_eq; [done..|by apply elem_of_dom]|done].
    rewrite as_bool_ret_tt.
    apply (C_single_op_world (C.PopFront this out) this); [done|c_wf|done].
  - (* Front *)
    destruct (Hown this) as (ts & T & Hts & Htnz & HT & HrepT & Hok); [left|].
    destruct ts as [|[a v] ts].
    + left. split; [done|]. apply bind_Fault. by eapply front_empty.
    + right. eapply step_ok_same; [done| |reflexivity].
      rewrite state_eta. eapply bind_ret_tt. by eapply front_Ok.
  - (* Back *)
    destruct (Hown this) as (ts & T & Hts & Htnz & HT & HrepT & Hok); [left|].
    destruct ts as [|[t w] ts _] using rev_ind.
    + left. split; [done|]. apply bind_Fault. by eapply back_empty.
    + right. eapply step_ok_same; [done| |reflexivity].
      rewrite state_eta. eapply bind_ret_tt. by eapply back_Ok.
  - (* Insert *)
    right. destruct (Hown this) as (ts & T & Hts & Htnz & HT & HrepT & Hok); [left|].
    rewrite (bind_eq _ (as_bool (C.ll_insert this i v)) _ (λ _, ret tt));
      [|eapply insert_eq; [done..|lia]|done].
    rewrite as_bool_ret_tt.
    apply (C_single_op_world (C.Insert this i v) this); [done|c_wf|done].
  - (* Erase *)
    right. destruct (Hown this) as (ts & T & Hts & Htnz & HT & HrepT & Hok); [left|].
    rewrite (bind_eq _ (as_bool (C.ll_erase this i)) _ (λ _, ret tt));
      [|eapply erase_eq; [done..|lia]|done].
    rewrite as_bool_ret_tt.
    apply (C_single_op_world (C.Erase this i) this); [done|c_wf|done].
  - (* ToVector *)
    right. destruct (Hown this) as (ts & T & Hts & Htnz & HT & HrepT & Hok); [left|].
    eapply step_ok_same; [done| |reflexivity].
    rewrite state_eta. eapply bind_ret_tt. by eapply toVector_Ok.
Qed.

Lemma Cpp_run_world os st O :
  world_inv st O → Forall (Cpp_op_wf (dom O) (dom (ints st))) os →
  (existsb Cpp.is_query os = true ∧ Cpp.run os st = Fault NullDeref) ∨
  step_ok (concat (Cpp.writes <$> os)) st O (Cpp.run os st).
Proof.
  revert st O. induction os as [|o os IH]; intros st O Hw Hwf.
  - right. eapply step_ok_same; [done| |reflexivity]. by rewrite state_eta.
  - apply Forall_cons in Hwf as [Ho Hos]. simpl Cpp.run.
    destruct (Cpp_run_op_world o st O Hw Ho)
      as [[Hq Hf]|[Hf|(st1 & O1 & Hrun & Hw1 & Hd1 & Hi1 & Hk1)]].
    { left. simpl. rewrite Hq. split; [done|]. by apply bind_Fault. }
    { right. left. by apply bind_Fault. }
    erewrite bind_Ok by exact Hrun.
    rewrite <- Hd1, <- Hi1 in Hos.
    destruct (IH st1 O1 Hw1 Hos)
      as [[Hq Hf]|[Hf|(st2 & O2 & Hrun2 & Hw2 & Hd2 & Hi2 & Hk2)]].
    { left. simpl. rewrite Hq. split; [apply orb_true_r|done]. }
    { right. by left. }
    right. right. exists st2, O2. split; [done|]. split; [done|].
    split; [congruence|]. split; [congruence|].
    intros l Hl. simpl in Hl. rewrite Hk2, Hk1; [done| |].
    + intros Hin. apply Hl. apply elem_of_app. by left.
    + intros Hin. apply Hl. apply elem_of_app. by right.
Qed.

(** *** Starting from freshly initialised lists *)

Lemma C_run_app os1 os2 st : C.run (os1 ++ os2) st = (C.run os1;; C.run os2) st.
Proof.
  revert st. induction os1 as [|o os1 IH]; intros st; simpl; [done|].
  rewrite bind_assoc. apply bind_ext. intros [] s. apply IH.
Qed.

Lemma Cpp_run_app os1 os2 st : Cpp.run (os1 ++ os2) st = (Cpp.run os1;; Cpp.run os2) st.
Proof.
  revert st. induction os1 as [|o os1 IH]; intros st; simpl; [done|].
  rewrite bind_assoc. apply bind_ext. intros [] s. apply IH.
Qed.

Lemma Cpp_run_ctors ls st : Cpp.run (Cpp.Ctor <$> ls) st = C.run (C.Init <$> ls) st.
Proof.
  revert st. induction ls as [|l ls IH]; intros st; simpl; [done|].
  apply bind_ext. intros [] s. apply IH.
Qed.

Lemma C_run_inits ls st :
  (∀ l, l ∈ ls → l ≠ NULL ∧ is_Some (lists st !! l)) →
  ∃ st1, C.run (C.Init <$> ls) st = Ok tt st1 ∧
    nodes st1 = nodes st ∧ ints st1 = ints st ∧
    (∀ l, l ∈ ls → lists st1 !! l = Some (mkList NULL NULL 0)) ∧
    (∀ l, l ∉ ls → lists st1 !! l = lists st !! l).
Proof.
  revert st. induction ls as [|l ls IH]; intros st Hls.
  - exists st. repeat split; try done. intros l Hl. by apply elem_of_nil in Hl.
  - destruct (Hls l) as [Hl [L HL]]; [left|].
    destruct (IH (mkState (<[l:=mkList NULL NULL 0]> (lists st)) (nodes st) (ints st)))
      as (st1 & Hrun & Hn & Hi & Hin & Hout).
    { intros l' Hl'. destruct (Hls l') as [? ?]; [by right|]. split; [done|].
      simpl. rewrite lookup_insert. by case_decide. }
    exists st1. split; [|split; [done|split; [done|split]]].
    + simpl. erewrite bind_Ok by (by eapply ll_init_Ok). done.
    + intros l' Hl'. destruct (decide (l' ∈ ls)) as [?|Hni]; [by apply Hin|].
      apply elem_of_cons in Hl' as [->|?]; [|done].
      rewrite Hout by done. apply lookup_insert_eq.
    + intros l' Hl'. rewrite Hout.
      * simpl. apply lookup_insert_ne. intros ->. apply Hl'. left.
      * intros ?. apply Hl'. by right.
Qed.

Lemma fresh_world ls st :
  heap_ok (nodes st) →
  (∀ l, l ∈ ls → l ≠ NULL ∧ lists st !! l = Some (mkList NULL NULL 0)) →
  world_inv st (gset_to_gmap [] (list_to_set ls)).
Proof.
  intros Hok Hls. split; [done|]. split.
  - intros l cs [Hl <-]%lookup_gset_to_gmap_Some.
    apply elem_of_list_to_set in Hl. destruct (Hls l Hl) as [? ?].
    split; [done|]. eexists. split; [done|]. apply rep_list_nil.
  - intros l1 l2 cs1 cs2 _ [_ <-]%lookup_gset_to_gmap_Some _ a Ha.
    by apply elem_of_nil in Ha.
Qed.

Lemma C_run_inits_world ls st :
  heap_ok (nodes st) →
  (∀ l, l ∈ ls → l ≠ NULL ∧ is_Some (lists st !! l)) →
  ∃ st1, C.run (C.Init <$> ls) st = Ok tt st1 ∧
    world_inv st1 (gset_to_gmap [] (list_to_set ls)) ∧ ints st1 = ints st.
Proof.
  intros Hok Hls. destruct (C_run_inits ls st Hls) as (st1 & Hrun & Hn & Hi & Hin & _).
  exists st1. split; [done|]. split; [|done].
  apply fresh_world; [by rewrite Hn|].
  intros l Hl. split; [by apply Hls|by apply Hin].
Qed.

(** *** Copies and moves, with the cells they produce *)

Lemma world_seq st O l cs :
  world_inv st O → O !! l = Some cs →
  C_seq l st = Some (cs.*2) ∧ Cpp_seq l st = Some (cs.*2).
Proof.
  intros (_ & Hown & _) Hcs. destruct (Hown _ _ Hcs) as (Hl & L & HL & Hrep).
  unfold C_seq, Cpp_seq.
  by erewrite print_list_Ok, toVector_Ok by done.
Qed.

Lemma copied_world st O dst L' h' cs' vs :
  world_inv st O → dst ≠ NULL → rep_list h' L' cs' → copied vs cs' [] (nodes st) h' →
  world_inv (mkState (<[dst:=L']> (lists st)) h' (ints st)) (<[dst:=cs']> O).
Proof.
  intros Hw Hdst Hrep' (Hval & Hfr & Hnew & Hok').
  eapply (world_update st); [done|done|done|done|done|].
  simpl. intros l2 cs2 Hne Hcs2 a Ha.
  destruct Hw as (_ & Hown & _). destruct (Hown _ _ Hcs2) as (_ & L2 & _ & Hc2 & _).
  destruct (lseg_live _ _ _ _ _ Hc2 Ha) as [_ [n Hn]].
  assert (a ∉ cs'.*1) as Hni.
  { intros Hin. apply Hnew in Hin. congruence. }
  split; [|done]. apply Hfr. by rewrite app_nil_r.
Qed.

(** [dst = ll_copy(&src)] into any list object, raw storage included: when
    the allocator delivers a node per element the call runs to its end, and
    [dst] then holds the values of [src] on nodes that were not live. *)
Lemma C_Copy_spec dst src st O csS Ld :
  world_inv st O → O !! src = Some csS → dst ≠ NULL → lists st !! dst = Some Ld →
  can_alloc (length csS) (nodes st) →
  ∃ st1 cs', C.run_op (C.Copy dst src) st = Ok tt st1 ∧ cs'.*2 = csS.*2 ∧
    world_inv st1 (<[dst:=cs']> O) ∧ ints st1 = ints st ∧
    ∀ x, x ∈ cs'.*1 → nodes st !! x = None.
Proof.
  intros Hw HcsS Hdst HLd Hcan.
  assert (src ∈ dom O) as Hsrc by (apply elem_of_dom; by eexists).
  destruct (owned_list _ _ _ Hw Hsrc) as (csS' & S & HcsS' & Hsnz & HS & HrepS & Hok).
  assert (csS' = csS) as -> by congruence.
  simpl C.run_op.
  destruct (ll_copy_exact src st S csS) as
    [[_ Hno]|(Lc & h' & cs' & Hrun & Hrep' & Hcopied)]; try done.
  exists (mkState (<[dst:=Lc]> (lists st)) h' (ints st)), cs'.
  split; [|split; [by destruct Hcopied|split; [by eapply copied_world|split; [done|]]]].
  - erewrite bind_Ok by exact Hrun. by erewrite store_list_Ok.
  - by destruct Hcopied as (_ & _ & Hnew & _).
Qed.

(** Copy construction of any list object, raw storage included. *)
Lemma Cpp_CopyCtor_spec this other st O cs T :
  world_inv st O → O !! other = Some cs → this ≠ NULL → this ≠ other →
  lists st !! this = Some T → can_alloc (length cs) (nodes st) →
  ∃ st1 cs', Cpp.run_op (Cpp.CopyCtor this other) st = Ok tt st1 ∧ cs'.*2 = cs.*2 ∧
    world_inv st1 (<[this:=cs']> O) ∧ ints st1 = ints st ∧
    ∀ x, x ∈ cs'.*1 → nodes st !! x = None.
Proof.
  intros Hw Hcs Hthis Hne HT Hcan.
  assert (other ∈ dom O) as Hother by (apply elem_of_dom; by eexists).
  destruct (owned_list _ _ _ Hw Hother) as (cs0 & S & Hcs0 & Honz & HS & HrepS & Hok).
  assert (cs0 = cs) as -> by congruence.
  set (st0 := mkState (<[this:=mkList NULL NULL 0]> (lists st)) (nodes st) (ints st)).
  simpl Cpp.run_op. unfold Cpp.copy_ctor.
  erewrite bind_Ok by (by eapply ll_init_Ok). fold st0.
  destruct (copyFrom_exact this other st0 (mkList NULL NULL 0) S [] cs) as
    [[_ Hno]|(T' & h' & ts' & Hrun & Hrep' & Hcopied)]; try done.
  { simpl. apply lookup_insert_eq. }
  { simpl. by rewrite lookup_insert_ne. }
  { intros a _ Ha. by apply elem_of_nil in Ha. }
  exists (mkState (<[this:=T']> (lists st0)) h' (ints st0)), ts'.
  split; [done|]. split; [by destruct Hcopied|]. split; [|split; [done|]].
  - simpl. rewrite insert_insert_eq. by eapply copied_world.
  - by destruct Hcopied as (_ & _ & Hnew & _).
Qed.

Lemma C_MoveFrom_spec dst src st O cs :
  world_inv st O → dst ∈ dom O → O !! src = Some cs → dst ≠ src →
  ∃ S, lists st !! src = Some S ∧
    C.run_op (C.MoveFrom dst src) st =
      Ok tt (mkState (<[src:=mkList NULL NULL 0]> (<[dst:=S]> (lists st)))
               (nodes st) (ints st)) ∧
    world_inv (mkState (<[src:=mkList NULL NULL 0]> (<[dst:=S]> (lists st)))
                 (nodes st) (ints st))
              (<[src:=[]]> (<[dst:=cs]> O)).
Proof.
  intros Hw Hdst Hcs Hne.
  assert (src ∈ dom O) as Hsrc by (apply elem_of_dom; by eexists).
  destruct (owned_list _ _ _ Hw Hsrc) as (cs0 & S & Hcs0 & Hsnz & HS & HrepS & Hok).
  destruct (owned_list _ _ _ Hw Hdst) as (csD & D & HcsD & Hdnz & HD & HrepD & _).
  exists S. split; [done|]. split; [|by apply world_transfer].
  simpl. erewrite bind_Ok by (by eapply ll_move_from_Ok).
  erewrite store_list_Ok; [|done|simpl; by rewrite lookup_insert_ne].
  f_equal. unfold with_lists. simpl. by rewrite (insert_insert_ne (lists st) dst src).
Qed.

Lemma Cpp_MoveCtor_spec this other st O cs :
  world_inv st O → this ∈ dom O → O !! other = Some cs → this ≠ other →
  ∃ S, lists st !! other = Some S ∧
    Cpp.run_op (Cpp.MoveCtor this other) st =
      Ok tt (mkState (<[other:=mkList NULL NULL 0]> (<[this:=S]> (lists st)))
               (nodes st) (ints st)) ∧
    world_inv (mkState (<[other:=mkList NULL NULL 0]> (<[this:=S]> (lists st)))
                 (nodes st) (ints st))
              (<[other:=[]]> (<[this:=cs]> O)).
Proof.
  intros Hw Hthis Hcs Hne.
  assert (other ∈ dom O) as Hother by (apply elem_of_dom; by eexists).
  destruct (owned_list _ _ _ Hw Hother) as (cs0 & S & Hcs0 & Honz & HS & HrepS & Hok).
  destruct (owned_list _ _ _ Hw Hthis) as (ts & T & Hts & Htnz & HT & HrepT & _).
  exists S. split; [done|]. split; [|by apply world_transfer].
  simpl. by eapply move_ctor_Ok.
Qed.

(** *** Steps that run whenever the allocator has a node

    A step other than a copy allocates at most one node, so it is lost for
    want of memory only when the allocator has nothing to hand out in the
    state it starts in. *)

Lemma C_run_op_Ok o st O :
  world_inv st O → C_op_wf (dom O) (dom (ints st)) o →
  (∀ dst src, o ≠ C.Copy dst src) → is_Some (alloc (nodes st)) →
  ∃ st', C.run_op o st = Ok tt st'.
Proof.
  intros Hw (Hls & Hout & Hidx) Hnc [[p j] Ha].
  assert (∀ l, l ∈ C.lists_of o → ∃ cs L, O !! l = Some cs ∧ l ≠ NULL ∧
            lists st !! l = Some L ∧ rep_list (nodes st) L cs ∧ heap_ok (nodes st)) as Hown.
  { intros l Hl. by apply owned_list, Hls. }
  apply out_ok_dom in Hout.
  destruct o as [l|l|l|l|l v|l v|l out|l out|l out|l i v|l i|dst src|dst src|dst src];
    simpl in Hls, Hout, Hidx, Hown; simpl C.run_op;
    try (destruct (Hown l) as (cs & L & Hcs & Hl & HL & Hrep & Hok); [left|]).
  - eexists. by eapply ll_init_Ok.
  - eexists. by eapply ll_clear_Ok.
  - eexists. eapply bind_ret_tt. by eapply ll_empty_Ok.
  - eexists. eapply bind_ret_tt. by eapply ll_size_Ok.
  - destruct (ll_push_front_Ok l v st L cs p j) as (Hrun & _); try done. by eexists.
  - destruct (ll_push_back_Ok l v st L cs p j) as (Hrun & _); try done. by eexists.
  - destruct cs as [|[a v] cs].
    + eexists. eapply bind_ret_tt. by eapply ll_pop_front_empty.
    + destruct (ll_pop_front_Ok l out st L a v cs) as (L' & Hrun & _); try done.
      eexists. by eapply bind_ret_tt.
  - destruct cs as [|[a v] cs].
    + eexists. eapply bind_ret_tt. by eapply ll_front_empty.
    + eexists. eapply bind_ret_tt. by eapply ll_front_Ok.
  - destruct cs as [|[t w] cs _] using rev_ind.
    + eexists. eapply bind_ret_tt. by eapply ll_back_empty.
    + eexists. eapply bind_ret_tt. by eapply ll_back_Ok.
  - pose proof Hrep as (_ & _ & Hs).
    destruct (Z_lt_le_dec (size_ L) i) as [Hlt|Hle].
    + eexists. eapply bind_ret_tt. by eapply ll_insert_reject.
    + destruct (ll_insert_Ok l i v st L cs p j) as (L' & h' & Hrun & _); [done..|lia|].
      eexists. by eapply bind_ret_tt.
  - pose proof Hrep as (_ & _ & Hs).
    destruct (Z_lt_le_dec i (size_ L)) as [Hlt|Hle].
    + destruct (ll_erase_Ok l i st L cs) as (L' & h' & Hrun & _); [done..|lia|].
      eexists. by eapply bind_ret_tt.
    + eexists. eapply bind_ret_tt. by eapply ll_erase_reject.
  - by destruct (Hnc dst src).
  - destruct (Hown dst) as (csD & D & HcsD & Hdnz & HD & HrepD & _); [left|].
    destruct (Hown src) as (csS & S & HcsS & Hsnz & HS & HrepS & _); [right; left|].
    erewrite bind_Ok by (by eapply ll_move_from_Ok).
    destruct (decide (dst = src)) as [->|Hne]; eexists.
    + by erewrite store_list_Ok; [|done|apply lookup_insert_eq].
    + by erewrite store_list_Ok; [|done|simpl; by rewrite lookup_insert_ne].
  - destruct (Hown dst) as (csD & D & HcsD & Hdnz & HD & HrepD & _); [left|].
    destruct (Hown src) as (csS & S & HcsS & Hsnz & HS & HrepS & _); [right; left|].
    destruct (decide (dst = src)) as [->|Hne]; eexists.
    + by eapply ll_move_assign_from_self.
    + by eapply ll_move_assign_from_Ok.
Qed.

Lemma Cpp_run_op_Ok o st O :
  world_inv st O → Cpp_op_wf (dom O) (dom (ints st)) o →
  (∀ this other, o ≠ Cpp.CopyCtor this other ∧ o ≠ Cpp.CopyAssign this other) →
  Cpp.is_query o = false → is_Some (alloc (nodes st)) →
  ∃ st', Cpp.run_op o st = Ok tt st'.
Proof.
  intros Hw (Hls & Hout & Hidx) Hnc Hnq Halloc.
  assert (∀ l, l ∈ Cpp.lists_of o → ∃ cs L, O !! l = Some cs ∧ l ≠ NULL ∧
            lists st !! l = Some L ∧ rep_list (nodes st) L cs ∧ heap_ok (nodes st)) as Hown.
  { intros l Hl. by apply owned_list, Hls. }
  assert (∀ oc, C_op_wf (dom O) (dom (ints st)) oc → (∀ d s, oc ≠ C.Copy d s) →
            ∃ st', C.run_op oc st = Ok tt st') as HC.
  { intros oc Hwf Hn. by eapply C_run_op_Ok. }
  destruct o as [this|this other|this other|this other|this other|this|this|this|this
                |this v|this v|this out|this|this|this i v|this i|this];
    simpl in Hls, Hout, Hidx, Hown, Hnq; simpl Cpp.run_op; try done.
  - (* Ctor *) apply (HC (C.Init this)); [c_wf|done].
  - (* CopyCtor *) by destruct (Hnc this other) as [? _].
  - (* MoveCtor *)
    destruct (Hown this) as (ts & T & Hts & Htnz & HT & HrepT & Hok); [left|].
    destruct (Hown other) as (cs & S & Hcs & Honz & HS & HrepS & _); [right; left|].
    destruct (decide (this = other)) as [<-|Hne]; eexists.
    + by eapply move_ctor_self.
    + by eapply move_ctor_Ok.
  - (* CopyAssign *) by destruct (Hnc this other) as [_ ?].
  - (* MoveAssign *)
    destruct (Hown this) as (ts & T & Hts & Htnz & HT & HrepT & Hok); [left|].
    destruct (Hown other) as (cs & S & Hcs & Honz & HS & HrepS & _); [right; left|].
    destruct (decide (this = other)) as [<-|Hne].
    + eexists. apply move_assign_self.
    + erewrite move_assign_eq by done.
      apply (HC (C.MoveAssign this other)); [c_wf|done].
  - (* Dtor *) unfold Cpp.dtor. rewrite clear_eq. apply (HC (C.Clear this)); [c_wf|done].
  - (* Empty *)
    destruct (Hown this) as (ts & T & Hts & Htnz & HT & HrepT & Hok); [left|].
    eexists. eapply bind_ret_tt. by eapply empty_Ok.
  - (* Size *) apply (HC (C.Size this)); [c_wf|done].
  - (* Clear *) rewrite clear_eq. apply (HC (C.Clear this)); [c_wf|done].
  - (* PushFront *)
    destruct (Hown this) as (ts & T & Hts & Htnz & HT & HrepT & Hok); [left|].
    erewrite push_front_eq by done. apply (HC (C.PushFront this v)); [c_wf|done].
  - (* PushBack *) rewrite push_back_eq. apply (HC (C.PushBack this v)); [c_wf|done].
  - (* PopFront *)
    destruct (Hown this) as (ts & T & Hts & Htnz & HT & HrepT & Hok); [left|].
    destruct (Hout out eq_refl) as [Honz Hoin].
    rewrite (bind_eq _ (as_bool (C.ll_pop_front this out)) _ (λ _, ret tt));
      [|eapply pop_front_eq; [done..|by apply elem_of_dom]|done].
    rewrite as_bool_ret_tt. apply (HC (C.PopFront this out)); [c_wf|done].
  - (* Insert *)
    destruct (Hown this) as (ts & T & Hts & Htnz & HT & HrepT & Hok); [left|].
    rewrite (bind_eq _ (as_bool (C.ll_insert this i v)) _ (λ _, ret tt));
      [|eapply insert_eq; [done..|lia]|done].
    rewrite as_bool_ret_tt. apply (HC (C.Insert this i v)); [c_wf|done].
  - (* Erase *)
    destruct (Hown this) as (ts & T & Hts & Htnz & HT & HrepT & Hok); [left|].
    rewrite (bind_eq _ (as_bool (C.ll_erase this i)) _ (λ _, ret tt));
      [|eapply erase_eq; [done..|lia]|done].
    rewrite as_bool_ret_tt. apply (HC (C.Erase this i)); [c_wf|done].
  - (* ToVector *)
    destruct (Hown this) as (ts & T & Hts & Htnz & HT & HrepT & Hok); [left|].
    eexists. eapply bind_ret_tt. by eapply toVector_Ok.
Qed.

(** A query either reads the end of a list that has one, or is [front()] or
    [back()] of an empty list. *)
Lemma Cpp_query_world o st O :
  world_inv st O → Cpp_op_wf (dom O) (dom (ints st)) o → Cpp.is_query o = true →
  (∃ l, (o = Cpp.Front l ∨ o = Cpp.Back l) ∧ O !! l = Some [] ∧
     Cpp.run_op o st = Fault NullDeref) ∨
  Cpp.run_op o st = Ok tt st.
Proof.
  intros Hw (Hls & _ & _) Hq.
  assert (∀ l, l ∈ Cpp.lists_of o → ∃ cs L, O !! l = Some cs ∧ l ≠ NULL ∧
            lists st !! l = Some L ∧ rep_list (nodes st) L cs ∧ heap_ok (nodes st)) as Hown.
  { intros l Hl. by apply owned_list, Hls. }
  destruct o; try done; simpl in Hown; simpl Cpp.run_op.
  - destruct (Hown this) as (ts & T & Hts & Htnz & HT & HrepT & Hok); [left|].
    destruct ts as [|[a v] ts].
    + left. exists this. split; [by left|]. split; [done|].
      apply bind_Fault. by eapply front_empty.
    + right. eapply bind_ret_tt. by eapply front_Ok.
  - destruct (Hown this) as (ts & T & Hts & Htnz & HT & HrepT & Hok); [left|].
    destruct ts as [|[t w] ts _] using rev_ind.
    + left. exists this. split; [by right|]. split; [done|].
      apply bind_Fault. by eapply back_empty.
    + right. eapply bind_ret_tt. by eapply back_Ok.
Qed.

(** Where a program stops: a C program that does not run to its end stops at
    a copy or at a step that needs a node when the allocator has none. *)
Lemma C_run_outcome os st O :
  world_inv st O → Forall (C_op_wf (dom O) (dom (ints st))) os →
  (∃ st2 O2, C.run os st = Ok tt st2 ∧ world_inv st2 O2 ∧
     ∀ l, l ∉ concat (C.writes <$> os) → O2 !! l = O !! l) ∨
  (∃ os1 o os2 st2 O2, os = os1 ++ o :: os2 ∧ C.run os1 st = Ok tt st2 ∧
     world_inv st2 O2 ∧ (∀ l, l ∉ concat (C.writes <$> os1) → O2 !! l = O !! l) ∧
     C.run_op o st2 = Fault AllocFailure ∧
     ((∃ d s, o = C.Copy d s) ∨ alloc (nodes st2) = None)).
Proof.
  revert st O. induction os as [|o os IH]; intros st O Hw Hwf.
  { left. by exists st, O. }
  apply Forall_cons in Hwf as [Ho Hos].
  destruct (C_run_op_world o st O Hw Ho) as [Hf|(st1 & O1 & Hrun1 & Hw1 & Hd1 & Hi1 & Hk1)].
  - right. exists [], o, os, st, O. split; [done|]. split; [done|].
    split; [done|]. split; [done|]. split; [done|].
    assert ((∃ d s, o = C.Copy d s) ∨ (∀ d s, o ≠ C.Copy d s)) as [Hc|Hn].
    { destruct o; try (by right); left; eauto. }
    + by left.
    + right. destruct (alloc (nodes st)) as [pj|] eqn:Hal; [|done].
      destruct (C_run_op_Ok o st O Hw Ho Hn) as [st' Hok]; [by rewrite Hal|congruence].
  - rewrite <- Hd1, <- Hi1 in Hos.
    destruct (IH st1 O1 Hw1 Hos) as
      [(st2 & O2 & Hr & Hw2 & Hk2)
      |(os1 & o' & os2 & st2 & O2 & -> & Hr & Hw2 & Hk2 & Hf & Hwhy)].
    + left. exists st2, O2. split; [simpl; by erewrite bind_Ok|]. split; [done|].
      intros l Hl. simpl in Hl. rewrite Hk2, Hk1; [done| |].
      * intros Hin. apply Hl. apply elem_of_app. by left.
      * intros Hin. apply Hl. apply elem_of_app. by right.
    + right. exists (o :: os1), o', os2, st2, O2. split; [done|].
      split; [simpl; by erewrite bind_Ok|]. split; [done|]. split; [|done].
      intros l Hl. simpl in Hl. rewrite Hk2, Hk1; [done| |].
      * intros Hin. apply Hl. apply elem_of_app. by left.
      * intros Hin. apply Hl. apply elem_of_app. by right.
Qed.

(** A C++ program that does not run to its end stops at [front()] or
    [back()] of an empty list, at a copy, or at a step that needs a node when
    the allocator has none. *)
Lemma Cpp_run_outcome os st O :
  world_inv st O → Forall (Cpp_op_wf (dom O) (dom (ints st))) os →
  (∃ st2 O2, Cpp.run os st = Ok tt st2 ∧ world_inv st2 O2 ∧
     ∀ l, l ∉ concat (Cpp.writes <$> os) → O2 !! l = O !! l) ∨
  (∃ os1 o os2 st2 O2, os = os1 ++ o :: os2 ∧ Cpp.run os1 st = Ok tt st2 ∧
     world_inv st2 O2 ∧ (∀ l, l ∉ concat (Cpp.writes <$> os1) → O2 !! l = O !! l) ∧
     ((∃ l, (o = Cpp.Front l ∨ o = Cpp.Back l) ∧ O2 !! l = Some [] ∧
         Cpp.run_op o st2 = Fault NullDeref) ∨
      (Cpp.run_op o st2 = Fault AllocFailure ∧
       ((∃ t s, o = Cpp.CopyCtor t s ∨ o = Cpp.CopyAssign t s) ∨
        alloc (nodes st2) = None)))).
Proof.
  revert st O. induction os as [|o os IH]; intros st O Hw Hwf.
  { left. by exists st, O. }
  apply Forall_cons in Hwf as [Ho Hos].
  destruct (Cpp_run_op_world o st O Hw Ho)
    as [[Hq Hf]|[Hf|(st1 & O1 & Hrun1 & Hw1 & Hd1 & Hi1 & Hk1)]].
  - right. exists [], o, os, st, O. split; [done|]. split; [done|].
    split; [done|]. split; [done|]. left.
    destruct (Cpp_query_world o st O Hw Ho Hq) as [Hl|Hok]; [done|congruence].
  - right. exists [], o, os, st, O. split; [done|]. split; [done|].
    split; [done|]. split; [done|]. right. split; [done|].
    destruct (Cpp.is_query o) eqn:Hq.
    { destruct (Cpp_query_world o st O Hw Ho Hq) as [(l & _ & _ & Hl)|Hok]; congruence. }
    assert ((∃ t s, o = Cpp.CopyCtor t s ∨ o = Cpp.CopyAssign t s) ∨
            (∀ t s, o ≠ Cpp.CopyCtor t s ∧ o ≠ Cpp.CopyAssign t s)) as [Hc|Hn].
    { destruct o; try (by right); left; eauto. }
    + by left.
    + right. destruct (alloc (nodes st)) as [pj|] eqn:Hal; [|done].
      destruct (Cpp_run_op_Ok o st O Hw Ho Hn Hq) as [st' Hok]; [by rewrite Hal|congruence].
  - rewrite <- Hd1, <- Hi1 in Hos.
    destruct (IH st1 O1 Hw1 Hos) as
      [(st2 & O2 & Hr & Hw2 & Hk2)
      |(os1 & o' & os2 & st2 & O2 & -> & Hr & Hw2 & Hk2 & Hwhy)].
    + left. exists st2, O2. split; [simpl; by erewrite bind_Ok|]. split; [done|].
      intros l Hl. simpl in Hl. rewrite Hk2, Hk1; [done| |].
      * intros Hin. apply Hl. apply elem_of_app. by left.
      * intros Hin. apply Hl. apply elem_of_app. by right.
    + right. exists (o :: os1), o', os2, st2, O2. split; [done|].
      split; [simpl; by erewrite bind_Ok|]. split; [done|]. split; [|done].
      intros l Hl. simpl in Hl. rewrite Hk2, Hk1; [done| |].
      * intros Hin. apply Hl. apply elem_of_app. by left.
      * intros Hin. apply Hl. apply elem_of_app. by right.
Qed.

End WorldSteps.

(** * The claims *)

Section Claims.
Context `{Allocator}.
Implicit Types (st : state) (L : LinkedList) (cs : list cell)
  (O : gmap Z (list cell)).

(** C1. Starting from freshly initialised list objects [ls], every program
    over the public interface either runs to the end, and then every list
    satisfies the structural invariant (size is the number of nodes reachable
    from head, the tail node has no successor, size is 0 exactly when head is
    null and exactly when tail is null), or stops because the allocator is
    exhausted; a C++ program may also stop at a [front()]/[back()] on an
    empty list. *)
Theorem C1_invariant_preservation (ls : list Z) st (os : list C.op) (os' : list Cpp.op) :
  heap_ok (nodes st) →
  (∀ l, l ∈ ls → l ≠ NULL ∧ is_Some (lists st !! l)) →
  Forall (C_op_wf (list_to_set ls) (dom (ints st))) os →
  Forall (Cpp_op_wf (list_to_set ls) (dom (ints st))) os' →
  (C.run ((C.Init <$> ls) ++ os) st = Fault AllocFailure ∨
   ∃ st', C.run ((C.Init <$> ls) ++ os) st = Ok tt st' ∧
     ∀ l, l ∈ ls → structural_invariant st' l) ∧
  ((existsb Cpp.is_query os' = true ∧
    Cpp.run ((Cpp.Ctor <$> ls) ++ os') st = Fault NullDeref) ∨
   Cpp.run ((Cpp.Ctor <$> ls) ++ os') st = Fault AllocFailure ∨
   ∃ st', Cpp.run ((Cpp.Ctor <$> ls) ++ os') st = Ok tt st' ∧
     ∀ l, l ∈ ls → structural_invariant st' l).
Proof.
  intros Hok Hls Hos Hos'.
  destruct (C_run_inits_world ls st Hok Hls) as (st1 & Hrun & Hw & Hi).
  assert (dom (gset_to_gmap ([] : list cell) (list_to_set ls)) = list_to_set ls) as Hdom
    by apply dom_gset_to_gmap.
  split.
  - rewrite C_run_app. erewrite bind_Ok by exact Hrun.
    rewrite <- Hdom, <- Hi in Hos.
    destruct (C_run_world os st1 _ Hw Hos) as [Hf|(st2 & O2 & Hrun2 & Hw2 & Hd2 & _)].
    { by left. }
    right. exists st2. split; [done|]. intros l Hl.
    eapply world_inv_structural; [exact Hw2|].
    apply elem_of_dom. rewrite Hd2, Hdom. by apply elem_of_list_to_set.
  - rewrite Cpp_run_app. rewrite <- Cpp_run_ctors in Hrun.
    erewrite bind_Ok by exact Hrun.
    rewrite <- Hdom, <- Hi in Hos'.
    destruct (Cpp_run_world os' st1 _ Hw Hos')
      as [Hq|[Hf|(st2 & O2 & Hrun2 & Hw2 & Hd2 & _)]].
    { by left. }
    { right. by left. }
    right. right. exists st2. split; [done|]. intros l Hl.
    eapply world_inv_structural; [exact Hw2|].
    apply elem_of_dom. rewrite Hd2, Hdom. by apply elem_of_list_to_set.
Qed.

Lemma push_on_empty l w st L :
  l ≠ NULL → lists st !! l = Some L → rep_list (nodes st) L [] → heap_ok (nodes st) →
  push_makes_single l w st.
Proof.
  intros Hl HL Hrep Hok p j Ha push Hpush.
  destruct (ll_push_front_Ok l w st L [] p j) as (Hf & Hrf & _); try done.
  destruct (ll_push_back_Ok l w st L [] p j) as (Hb & Hrb & _); try done.
  destruct Hrep as (Hh & Ht & Hs). simpl in Hh. change (last_addr []) with NULL in Ht.
  simpl in Hs. cbv zeta in Hf, Hb, Hrf, Hrb.
  rewrite Ht, Hs, Hh, Z.eqb_refl in Hf, Hrf. rewrite Ht, Hs, Hh, Z.eqb_refl in Hb, Hrb.
  change (wrap (0 + 1)) with 1 in *.
  assert (alter (set_next p) NULL (<[p:=mkNode w NULL]> (nodes st)) =
          <[p:=mkNode w NULL]> (nodes st)) as Halt.
  { apply alter_not_live. pose proof (alloc_range _ _ _ Ha).
    rewrite lookup_insert_ne by (unfold NULL; lia).
    destruct (nodes st !! NULL) as [n|] eqn:E; [|done].
    apply Hok in E. unfold NULL in E. lia. }
  rewrite Halt in Hb.
  assert (∀ st', push st = Ok tt st' → push st = Ok tt st') as _ by done.
  repeat (apply elem_of_cons in Hpush as [->|Hpush]);
    [| |erewrite push_front_eq by done|rewrite push_back_eq|by apply elem_of_nil in Hpush];
    eexists; (split; [eassumption|]); split; simpl; try apply lookup_insert_eq.
Qed.

(** C2. Removing the only element of a one-element list, by [pop_front] or
    by [erase(0)] (index 0 is also the tail index), leaves [head_] and
    [tail_] null and [size_] 0; one push on that list, when the allocator
    delivers, gives a one-element list whose head and tail are the same
    node. *)
Theorem C2_empty_transition l out st L a v w :
  l ≠ NULL → lists st !! l = Some L → rep_list (nodes st) L [(a, v)] →
  heap_ok (nodes st) → out ≠ NULL → is_Some (ints st !! out) →
  (∃ st1, C.ll_pop_front l out st = Ok 1 st1 ∧ is_reset l st1 ∧ push_makes_single l w st1) ∧
  (∃ st1, C.ll_erase l 0 st = Ok 1 st1 ∧ is_reset l st1 ∧ push_makes_single l w st1) ∧
  (∃ st1, Cpp.pop_front l out st = Ok true st1 ∧ is_reset l st1 ∧ push_makes_single l w st1) ∧
  (∃ st1, Cpp.erase l 0 st = Ok true st1 ∧ is_reset l st1 ∧ push_makes_single l w st1).
Proof.
  intros Hl HL Hrep Hok Hout Hint.
  destruct (ll_pop_front_Ok l out st L a v []) as (L1 & Hpop & Hrep1 & _);
    [done..|by right|].
  destruct (ll_erase_Ok l 0 st L [(a, v)]) as (L2 & h2 & Hers & Hrep2 & Hfr2);
    [done..|simpl; lia|].
  change (delete (Z.to_nat 0) [(a, v)]) with ([] : list cell) in Hrep2.
  assert (∀ L' h', rep_list h' L' [] → L' = mkList NULL NULL 0) as Hnil.
  { intros [h' t' s'] ? (Hh & Ht & Hs). simpl in *. by subst. }
  pose proof (Hnil _ _ Hrep1) as ->. pose proof (Hnil _ _ Hrep2) as ->.
  assert (heap_ok h2) as Hok2.
  { eapply heap_ok_frame; [exact Hok|exact Hfr2|].
    intros b Hb. destruct Hrep as (Hc & _). by apply (lseg_range _ _ _ _ _ Hok Hc). }
  assert (∀ h' im', heap_ok h' →
            is_reset l (mkState (<[l:=mkList NULL NULL 0]> (lists st)) h' im') ∧
            push_makes_single l w
              (mkState (<[l:=mkList NULL NULL 0]> (lists st)) h' im')) as Hafter.
  { intros h' im' Hok'. split; [apply lookup_insert_eq|].
    eapply push_on_empty; [done|apply lookup_insert_eq|apply rep_list_nil|done]. }
  pose proof (heap_ok_delete _ a Hok) as Hok1.
  split; [|split; [|split]].
  - eexists. split; [exact Hpop|]. by apply Hafter.
  - eexists. split; [exact Hers|]. by apply Hafter.
  - eexists. split.
    { rewrite (pop_front_eq l out st L [(a, v)]) by done.
      by erewrite as_bool_Ok by exact Hpop. }
    by apply Hafter.
  - eexists. split.
    { rewrite (erase_eq l 0 st L [(a, v)]) by done.
      by erewrite as_bool_Ok by exact Hers. }
    by apply Hafter.
Qed.

(** C3. On a list of [n] elements: [insert(n, v)] succeeds (when the
    allocator delivers) and appends [v] after the last element; [insert] at
    any index above [n] fails and changes nothing; [erase] at any index from
    [n] up, so any [erase] on an empty list, fails and changes nothing. *)
Theorem C3_index_boundaries l v st L cs :
  l ≠ NULL → lists st !! l = Some L → rep_list (nodes st) L cs → heap_ok (nodes st) →
  let n := Z.of_nat (length cs) in
  (∀ p j, alloc (nodes st) = Some (p, j) →
     ∃ st' L', C.ll_insert l n v st = Ok 1 st' ∧ Cpp.insert l n v st = Ok true st' ∧
       lists st' !! l = Some L' ∧ rep_list (nodes st') L' (cs ++ [(p, v)])) ∧
  (∀ i, n < i →
     C.ll_insert l i v st = Ok 0 st ∧ Cpp.insert l i v st = Ok false st) ∧
  (∀ i, n <= i →
     C.ll_erase l i st = Ok 0 st ∧ Cpp.erase l i st = Ok false st).
Proof.
  intros Hl HL Hrep Hok n. pose proof Hrep as (_ & _ & Hs).
  split; [|split].
  - intros p j Ha.
    destruct (ll_insert_Ok l n v st L cs p j) as (L' & h' & Hrun & Hrep' & _);
      [done..|lia|].
    unfold n in Hrep'. rewrite Nat2Z.id, take_ge, drop_ge in Hrep' by lia.
    eexists _, L'. split; [exact Hrun|]. split; [|split; [apply lookup_insert_eq|done]].
    rewrite (insert_eq l n v st L cs) by (done || lia).
    by erewrite as_bool_Ok by exact Hrun.
  - intros i Hi.
    assert (C.ll_insert l i v st = Ok 0 st) as Hrun by (eapply ll_insert_reject; [done..|lia]).
    split; [done|].
    rewrite (insert_eq l i v st L cs) by (done || lia).
    by erewrite as_bool_Ok by exact Hrun.
  - intros i Hi.
    assert (C.ll_erase l i st = Ok 0 st) as Hrun by (eapply ll_erase_reject; [done..|lia]).
    split; [done|].
    rewrite (erase_eq l i st L cs) by (done || lia).
    by erewrite as_bool_Ok by exact Hrun.
Qed.

(** C4. [pop_front] on an empty list reports failure and changes nothing; on
    a non-empty list it reports success, hands out the value of the head
    node, makes the head's successor the new head, lowers the size by one,
    releases the old head node, and resets the tail to null when the list
    thereby becomes empty. *)
Theorem C4_pop_front l out st L cs :
  l ≠ NULL → lists st !! l = Some L → rep_list (nodes st) L cs → heap_ok (nodes st) →
  out ≠ NULL → is_Some (ints st !! out) →
  match cs with
  | [] =>
      C.ll_pop_front l out st = Ok 0 st ∧ Cpp.pop_front l out st = Ok false st
  | (a, v) :: cs' =>
      ∃ nx st',
        nodes st !! a = Some (mkNode v nx) ∧ head_ L = a ∧
        C.ll_pop_front l out st = Ok 1 st' ∧ Cpp.pop_front l out st = Ok true st' ∧
        ints st' = <[out:=v]> (ints st) ∧
        nodes st' = delete a (nodes st) ∧
        lists st' = <[l:=mkList nx (if decide (nx = NULL) then NULL else tail_ L)
                          (size_ L - 1)]> (lists st) ∧
        rep_list (nodes st') (mkList nx (if decide (nx = NULL) then NULL else tail_ L)
                                (size_ L - 1)) cs'
  end.
Proof.
  intros Hl HL Hrep Hok Hout Hint. destruct cs as [|[a v] cs'].
  - assert (C.ll_pop_front l out st = Ok 0 st) as Hrun by (by eapply ll_pop_front_empty).
    split; [done|]. rewrite (pop_front_eq l out st L []) by done.
    by erewrite as_bool_Ok by exact Hrun.
  - destruct (ll_pop_front_Ok l out st L a v cs') as (L' & Hrun & Hrep' & Hla);
      [done..|by right|].
    pose proof Hrep as (Hc & Ht & Hs). pose proof Hrep' as (Hc' & Ht' & Hs').
    pose proof (chain_length_lt _ _ _ Hok Hc) as Hlen.
    assert (head_ L = a) as Hh by (by destruct Hc).
    assert (L' = mkList (head_ L') (if decide (head_ L' = NULL) then NULL else tail_ L)
                   (size_ L - 1)) as HL'.
    { destruct L' as [h' t' s']. simpl in *. f_equal.
      - destruct cs' as [|c cs''].
        + simpl in Hc'. rewrite Ht', Hc'. by case_decide.
        + rewrite Ht', Ht. destruct Hc' as (_ & Hnz & _). by case_decide.
      - lia. }
    exists (head_ L'), (mkState (<[l:=L']> (lists st)) (delete a (nodes st))
                          (write_out out v (ints st))).
    split; [done|]. split; [done|]. split; [done|]. split.
    { rewrite (pop_front_eq l out st L ((a, v) :: cs')) by done.
      by erewrite as_bool_Ok by exact Hrun. }
    split.
    { simpl. unfold write_out. by destruct (Z.eqb_spec out NULL). }
    split; [done|]. rewrite <- HL'. by split.
Qed.

(** C10. The three C functions that take an [int* out] accept a null [out]:
    on every well-formed list they return the same flag and leave the same
    list and the same nodes as with a pointer to an [int], they write no
    [int] when [out] is null, and with a non-null [out] they write at most
    the [int] it points to. *)
Theorem C10_null_out_tolerated l out st L cs :
  l ≠ NULL → lists st !! l = Some L → rep_list (nodes st) L cs → heap_ok (nodes st) →
  out ≠ NULL → is_Some (ints st !! out) →
  ∀ f, f ∈ [C.ll_pop_front; C.ll_front; C.ll_back] →
    ∃ r st0 st1,
      f l NULL st = Ok r st0 ∧ f l out st = Ok r st1 ∧
      lists st0 = lists st1 ∧ nodes st0 = nodes st1 ∧
      ints st0 = ints st ∧
      (ints st1 = ints st ∨ ∃ v, ints st1 = <[out:=v]> (ints st)).
Proof.
  intros Hl HL Hrep Hok Hout Hint f Hf.
  assert (∀ v, write_out NULL v (ints st) = ints st) as Hw0 by done.
  assert (∀ v, write_out out v (ints st) = <[out:=v]> (ints st)) as Hw1.
  { intros v. unfold write_out. by destruct (Z.eqb_spec out NULL). }
  repeat (apply elem_of_cons in Hf as [->|Hf]); [| | |by apply elem_of_nil in Hf].
  - destruct cs as [|[a v] cs'].
    + exists 0, st, st. rewrite !(ll_pop_front_empty _ _ _ L) by done. eauto 10.
    + destruct (ll_pop_front_Ok l NULL st L a v cs') as (L0 & Hrun0 & Hrep0 & Hla0);
        [done..|by left|].
      destruct (ll_pop_front_Ok l out st L a v cs') as (L1 & Hrun1 & Hrep1 & Hla1);
        [done..|by right|].
      assert (L0 = L1) as ->.
      { destruct L0, L1, Hrep0 as (? & ? & ?), Hrep1 as (? & ? & ?). simpl in *.
        rewrite Hla0 in Hla1. injection Hla1 as ->. congruence. }
      eexists 1, _, _. split; [exact Hrun0|]. split; [exact Hrun1|].
      simpl. rewrite Hw1. eauto 10.
  - destruct cs as [|[a v] cs'].
    + exists 0, st, st. rewrite !(ll_front_empty _ _ _ L) by done. eauto 10.
    + eexists 1, _, _.
      split; [by eapply (ll_front_Ok l NULL); [..|by left]|].
      split; [by eapply (ll_front_Ok l out); [..|by right]|].
      simpl. rewrite Hw1. eauto 10.
  - destruct cs as [|[t w] cs' _] using rev_ind.
    + exists 0, st, st. rewrite !(ll_back_empty _ _ _ L) by done. eauto 10.
    + eexists 1, _, _.
      split; [by eapply (ll_back_Ok l NULL); [..|by left]|].
      split; [by eapply (ll_back_Ok l out); [..|by right]|].
      simpl. rewrite Hw1. eauto 10.
Qed.

Lemma not_in_concat {A} (x : A) (ls : list (list A)) :
  (∀ l, l ∈ ls → x ∉ l) → x ∉ concat ls.
Proof.
  induction ls as [|l ls IH]; intros Hall; simpl.
  - by intros ?%elem_of_nil.
  - intros [?|?]%elem_of_app.
    + by apply (Hall l); [left|].
    + apply IH; [|done]. intros l' Hl'. apply Hall. by right.
Qed.

Lemma not_written {A B} (f : A → list B) (x : B) (os : list A) :
  (∀ o, o ∈ os → x ∉ f o) → x ∉ concat (f <$> os).
Proof.
  intros Hall. apply not_in_concat. intros l (o & -> & Ho)%list_elem_of_fmap.
  by apply Hall.
Qed.

(** C7. Copying list [a] into another list object [b] (C:
    [b = ll_copy(&a)], C++: copy construction; [b] may be raw storage, as in
    [LinkedList b = ...]): when the allocator delivers a node per element,
    the copy runs to its end and the two lists then hold the same sequence
    of values on disjoint nodes.  Afterwards every step that does not write
    [b], every mutation of [a] in particular, leaves the sequence of [b] as
    it was, and so does every program of such steps, as far as it runs: a
    program stops early only at a further copy, at a step that needs a node
    when the allocator has none, or, in C++, at [front()] or [back()] of an
    empty list, and [b] is unchanged there too. *)
Theorem C7_copy_independence st O a b cs Lb :
  world_inv st O → O !! a = Some cs → a ≠ b → b ≠ NULL → lists st !! b = Some Lb →
  can_alloc (length cs) (nodes st) →
  (∃ st1 cs', C.run_op (C.Copy b a) st = Ok tt st1 ∧
     C_seq a st1 = Some (cs.*2) ∧ C_seq b st1 = Some (cs.*2) ∧
     world_inv st1 (<[b:=cs']> O) ∧ cs'.*2 = cs.*2 ∧ (∀ x, x ∈ cs'.*1 → x ∉ cs.*1) ∧
     (∀ o, C_op_wf ({[b]} ∪ dom O) (dom (ints st)) o → b ∉ C.writes o →
        (∀ d s, o ≠ C.Copy d s) →
        (C.run_op o st1 = Fault AllocFailure ∧ alloc (nodes st1) = None) ∨
        ∃ st2, C.run_op o st1 = Ok tt st2 ∧ C_seq b st2 = Some (cs.*2)) ∧
     (∀ os, Forall (C_op_wf ({[b]} ∪ dom O) (dom (ints st))) os →
        (∀ o, o ∈ os → b ∉ C.writes o) →
        (∃ st2, C.run os st1 = Ok tt st2 ∧ C_seq b st2 = Some (cs.*2)) ∨
        (∃ os1 o os2 st2, os = os1 ++ o :: os2 ∧ C.run os1 st1 = Ok tt st2 ∧
           C_seq b st2 = Some (cs.*2) ∧ C.run_op o st2 = Fault AllocFailure ∧
           ((∃ d s, o = C.Copy d s) ∨ alloc (nodes st2) = None)))) ∧
  (∃ st1 cs', Cpp.run_op (Cpp.CopyCtor b a) st = Ok tt st1 ∧
     Cpp_seq a st1 = Some (cs.*2) ∧ Cpp_seq b st1 = Some (cs.*2) ∧
     world_inv st1 (<[b:=cs']> O) ∧ cs'.*2 = cs.*2 ∧ (∀ x, x ∈ cs'.*1 → x ∉ cs.*1) ∧
     (∀ o, Cpp_op_wf ({[b]} ∪ dom O) (dom (ints st)) o → b ∉ Cpp.writes o →
        (∀ t s, o ≠ Cpp.CopyCtor t s ∧ o ≠ Cpp.CopyAssign t s) →
        Cpp.is_query o = false →
        (Cpp.run_op o st1 = Fault AllocFailure ∧ alloc (nodes st1) = None) ∨
        ∃ st2, Cpp.run_op o st1 = Ok tt st2 ∧ Cpp_seq b st2 = Some (cs.*2)) ∧
     (∀ os, Forall (Cpp_op_wf ({[b]} ∪ dom O) (dom (ints st))) os →
        (∀ o, o ∈ os → b ∉ Cpp.writes o) →
        (∃ st2, Cpp.run os st1 = Ok tt st2 ∧ Cpp_seq b st2 = Some (cs.*2)) ∨
        (∃ os1 o os2 st2, os = os1 ++ o :: os2 ∧ Cpp.run os1 st1 = Ok tt st2 ∧
           Cpp_seq b st2 = Some (cs.*2) ∧
           ((∃ l, (o = Cpp.Front l ∨ o = Cpp.Back l) ∧ Cpp_seq l st2 = Some [] ∧
               Cpp.run_op o st2 = Fault NullDeref) ∨
            (Cpp.run_op o st2 = Fault AllocFailure ∧
             ((∃ t s, o = Cpp.CopyCtor t s ∨ o = Cpp.CopyAssign t s) ∨
              alloc (nodes st2) = None)))))).
Proof.
  intros Hw Ha Hne Hb HLb Hcan.
  assert (∀ st1 cs', world_inv st1 (<[b:=cs']> O) → ∀ x, x ∈ cs'.*1 → x ∉ cs.*1) as Hdisj.
  { intros st1 cs' (_ & _ & Hd) x Hx.
    apply (Hd b a cs' cs); [done|apply lookup_insert_eq|by rewrite lookup_insert_ne|done]. }
  split.
  - destruct (C_Copy_spec b a st O cs Lb Hw Ha Hb HLb Hcan)
      as (st1 & cs' & Hrun & Hval & Hw1 & Hi & _).
    exists st1, cs'. split; [done|].
    destruct (world_seq st1 _ a cs Hw1) as [Hsa _]; [by rewrite lookup_insert_ne|].
    destruct (world_seq st1 _ b cs' Hw1) as [Hsb _]; [apply lookup_insert_eq|].
    rewrite Hval in Hsb. split; [done|]. split; [done|]. split; [done|].
    split; [done|]. split; [by eapply Hdisj|]. split.
    + intros o Hwf Hnw Hnc.
      rewrite <- (dom_insert_L O b cs'), <- Hi in Hwf.
      destruct (C_run_op_world o st1 _ Hw1 Hwf)
        as [Hf|(st2 & O2 & Hrun2 & Hw2 & _ & _ & Hk)].
      * left. split; [done|].
        destruct (alloc (nodes st1)) as [pj|] eqn:Hal; [|done].
        destruct (C_run_op_Ok o st1 _ Hw1 Hwf Hnc) as [st2 Hok]; [by rewrite Hal|].
        congruence.
      * right. exists st2. split; [done|].
        destruct (world_seq st2 O2 b cs' Hw2) as [Hs2 _]; [|by rewrite <- Hval].
        rewrite Hk by done. apply lookup_insert_eq.
    + intros os Hwf Hnw.
      rewrite <- (dom_insert_L O b cs'), <- Hi in Hwf.
      destruct (C_run_outcome os st1 _ Hw1 Hwf) as
        [(st2 & O2 & Hrun2 & Hw2 & Hk)
        |(os1 & o & os2 & st2 & O2 & -> & Hrun2 & Hw2 & Hk & Hf & Hwhy)].
      * left. exists st2. split; [done|].
        destruct (world_seq st2 O2 b cs' Hw2) as [Hs2 _]; [|by rewrite <- Hval].
        rewrite Hk by (by apply not_written). apply lookup_insert_eq.
      * right. exists os1, o, os2, st2. split; [done|]. split; [done|].
        split; [|done].
        destruct (world_seq st2 O2 b cs' Hw2) as [Hs2 _]; [|by rewrite <- Hval].
        rewrite Hk; [apply lookup_insert_eq|].
        apply not_written. intros o' Ho'. apply Hnw, elem_of_app. by left.
  - destruct (Cpp_CopyCtor_spec b a st O cs Lb Hw Ha Hb (not_eq_sym Hne) HLb Hcan)
      as (st1 & cs' & Hrun & Hval & Hw1 & Hi & _).
    exists st1, cs'. split; [done|].
    destruct (world_seq st1 _ a cs Hw1) as [_ Hsa]; [by rewrite lookup_insert_ne|].
    destruct (world_seq st1 _ b cs' Hw1) as [_ Hsb]; [apply lookup_insert_eq|].
    rewrite Hval in Hsb. split; [done|]. split; [done|]. split; [done|].
    split; [done|]. split; [by eapply Hdisj|]. split.
    + intros o Hwf Hnw Hnc Hnq.
      rewrite <- (dom_insert_L O b cs'), <- Hi in Hwf.
      destruct (Cpp_run_op_world o st1 _ Hw1 Hwf)
        as [[Hq _]|[Hf|(st2 & O2 & Hrun2 & Hw2 & _ & _ & Hk)]]; [congruence| |].
      * left. split; [done|].
        destruct (alloc (nodes st1)) as [pj|] eqn:Hal; [|done].
        destruct (Cpp_run_op_Ok o st1 _ Hw1 Hwf Hnc Hnq) as [st2 Hok]; [by rewrite Hal|].
        congruence.
      * right. exists st2. split; [done|].
        destruct (world_seq st2 O2 b cs' Hw2) as [_ Hs2]; [|by rewrite <- Hval].
        rewrite Hk by done. apply lookup_insert_eq.
    + intros os Hwf Hnw.
      rewrite <- (dom_insert_L O b cs'), <- Hi in Hwf.
      destruct (Cpp_run_outcome os st1 _ Hw1 Hwf) as
        [(st2 & O2 & Hrun2 & Hw2 & Hk)
        |(os1 & o & os2 & st2 & O2 & -> & Hrun2 & Hw2 & Hk & Hwhy)].
      * left. exists st2. split; [done|].
        destruct (world_seq st2 O2 b cs' Hw2) as [_ Hs2]; [|by rewrite <- Hval].
        rewrite Hk by (by apply not_written). apply lookup_insert_eq.
      * right. exists os1, o, os2, st2. split; [done|]. split; [done|]. split.
        { destruct (world_seq st2 O2 b cs' Hw2) as [_ Hs2]; [|by rewrite <- Hval].
          rewrite Hk; [apply lookup_insert_eq|].
          apply not_written. intros o' Ho'. apply Hnw, elem_of_app. by left. }
        destruct Hwhy as [(l & Ho & Hl & Hf)|Hwhy]; [left|by right].
        exists l. split; [done|]. split; [|done].
        by apply (world_seq st2 O2 l [] Hw2).
Qed.

(** C8. Moving list [a] into another list object [c] (C:
    [c = ll_move_from(&a)], C++: move construction) always succeeds and
    allocates nothing; [c] then holds the sequence [a] held, and [a] is a
    valid empty list: [head_] and [tail_] null, size 0, [empty] true, and any
    program can go on using it, a push for instance. *)
Theorem C8_move_transfers st O a c cs v :
  world_inv st O → O !! a = Some cs → c ∈ dom O → a ≠ c →
  (∃ st1, C.run_op (C.MoveFrom c a) st = Ok tt st1 ∧ nodes st1 = nodes st ∧
     C_seq c st1 = Some (cs.*2) ∧ C_seq a st1 = Some [] ∧
     is_reset a st1 ∧ C.ll_size a st1 = Ok 0 st1 ∧ C.ll_empty a st1 = Ok 1 st1 ∧
     world_inv st1 (<[a:=[]]> (<[c:=cs]> O)) ∧
     ∀ p j, alloc (nodes st1) = Some (p, j) →
       ∃ st2, C.ll_push_back a v st1 = Ok tt st2 ∧
         C_seq a st2 = Some [v] ∧ C_seq c st2 = Some (cs.*2)) ∧
  (∃ st1, Cpp.run_op (Cpp.MoveCtor c a) st = Ok tt st1 ∧ nodes st1 = nodes st ∧
     Cpp_seq c st1 = Some (cs.*2) ∧ Cpp_seq a st1 = Some [] ∧
     is_reset a st1 ∧ Cpp.size a st1 = Ok 0 st1 ∧ Cpp.empty a st1 = Ok true st1 ∧
     world_inv st1 (<[a:=[]]> (<[c:=cs]> O)) ∧
     ∀ p j, alloc (nodes st1) = Some (p, j) →
       ∃ st2, Cpp.push_back a v st1 = Ok tt st2 ∧
         Cpp_seq a st2 = Some [v] ∧ Cpp_seq c st2 = Some (cs.*2)).
Proof.
  intros Hw Ha Hc Hne.
  destruct (C_MoveFrom_spec c a st O cs Hw Hc Ha (not_eq_sym Hne)) as (S & HS & Hrun & Hw1).
  destruct (Cpp_MoveCtor_spec c a st O cs Hw Hc Ha (not_eq_sym Hne)) as (S' & HS' & Hrun' & _).
  assert (S' = S) as -> by congruence.
  set (st1 := mkState _ _ _) in *. set (O1 := <[a:=[]]> (<[c:=cs]> O)) in *.
  assert (O1 !! a = Some []) as Ha1 by apply lookup_insert_eq.
  assert (O1 !! c = Some cs) as Hc1.
  { unfold O1. rewrite lookup_insert_ne by done. apply lookup_insert_eq. }
  destruct (world_seq st1 O1 a [] Hw1 Ha1) as [Hsa Hsa'].
  destruct (world_seq st1 O1 c cs Hw1 Hc1) as [Hsc Hsc'].
  assert (a ∈ dom O1) as Hdom by (apply elem_of_dom; by eexists).
  destruct (owned_list st1 O1 a Hw1 Hdom) as (cs0 & L & Hcs0 & Hanz & HL & Hrep & Hok).
  assert (cs0 = []) as -> by congruence.
  assert (is_reset a st1) as Hreset by apply lookup_insert_eq.
  assert (L = mkList NULL NULL 0) as -> by (unfold is_reset in Hreset; congruence).
  assert (∀ p j, alloc (nodes st1) = Some (p, j) →
            ∃ st2, C.ll_push_back a v st1 = Ok tt st2 ∧
              world_inv st2 (<[a:=[(p, v)]]> O1)) as Hpush.
  { intros p j Hal.
    destruct (ll_push_back_Ok a v st1 (mkList NULL NULL 0) [] p j)
      as (Hpb & Hrep' & Hfr); try done.
    eexists. split; [exact Hpb|].
    eapply (world_step st1 O1 a [] [p]); [done..| |].
    - intros b ->%list_elem_of_singleton.
      split; [by eapply alloc_fresh|by eapply alloc_range].
    - intros b Hb. by left. }
  assert (∀ p st2, world_inv st2 (<[a:=[(p, v)]]> O1) →
            (C_seq a st2 = Some [v] ∧ C_seq c st2 = Some (cs.*2)) ∧
            (Cpp_seq a st2 = Some [v] ∧ Cpp_seq c st2 = Some (cs.*2))) as Hseqs.
  { intros p st2 Hw2.
    destruct (world_seq st2 _ a [(p, v)] Hw2) as [? ?]; [apply lookup_insert_eq|].
    destruct (world_seq st2 _ c cs Hw2) as [? ?]; [by rewrite lookup_insert_ne|].
    done. }
  split.
  - exists st1. do 4 (split; [done|]). split; [done|].
    split; [by apply (ll_size_Ok a st1 (mkList NULL NULL 0))|].
    split; [by apply (ll_empty_Ok a st1 (mkList NULL NULL 0))|].
    split; [done|]. intros p j Hal.
    destruct (Hpush p j Hal) as (st2 & Hpb & Hw2). exists st2. split; [done|].
    by apply (Hseqs p).
  - exists st1. do 4 (split; [done|]). split; [done|].
    split; [by apply (ll_size_Ok a st1 (mkList NULL NULL 0))|].
    split; [by apply (empty_Ok a st1 (mkList NULL NULL 0))|].
    split; [done|]. intros p j Hal.
    destruct (Hpush p j Hal) as (st2 & Hpb & Hw2). exists st2.
    rewrite push_back_eq. split; [done|]. by apply (Hseqs p).
Qed.

End Claims.

(** * The claims on a concrete machine *)

(** The harness: a known selector or none gives status 0, in both
    implementations, when the task groups run to their end. *)
Lemma main_known_selector (t1 t2 t3 : M unit) (prog : string) st :
  C_main t1 t2 t3 [prog; "task1"%string] st = (t1;; ret 0) st ∧
  C_main t1 t2 t3 [prog; "task2"%string] st = (t2;; ret 0) st ∧
  C_main t1 t2 t3 [prog; "task3"%string] st = (t3;; ret 0) st ∧
  C_main t1 t2 t3 [prog] st = (t1;; t2;; t3;; ret 0) st ∧
  Cpp_main t1 t2 t3 [prog; "task1"%string] st = (t1;; ret 0) st ∧
  Cpp_main t1 t2 t3 [prog; "task2"%string] st = (t2;; ret 0) st ∧
  Cpp_main t1 t2 t3 [prog; "task3"%string] st = (t3;; ret 0) st ∧
  Cpp_main t1 t2 t3 [prog] st = (t1;; t2;; t3;; ret 0) st.
Proof. done. Qed.

(** The C++ harness answers every other selector with status 2 and runs no
    task group. *)
Lemma Cpp_main_unknown_selector (t1 t2 t3 : M unit) (prog sel : string) rest st :
  sel ≠ "task1"%string → sel ≠ "task2"%string → sel ≠ "task3"%string →
  Cpp_main t1 t2 t3 (prog :: sel :: rest) st = Ok 2 st.
Proof.
  intros H1 H2 H3. unfold Cpp_main.
  assert ((argc (prog :: sel :: rest) >=? 2) = true) as ->.
  { unfold argc. apply Z.geb_le. simpl length. lia. }
  change (argv1 (prog :: sel :: rest)) with sel.
  apply String.eqb_neq in H1, H2, H3. by rewrite H1, H2, H3.
Qed.

(** The C harness treats every other selector as no selector. *)
Lemma C_main_unknown_selector (t1 t2 t3 : M unit) (prog sel : string) rest st :
  sel ≠ "task1"%string → sel ≠ "task2"%string → sel ≠ "task3"%string →
  C_main t1 t2 t3 (prog :: sel :: rest) st = (t1;; t2;; t3;; ret 0) st.
Proof.
  intros H1 H2 H3. unfold C_main.
  assert ((argc (prog :: sel :: rest) >=? 2) = true) as ->.
  { unfold argc. apply Z.geb_le. simpl length. lia. }
  change (argv1 (prog :: sel :: rest)) with sel.
  apply String.eqb_neq in H1, H2, H3. by rewrite H1, H2, H3.
Qed.

(** C9, at the selector ["bogus"]: the C++ harness returns 2 without running
    a task group; the C harness runs all three groups and returns what they
    return, status 0. *)
Theorem C9_unknown_selector_status (t1 t2 t3 : M unit) st :
  Cpp_main t1 t2 t3 ["main"; "bogus"]%string st = Ok 2 st ∧
  C_main t1 t2 t3 ["main"; "bogus"]%string st = (t1;; t2;; t3;; ret 0) st ∧
  C_main (ret tt) (ret tt) (ret tt) ["main"; "bogus"]%string st = Ok 0 st.
Proof. done. Qed.

(** C5, for every empty list object: the C functions report failure, the
    C++ member functions go through the null [head_] or [tail_]. *)
Theorem C5_front_back_on_empty (l : positive) (out : Z) ls ns im :
  let st := mkState (<[Z.pos l:=mkList NULL NULL 0]> ls) ns im in
  Cpp.front (Z.pos l) st = Fault NullDeref ∧
  Cpp.back (Z.pos l) st = Fault NullDeref ∧
  C.ll_front (Z.pos l) out st = Ok 0 st ∧
  C.ll_back (Z.pos l) out st = Ok 0 st.
Proof.
  intros st.
  assert (Z.pos l ≠ NULL) as Hl by done.
  assert (lists st !! Z.pos l = Some (mkList NULL NULL 0)) as HL by apply lookup_insert_eq.
  pose proof (rep_list_nil (nodes st)) as Hrep.
  split; [by eapply front_empty|]. split; [by eapply back_empty|].
  split; [by eapply ll_front_empty|by eapply ll_back_empty].
Qed.

(** C6, on the list 10, 20: C++ move-assignment of a list to itself changes
    nothing; the C function releases every node and leaves the list empty. *)
Theorem C6_self_move_assign :
  C_seq 100 ex_state = Some [10; 20] ∧
  Cpp.move_assign 100 100 ex_state = Ok tt ex_state ∧
  C.ll_move_assign_from 100 100 ex_state =
    Ok tt {| lists := {[ 100 := mkList NULL NULL 0; 101 := mkList NULL NULL 0 ]};
             nodes := ∅;
             ints := {[ 200 := 0 ]} |} ∧
  C_seq 100 {| lists := {[ 100 := mkList NULL NULL 0; 101 := mkList NULL NULL 0 ]};
               nodes := ∅;
               ints := {[ 200 := 0 ]} |} = Some [].
Proof. split; [|split; [|split]]; by vm_compute. Qed.

(** ** Witnesses: the theorems at concrete inputs *)

Lemma heap_ok_decide (h : gmap Z Node) :
  bool_decide (map_Forall (λ p (_ : Node), 0 < p < SIZE_MOD) h) = true → heap_ok h.
Proof. intros Hd%bool_decide_eq_true. exact Hd. Qed.

Lemma ex_state_rep : rep_list (nodes ex_state) (mkList 1 2 2) [(1, 10); (2, 20)].
Proof.
  split; [|done].
  apply (lseg_cons_intro _ _ _ 2); [done|done|].
  by apply (lseg_cons_intro _ _ _ NULL).
Qed.

Lemma ex_single_rep : rep_list (nodes ex_single) (mkList 1 1 1) [(1, 10)].
Proof. split; [|done]. by apply (lseg_cons_intro _ _ _ NULL). Qed.

Lemma ex_state_heap_ok : heap_ok (nodes ex_state).
Proof. by apply heap_ok_decide. Qed.

Lemma ex_single_heap_ok : heap_ok (nodes ex_single).
Proof. by apply heap_ok_decide. Qed.

Lemma ex_state_world : world_inv ex_state ex_owner.
Proof.
  split; [exact ex_state_heap_ok|]. split.
  - intros l cs Hl. unfold ex_owner in Hl.
    apply lookup_insert_Some in Hl as [[<- <-]|[Hne Hl]].
    + split; [done|]. exists (mkList 1 2 2). split; [done|]. exact ex_state_rep.
    + apply lookup_singleton_Some in Hl as [<- <-].
      split; [done|]. exists (mkList NULL NULL 0). split; [done|]. apply rep_list_nil.
  - intros l1 l2 cs1 cs2 Hne H1 H2 a Ha Hb. unfold ex_owner in H1, H2.
    apply lookup_insert_Some in H1 as [[<- <-]|[Hne1 H1]];
      apply lookup_insert_Some in H2 as [[<- <-]|[Hne2 H2]]; try done.
    + apply lookup_singleton_Some in H2 as [<- <-]. by apply elem_of_nil in Hb.
    + apply lookup_singleton_Some in H1 as [<- <-]. by apply elem_of_nil in Ha.
    + apply lookup_singleton_Some in H1 as [<- <-]. by apply elem_of_nil in Ha.
Qed.

Lemma ex_two_heap_ok : heap_ok (nodes ex_two).
Proof. by apply heap_ok_decide. Qed.

Lemma ex_two_rep : rep_list (nodes ex_two) (mkList 1 2 2) [(1, 10); (2, 20)].
Proof.
  split; [|done].
  apply (lseg_cons_intro _ _ _ 2); [done|done|].
  by apply (lseg_cons_intro _ _ _ NULL).
Qed.

Lemma ex_two_rep' : rep_list (nodes ex_two) (mkList 5 5 1) [(5, 30)].
Proof. split; [|done]. by apply (lseg_cons_intro _ _ _ NULL). Qed.

Lemma ex_two_world : world_inv ex_two ex_two_owner.
Proof.
  split; [exact ex_two_heap_ok|]. split.
  - intros l cs Hl. unfold ex_two_owner in Hl.
    apply lookup_insert_Some in Hl as [[<- <-]|[Hne Hl]].
    + split; [done|]. exists (mkList 1 2 2). split; [done|]. exact ex_two_rep.
    + apply lookup_singleton_Some in Hl as [<- <-].
      split; [done|]. exists (mkList 5 5 1). split; [done|]. exact ex_two_rep'.
  - intros l1 l2 cs1 cs2 Hne H1 H2 a Ha Hb. unfold ex_two_owner in H1, H2.
    apply lookup_insert_Some in H1 as [[<- <-]|[Hne1 H1]];
      apply lookup_insert_Some in H2 as [[<- <-]|[Hne2 H2]]; try done.
    + apply lookup_singleton_Some in H2 as [<- <-]. set_solver.
    + apply lookup_singleton_Some in H1 as [<- <-]. set_solver.
    + apply lookup_singleton_Some in H1 as [<- <-].
      apply lookup_singleton_Some in H2 as [<- <-]. done.
Qed.

Lemma ex_two_can_alloc (n : nat) (h : gmap Z Node) :
  bool_decide (map_Forall (λ k (_ : Node), k <= 5) h) = true →
  bool_decide (5 + Z.of_nat n < SIZE_MOD) = true →
  @can_alloc bump_allocator n h.
Proof.
  intros Hd%bool_decide_eq_true Hn%bool_decide_eq_true.
  apply (bump_can_alloc n h 5); [lia| |done].
  intros k [x Hk]%elem_of_dom. exact (Hd k x Hk).
Qed.

Ltac in_dom := apply elem_of_dom; eexists; reflexivity.

Ltac wf_step :=
  split; [|split];
  [ intros ? ?; set_solver
  | first [ by left | right; in_dom | intros ? [= <-]; split; [done|in_dom] | done ]
  | done ].

Lemma C1_witness :
  (@C.run bump_allocator ((C.Init <$> [100; 101]) ++ ex_prog_C) ex_raw = Fault AllocFailure ∨
   ∃ st', @C.run bump_allocator ((C.Init <$> [100; 101]) ++ ex_prog_C) ex_raw = Ok tt st' ∧
     ∀ l, l ∈ [100; 101] → structural_invariant st' l) ∧
  ((existsb Cpp.is_query ex_prog_Cpp = true ∧
    @Cpp.run bump_allocator ((Cpp.Ctor <$> [100; 101]) ++ ex_prog_Cpp) ex_raw = Fault NullDeref) ∨
   @Cpp.run bump_allocator ((Cpp.Ctor <$> [100; 101]) ++ ex_prog_Cpp) ex_raw = Fault AllocFailure ∨
   ∃ st', @Cpp.run bump_allocator ((Cpp.Ctor <$> [100; 101]) ++ ex_prog_Cpp) ex_raw = Ok tt st' ∧
     ∀ l, l ∈ [100; 101] → structural_invariant st' l).
Proof.
  apply (@C1_invariant_preservation bump_allocator [100; 101] ex_raw ex_prog_C ex_prog_Cpp).
  - by apply heap_ok_decide.
  - intros l Hl. apply elem_of_cons in Hl as [->|Hl]; [by split; [|eexists]|].
    apply list_elem_of_singleton in Hl as ->. by split; [|eexists].
  - repeat (apply Forall_cons; split; [wf_step|]). by apply Forall_nil.
  - repeat (apply Forall_cons; split; [wf_step|]). by apply Forall_nil.
Defined.

Section Witnesses.
#[local] Existing Instance bump_allocator.

Lemma C2_witness :
  (∃ st1, C.ll_pop_front 100 200 ex_single = Ok 1 st1 ∧ is_reset 100 st1 ∧
     push_makes_single 100 99 st1) ∧
  (∃ st1, C.ll_erase 100 0 ex_single = Ok 1 st1 ∧ is_reset 100 st1 ∧
     push_makes_single 100 99 st1) ∧
  (∃ st1, Cpp.pop_front 100 200 ex_single = Ok true st1 ∧ is_reset 100 st1 ∧
     push_makes_single 100 99 st1) ∧
  (∃ st1, Cpp.erase 100 0 ex_single = Ok true st1 ∧ is_reset 100 st1 ∧
     push_makes_single 100 99 st1).
Proof.
  apply (C2_empty_transition 100 200 ex_single (mkList 1 1 1) 1 10 99).
  - done.
  - reflexivity.
  - exact ex_single_rep.
  - exact ex_single_heap_ok.
  - done.
  - by exists 0.
Defined.

Lemma C3_witness :
  (∀ p j, alloc (nodes ex_state) = Some (p, j) →
     ∃ st' L', C.ll_insert 100 2 30 ex_state = Ok 1 st' ∧
       Cpp.insert 100 2 30 ex_state = Ok true st' ∧
       lists st' !! 100 = Some L' ∧
       rep_list (nodes st') L' ([(1, 10); (2, 20)] ++ [(p, 30)])) ∧
  (∀ i, 2 < i →
     C.ll_insert 100 i 30 ex_state = Ok 0 ex_state ∧
     Cpp.insert 100 i 30 ex_state = Ok false ex_state) ∧
  (∀ i, 2 <= i →
     C.ll_erase 100 i ex_state = Ok 0 ex_state ∧
     Cpp.erase 100 i ex_state = Ok false ex_state).
Proof.
  apply (C3_index_boundaries 100 30 ex_state (mkList 1 2 2) [(1, 10); (2, 20)]).
  - done.
  - reflexivity.
  - exact ex_state_rep.
  - exact ex_state_heap_ok.
Defined.

Lemma C4_witness :
  ∃ nx st',
    nodes ex_state !! 1 = Some (mkNode 10 nx) ∧ head_ (mkList 1 2 2) = 1 ∧
    C.ll_pop_front 100 200 ex_state = Ok 1 st' ∧
    Cpp.pop_front 100 200 ex_state = Ok true st' ∧
    ints st' = <[200:=10]> (ints ex_state) ∧
    nodes st' = delete 1 (nodes ex_state) ∧
    lists st' = <[100:=mkList nx (if decide (nx = NULL) then NULL else tail_ (mkList 1 2 2))
                        (size_ (mkList 1 2 2) - 1)]> (lists ex_state) ∧
    rep_list (nodes st') (mkList nx (if decide (nx = NULL) then NULL else tail_ (mkList 1 2 2))
                            (size_ (mkList 1 2 2) - 1)) [(2, 20)].
Proof.
  apply (C4_pop_front 100 200 ex_state (mkList 1 2 2) [(1, 10); (2, 20)]).
  - done.
  - reflexivity.
  - exact ex_state_rep.
  - exact ex_state_heap_ok.
  - done.
  - by exists 0.
Defined.

Lemma C10_witness :
  Forall (λ f, ∃ r st0 st1,
      f 100 NULL ex_state = Ok r st0 ∧ f 100 200 ex_state = Ok r st1 ∧
      lists st0 = lists st1 ∧ nodes st0 = nodes st1 ∧
      ints st0 = ints ex_state ∧
      (ints st1 = ints ex_state ∨ ∃ v, ints st1 = <[200:=v]> (ints ex_state)))
    [C.ll_pop_front; C.ll_front; C.ll_back].
Proof.
  apply Forall_forall.
  apply (C10_null_out_tolerated 100 200 ex_state (mkList 1 2 2) [(1, 10); (2, 20)]).
  - done.
  - reflexivity.
  - exact ex_state_rep.
  - exact ex_state_heap_ok.
  - done.
  - by exists 0.
Defined.

Lemma C7_witness :
  (∃ st1 cs', C.run_op (C.Copy 102 100) ex_two = Ok tt st1 ∧
     C_seq 100 st1 = Some [10; 20] ∧ C_seq 102 st1 = Some [10; 20] ∧
     world_inv st1 (<[102:=cs']> ex_two_owner) ∧ cs'.*2 = [10; 20] ∧
     (∀ x, x ∈ cs'.*1 → x ∉ [1; 2]) ∧
     (∀ o, C_op_wf ({[102]} ∪ dom ex_two_owner) (dom (ints ex_two)) o → 102 ∉ C.writes o →
        (∀ d s, o ≠ C.Copy d s) →
        (C.run_op o st1 = Fault AllocFailure ∧ alloc (nodes st1) = None) ∨
        ∃ st2, C.run_op o st1 = Ok tt st2 ∧ C_seq 102 st2 = Some [10; 20]) ∧
     (∀ os, Forall (C_op_wf ({[102]} ∪ dom ex_two_owner) (dom (ints ex_two))) os →
        (∀ o, o ∈ os → 102 ∉ C.writes o) →
        (∃ st2, C.run os st1 = Ok tt st2 ∧ C_seq 102 st2 = Some [10; 20]) ∨
        (∃ os1 o os2 st2, os = os1 ++ o :: os2 ∧ C.run os1 st1 = Ok tt st2 ∧
           C_seq 102 st2 = Some [10; 20] ∧ C.run_op o st2 = Fault AllocFailure ∧
           ((∃ d s, o = C.Copy d s) ∨ alloc (nodes st2) = None)))) ∧
  (∃ st1 cs', Cpp.run_op (Cpp.CopyCtor 102 100) ex_two = Ok tt st1 ∧
     Cpp_seq 100 st1 = Some [10; 20] ∧ Cpp_seq 102 st1 = Some [10; 20] ∧
     world_inv st1 (<[102:=cs']> ex_two_owner) ∧ cs'.*2 = [10; 20] ∧
     (∀ x, x ∈ cs'.*1 → x ∉ [1; 2]) ∧
     (∀ o, Cpp_op_wf ({[102]} ∪ dom ex_two_owner) (dom (ints ex_two)) o →
        102 ∉ Cpp.writes o →
        (∀ t s, o ≠ Cpp.CopyCtor t s ∧ o ≠ Cpp.CopyAssign t s) →
        Cpp.is_query o = false →
        (Cpp.run_op o st1 = Fault AllocFailure ∧ alloc (nodes st1) = None) ∨
        ∃ st2, Cpp.run_op o st1 = Ok tt st2 ∧ Cpp_seq 102 st2 = Some [10; 20]) ∧
     (∀ os, Forall (Cpp_op_wf ({[102]} ∪ dom ex_two_owner) (dom (ints ex_two))) os →
        (∀ o, o ∈ os → 102 ∉ Cpp.writes o) →
        (∃ st2, Cpp.run os st1 = Ok tt st2 ∧ Cpp_seq 102 st2 = Some [10; 20]) ∨
        (∃ os1 o os2 st2, os = os1 ++ o :: os2 ∧ Cpp.run os1 st1 = Ok tt st2 ∧
           Cpp_seq 102 st2 = Some [10; 20] ∧
           ((∃ l, (o = Cpp.Front l ∨ o = Cpp.Back l) ∧ Cpp_seq l st2 = Some [] ∧
               Cpp.run_op o st2 = Fault NullDeref) ∨
            (Cpp.run_op o st2 = Fault AllocFailure ∧
             ((∃ t s, o = Cpp.CopyCtor t s ∨ o = Cpp.CopyAssign t s) ∨
              alloc (nodes st2) = None)))))).
Proof.
  apply (C7_copy_independence ex_two ex_two_owner 100 102 [(1, 10); (2, 20)] (mkList 7 7 7)).
  - exact ex_two_world.
  - reflexivity.
  - done.
  - done.
  - reflexivity.
  - by apply ex_two_can_alloc.
Defined.

Lemma C8_witness :
  (∃ st1, C.run_op (C.MoveFrom 101 100) ex_state = Ok tt st1 ∧
     nodes st1 = nodes ex_state ∧
     C_seq 101 st1 = Some [10; 20] ∧ C_seq 100 st1 = Some [] ∧
     is_reset 100 st1 ∧ C.ll_size 100 st1 = Ok 0 st1 ∧ C.ll_empty 100 st1 = Ok 1 st1 ∧
     world_inv st1 (<[100:=[]]> (<[101:=[(1, 10); (2, 20)]]> ex_owner)) ∧
     ∀ p j, alloc (nodes st1) = Some (p, j) →
       ∃ st2, C.ll_push_back 100 77 st1 = Ok tt st2 ∧
         C_seq 100 st2 = Some [77] ∧ C_seq 101 st2 = Some [10; 20]) ∧
  (∃ st1, Cpp.run_op (Cpp.MoveCtor 101 100) ex_state = Ok tt st1 ∧
     nodes st1 = nodes ex_state ∧
     Cpp_seq 101 st1 = Some [10; 20] ∧ Cpp_seq 100 st1 = Some [] ∧
     is_reset 100 st1 ∧ Cpp.size 100 st1 = Ok 0 st1 ∧ Cpp.empty 100 st1 = Ok true st1 ∧
     world_inv st1 (<[100:=[]]> (<[101:=[(1, 10); (2, 20)]]> ex_owner)) ∧
     ∀ p j, alloc (nodes st1) = Some (p, j) →
       ∃ st2, Cpp.push_back 100 77 st1 = Ok tt st2 ∧
         Cpp_seq 100 st2 = Some [77] ∧ Cpp_seq 101 st2 = Some [10; 20]).
Proof.
  apply (C8_move_transfers ex_state ex_owner 100 101 [(1, 10); (2, 20)] 77).
  - exact ex_state_world.
  - reflexivity.
  - in_dom.
  - done.
Defined.

(** The runs of the example programs, computed. *)

Example ex_scenario_C :
  final_seqs (C.run [C.Init 100; C.PushFront 100 2; C.PushBack 100 5; C.PushFront 100 1]
                ex_raw) = (Some [1; 2; 5], None).
Proof. by vm_compute. Qed.

Example ex_prog_C_run :
  final_seqs (C.run ((C.Init <$> [100; 101]) ++ ex_prog_C) ex_raw) = (Some [], Some [2; 9]).
Proof. by vm_compute. Qed.

Example ex_prog_Cpp_run :
  final_seqs (Cpp.run ((Cpp.Ctor <$> [100; 101]) ++ ex_prog_Cpp) ex_raw) =
    (Some [], Some [2; 9]).
Proof. by vm_compute. Qed.

Example ex_copy_then_mutate_C :
  final_seqs (C.run (C.Copy 101 100 :: ex_mutate_C) ex_state) = (Some [], Some [10; 20]).
Proof. by vm_compute. Qed.

Example ex_copy_then_mutate_Cpp :
  final_seqs (Cpp.run (Cpp.CopyCtor 101 100 :: ex_mutate_Cpp) ex_state) =
    (Some [], Some [10; 20]).
Proof. by vm_compute. Qed.

Example ex_move_then_push_C :
  final_seqs (C.run [C.MoveFrom 101 100; C.PushBack 100 77] ex_state) =
    (Some [77], Some [10; 20]).
Proof. by vm_compute. Qed.

End Witnesses.

(** * Refinement: programs compute on sequences *)

Section Refinement.
Context `{Allocator}.
Implicit Types (st : state) (O : gmap Z (list cell)) (cs : list cell)
  (m : machine) (B : gmap Z Node).

Lemma lseg_head h p cs q :
  lseg h p cs q → p = match cs with [] => q | c :: _ => c.1 end.
Proof. destruct cs as [|c cs]; simpl; [done|]. by intros (-> & _). Qed.

(** The cells of a list fix its three members. *)
Lemma rep_list_inj h h' L L' cs : rep_list h L cs → rep_list h' L' cs → L = L'.
Proof.
  intros (Hc & Ht & Hs) (Hc' & Ht' & Hs').
  apply lseg_head in Hc, Hc'. destruct L, L'. simpl in *. congruence.
Qed.

(** The cells of a list fix the nodes they sit in. *)
Lemma lseg_determined h h' p p' cs q a :
  lseg h p cs q → lseg h' p' cs q → a ∈ cs.*1 → h !! a = h' !! a.
Proof.
  revert p p'. induction cs as [|[c v] cs IH]; intros p p' Hc Hc' Ha.
  - by apply elem_of_nil in Ha.
  - destruct Hc as (-> & _ & nx & Hn & Hrest).
    destruct Hc' as (-> & _ & nx' & Hn' & Hrest').
    pose proof (lseg_head _ _ _ _ Hrest) as Hx.
    pose proof (lseg_head _ _ _ _ Hrest') as Hx'.
    assert (nx = nx') as <- by congruence.
    simpl in Ha. apply elem_of_cons in Ha as [->|Ha]; [simpl in *; congruence|].
    by eapply IH.
Qed.

(** [ll_erase] with the node it releases. *)
Lemma ll_erase_frees l i st L cs :
  l ≠ NULL → lists st !! l = Some L → rep_list (nodes st) L cs → heap_ok (nodes st) →
  0 <= i < Z.of_nat (length cs) →
  ∃ L' h', C.ll_erase l i st = Ok 1 (mkState (<[l:=L']> (lists st)) h' (ints st)) ∧
    rep_list h' L' (delete (Z.to_nat i) cs) ∧
    frame_outside (cs.*1) (nodes st) h' ∧
    ∀ a v, cs !! Z.to_nat i = Some (a, v) → h' !! a = None.
Proof.
  intros Hl HL Hrep Hok Hi.
  pose proof Hrep as (Hc & Ht & Hs).
  pose proof (chain_length_lt _ _ _ Hok Hc) as Hlen.
  assert ((i >=? size_ L) = false) as Hge by lia.
  destruct (Z.eqb_spec i 0) as [->|Hi0].
  { destruct cs as [|[a v] cs]; [simpl in Hi; lia|].
    destruct (with_local_int_pop_front l st L a v cs) as (L' & Hrun & Hrep'); try done.
    exists L', (delete a (nodes st)). split; [|split; [done|split]].
    - unfold C.ll_erase. step. by rewrite Hge.
    - intros b Hb. rewrite lookup_delete_ne; [done|]. intros ->. apply Hb. left.
    - intros a' v' [= <- <-]. apply lookup_delete_eq. }
  set (n := Z.to_nat i).
  destruct (cut_around cs n) as (xs & [pa pv] & [va vv] & Hcs & Hxs & Htake & Hdrop); [lia|].
  assert (cs !! n = Some (va, vv)) as Hvictim.
  { rewrite <- (Nat.add_0_r n), <- lookup_drop, Hdrop. done. }
  set (ys := drop (S n) cs) in *.
  rewrite delete_take_drop, Htake. fold ys. rewrite <- app_assoc. simpl.
  rewrite Hcs in Hc. apply chain_split in Hc as (m & Hseg & Hrest & Hdisj).
  apply chain_cons_inv in Hrest as (-> & Hpa & Hpani & nx & Hlpa & Hrest).
  apply chain_cons_inv in Hrest as (-> & Hva & Hvani & nxv & Hlva & Hrest).
  assert (pa ∉ xs.*1) as Hpaxs.
  { intros Hin. apply (Hdisj _ Hin). simpl. left. }
  assert (va ∉ xs.*1) as Hvaxs.
  { intros Hin. apply (Hdisj _ Hin). simpl. right. left. }
  assert (pa ≠ va) as Hpava.
  { intros ->. apply Hpani. simpl. left. }
  assert (pa ∉ ys.*1) as Hpays.
  { intros Hin. apply Hpani. simpl. by right. }
  set (h' := delete va (<[pa:=mkNode pv nxv]> (nodes st))).
  assert (lseg h' (head_ L) (xs ++ (pa, pv) :: ys) NULL) as Hc'.
  { apply lseg_app. exists pa. split.
    - apply lseg_delete_other; [done|]. by apply lseg_insert_other.
    - apply (lseg_cons_intro _ _ _ nxv); [done| |].
      { unfold h'. by rewrite lookup_delete_ne, lookup_insert_eq. }
      apply lseg_delete_other; [done|]. by apply lseg_insert_other. }
  assert (tail_ L = if decide (ys = []) then va else last_addr ys) as Htl.
  { rewrite Ht, Hcs, last_addr_app by done. by rewrite last_addr_cons_cons, last_addr_cons. }
  exists (mkList (head_ L) (if decide (ys = []) then pa else tail_ L) (wrap (size_ L - 1))), h'.
  split; [|split; [|split]].
  - unfold C.ll_erase. step. rewrite Hge.
    assert ((i =? 0) = false) as -> by lia. step.
    assert (Z.to_nat (wrap (i - 1)) = length xs) as ->.
    { rewrite wrap_small by lia. lia. }
    cbv beta iota; erewrite bind_Ok by (by apply advance_Ok).
    do 4 step.
    destruct (decide (ys = [])) as [Hys|Hys].
    + assert ((va =? tail_ L) = true) as -> by (apply Z.eqb_eq; congruence).
      do 5 step. unfold h'. state_eq.
    + assert ((va =? tail_ L) = false) as ->.
      { apply Z.eqb_neq. rewrite Htl. intros ->. apply Hvani. by apply last_addr_elem. }
      do 5 step. unfold h'. state_eq.
  - split; [done|]. split; simpl.
    + destruct (decide (ys = [])) as [->|Hys]; [by rewrite last_addr_snoc|].
      rewrite Htl, last_addr_app by done. rewrite last_addr_cons.
      by destruct (decide (ys = [])).
    + rewrite Hcs in Hs, Hlen. rewrite !length_app in *. cbn [length] in *.
      rewrite wrap_small; lia.
  - intros a Hni. unfold h'. rewrite lookup_delete_ne, lookup_insert_ne; [done| |].
    + intros ->. apply Hni. rewrite Hcs, fmap_app. apply elem_of_app. right. left.
    + intros ->. apply Hni. rewrite Hcs, fmap_app. apply elem_of_app. right. right. left.
  - intros a v Hav. rewrite Hvictim in Hav. injection Hav as <- <-.
    unfold h'. apply lookup_delete_eq.
Qed.

Lemma abs_insert O im l cs : abs (<[l:=cs]> O) im = set_seq l (cs.*2) (abs O im).
Proof. unfold abs, set_seq. simpl. by rewrite fmap_insert. Qed.

Lemma seq_at_abs O im l cs : O !! l = Some cs → seq_at (abs O im) l = cs.*2.
Proof. intros HO. unfold seq_at, abs. simpl. by rewrite lookup_fmap, HO. Qed.

Lemma set_seq_id O im l cs : O !! l = Some cs → set_seq l (cs.*2) (abs O im) = abs O im.
Proof.
  intros HO. unfold set_seq, abs. simpl. f_equal.
  apply insert_id. by rewrite lookup_fmap, HO.
Qed.

Lemma set_seq_twice l xs ys m : set_seq l xs (set_seq l ys m) = set_seq l xs m.
Proof. unfold set_seq. simpl. by rewrite insert_insert_eq. Qed.

Lemma seq_at_set_ne l l' xs m : l ≠ l' → seq_at (set_seq l xs m) l' = seq_at m l'.
Proof. intros Hne. unfold seq_at, set_seq. simpl. by rewrite lookup_insert_ne. Qed.

Lemma abs_nil O1 im1 l m : abs O1 im1 = set_seq l [] m → O1 !! l = Some [].
Proof.
  intros Habs. apply (f_equal (λ m, seqs m !! l)) in Habs. simpl in Habs.
  rewrite lookup_fmap, lookup_insert_eq in Habs.
  destruct (O1 !! l) as [cs|]; [|done]. simpl in Habs.
  injection Habs as Hnil. by apply fmap_nil_inv in Hnil as ->.
Qed.

Lemma seq_nil_cells O im l cs :
  O !! l = Some cs → bool_decide (seq_at (abs O im) l = []) = true → cs = [].
Proof.
  intros HO Hd%bool_decide_eq_true. rewrite (seq_at_abs O im l cs) in Hd by done.
  by apply fmap_nil_inv in Hd.
Qed.

(** *** Nodes held and nodes lost *)

Lemma elem_of_owned_addrs O a :
  a ∈ owned_addrs O ↔ ∃ l cs, O !! l = Some cs ∧ a ∈ cs.*1.
Proof.
  unfold owned_addrs. rewrite list_elem_of_bind. split.
  - intros (cs & Ha & Hcs). apply list_elem_of_fmap in Hcs as ([l cs'] & -> & Hin).
    apply elem_of_map_to_list in Hin. eauto.
  - intros (l & cs & HO & Ha). exists cs. split; [done|].
    apply list_elem_of_fmap. exists (l, cs). split; [done|]. by apply elem_of_map_to_list.
Qed.

Lemma owned_live st O a : world_inv st O → a ∈ owned_addrs O → is_Some (nodes st !! a).
Proof.
  intros (_ & Hown & _) (l & cs & HO & Ha)%elem_of_owned_addrs.
  destruct (Hown _ _ HO) as (_ & L & _ & Hc & _).
  by destruct (lseg_live _ _ _ _ _ Hc Ha).
Qed.

Lemma tight_step st O B l cs fresh L' h' im' cs' :
  world_inv st O → O !! l = Some cs → tight st O B →
  frame_outside (fresh ++ cs.*1) (nodes st) h' →
  (∀ a, a ∈ fresh → nodes st !! a = None ∧ 0 < a < SIZE_MOD) →
  (∀ a, a ∈ cs'.*1 → a ∈ fresh ∨ a ∈ cs.*1) →
  (∀ a, a ∈ fresh ++ cs.*1 → a ∉ cs'.*1 → h' !! a = None) →
  tight (mkState (<[l:=L']> (lists st)) h' im') (<[l:=cs']> O) B.
Proof.
  intros Hw Hcs [Hb1 Hb2] Hfr Hfresh Hsub Hrel.
  assert (∀ a, a ∈ fresh → a ∉ owned_addrs O) as Hfo.
  { intros a Ha Hin. destruct (owned_live _ _ _ Hw Hin) as [n Hn].
    destruct (Hfresh a Ha) as [Hd _]. congruence. }
  assert (∀ a, a ∈ cs.*1 → a ∈ owned_addrs O) as Hco.
  { intros a Ha. apply elem_of_owned_addrs. eauto. }
  split; simpl.
  - intros a (l2 & cs2 & HO & Ha)%elem_of_owned_addrs.
    apply lookup_insert_Some in HO as [[<- <-]|[Hne HO]].
    + destruct (Hsub a Ha) as [Hf|Hc]; [|by apply Hb1, Hco].
      rewrite <- Hb2 by (by apply Hfo). by apply Hfresh.
    + apply Hb1. apply elem_of_owned_addrs. eauto.
  - intros a Hno.
    assert (a ∉ cs'.*1) as Hnew.
    { intros Hin. apply Hno. apply elem_of_owned_addrs.
      exists l, cs'. by rewrite lookup_insert_eq. }
    destruct (decide (a ∈ fresh ++ cs.*1)) as [Hin|Hout].
    + rewrite Hrel by done. symmetry.
      apply elem_of_app in Hin as [Hf|Hc]; [|by apply Hb1, Hco].
      rewrite <- Hb2 by (by apply Hfo). by apply Hfresh.
    + rewrite Hfr by done. apply Hb2.
      intros (l2 & cs2 & HO & Ha)%elem_of_owned_addrs.
      destruct (decide (l2 = l)) as [->|Hne].
      * assert (cs2 = cs) as -> by congruence.
        apply Hout. apply elem_of_app. by right.
      * apply Hno. apply elem_of_owned_addrs. exists l2, cs2.
        by rewrite lookup_insert_ne.
Qed.

Lemma tight_owned_eq st st' O O' B :
  tight st O B → nodes st' = nodes st →
  (∀ a, a ∈ owned_addrs O' ↔ a ∈ owned_addrs O) → tight st' O' B.
Proof.
  intros [Hb1 Hb2] Hn Heq. split.
  - intros a Ha. by apply Hb1, Heq.
  - intros a Ha. rewrite Hn. apply Hb2. intros Hin. by apply Ha, Heq.
Qed.

(** Handing cells over to a list that holds none changes no node's owner. *)
Lemma owned_transfer O dst src cs :
  dst ≠ src → O !! dst = Some [] → O !! src = Some cs →
  ∀ a, a ∈ owned_addrs (<[src:=[]]> (<[dst:=cs]> O)) ↔ a ∈ owned_addrs O.
Proof.
  intros Hne Hdst Hsrc a. rewrite !elem_of_owned_addrs. split.
  - intros (l & cs2 & HO & Ha).
    apply lookup_insert_Some in HO as [[<- <-]|[Hn1 HO]]; [by apply elem_of_nil in Ha|].
    apply lookup_insert_Some in HO as [[<- <-]|[Hn2 HO]]; eauto.
  - intros (l & cs2 & HO & Ha).
    destruct (decide (l = src)) as [->|Hn1].
    { assert (cs2 = cs) as -> by congruence.
      exists dst, cs. by rewrite lookup_insert_ne, lookup_insert_eq. }
    destruct (decide (l = dst)) as [->|Hn2].
    { assert (cs2 = []) as -> by congruence. by apply elem_of_nil in Ha. }
    exists l, cs2. by rewrite !lookup_insert_ne.
Qed.

Lemma fst_insert_at_elem (cs : list cell) (n : nat) (c : cell) a :
  a ∈ [c.1] ++ cs.*1 → a ∈ (take n cs ++ c :: drop n cs).*1.
Proof.
  intros Ha. rewrite fmap_app, fmap_cons. apply elem_of_app in Ha as [Ha|Ha].
  - apply list_elem_of_singleton in Ha as ->. apply elem_of_app. right. left.
  - rewrite <- (take_drop n cs), fmap_app in Ha.
    apply elem_of_app in Ha as [?|?]; apply elem_of_app; [by left|right; by right].
Qed.

Lemma fst_delete_gone (cs : list cell) (n : nat) b :
  b ∈ cs.*1 → b ∉ (delete n cs).*1 → ∃ v, cs !! n = Some (b, v).
Proof.
  intros Hin Hout. apply list_elem_of_fmap in Hin as ([b' v] & -> & Hin). simpl in *.
  apply list_elem_of_lookup in Hin as [k Hk].
  destruct (decide (k = n)) as [->|Hne]; [by exists v|].
  exfalso. apply Hout. apply list_elem_of_fmap. exists (b', v). split; [done|].
  apply list_elem_of_lookup.
  destruct (decide (k < n)%nat) as [Hlt|Hge].
  - exists k. by rewrite list_lookup_delete_lt.
  - exists (pred k). rewrite list_lookup_delete_ge by lia.
    by replace (S (pred k)) with k by lia.
Qed.

(** *** One step *)

Lemma tracks_single P st O B l cs fresh L' h' im' cs' r :
  world_inv st O → O !! l = Some cs →
  r = Ok tt (mkState (<[l:=L']> (lists st)) h' im') →
  dom im' = dom (ints st) →
  rep_list h' L' cs' → frame_outside (fresh ++ cs.*1) (nodes st) h' →
  (∀ a, a ∈ fresh → nodes st !! a = None ∧ 0 < a < SIZE_MOD) →
  (∀ a, a ∈ cs'.*1 → a ∈ fresh ∨ a ∈ cs.*1) →
  (P → ∀ a, a ∈ fresh ++ cs.*1 → a ∉ cs'.*1 → h' !! a = None) →
  tracks P [l] st O B r (set_seq l (cs'.*2) (abs O im')).
Proof.
  intros Hw Hcs -> Hdom Hrep Hfr Hfresh Hsub Hrel. right.
  eexists _, (<[l:=cs']> O). split; [done|]. split; [by eapply world_step|].
  split; [by apply dom_insert_live|]. split; [done|]. split; [|split].
  - intros l2 Hl2. apply lookup_insert_ne. intros ->. apply Hl2. left.
  - by rewrite abs_insert.
  - intros HP Ht. eapply tight_step; eauto.
Qed.

Lemma tracks_same P ws st O B im' r :
  world_inv st O → r = Ok tt (mkState (lists st) (nodes st) im') →
  dom im' = dom (ints st) → tracks P ws st O B r (abs O im').
Proof.
  intros Hw -> Hdom. right. exists (mkState (lists st) (nodes st) im'), O.
  split; [done|]. split; [|done]. eapply world_inv_ints. by rewrite state_eta.
Qed.

Lemma tracks_weaken P Q ws ws' st O B r m :
  tracks P ws st O B r m → (∀ l, l ∈ ws → l ∈ ws') → (Q → P) →
  tracks Q ws' st O B r m.
Proof.
  intros [Hf|(st' & O' & Hrun & Hw & Hd & Hi & Hk & Hm & Ht)] Hsub HQ; [by left|].
  right. exists st', O'. repeat (split; [done|]). split; [|split; [done|]].
  - intros l Hl. apply Hk. intros Hin. by apply Hl, Hsub.
  - intros HQ'. by apply Ht, HQ.
Qed.

Lemma tracks_to P ws st O B r m m' :
  tracks P ws st O B r m → m = m' → tracks P ws st O B r m'.
Proof. by intros ? <-. Qed.

Lemma insert_at_fmap (cs : list cell) i v p :
  0 <= i <= Z.of_nat (length cs) →
  (take (Z.to_nat i) cs ++ (p, v) :: drop (Z.to_nat i) cs).*2 = insert_at i v (cs.*2).
Proof.
  intros Hi. unfold insert_at. rewrite length_fmap.
  assert ((i >? Z.of_nat (length cs)) = false) as -> by lia.
  by rewrite fmap_app, fmap_cons, fmap_take, fmap_drop.
Qed.

Lemma insert_at_reject (xs : list Z) i v :
  Z.of_nat (length xs) < i → insert_at i v xs = xs.
Proof. intros Hi. unfold insert_at. by assert ((i >? Z.of_nat (length xs)) = true) as -> by lia. Qed.

Lemma erase_at_fmap (cs : list cell) i :
  0 <= i < Z.of_nat (length cs) → (delete (Z.to_nat i) cs).*2 = erase_at i (cs.*2).
Proof.
  intros Hi. unfold erase_at. rewrite length_fmap.
  assert ((i >=? Z.of_nat (length cs)) = false) as -> by lia.
  by rewrite list_fmap_delete.
Qed.

Lemma erase_at_reject (xs : list Z) i :
  Z.of_nat (length xs) <= i → erase_at i xs = xs.
Proof. intros Hi. unfold erase_at. by assert ((i >=? Z.of_nat (length xs)) = true) as -> by lia. Qed.

Lemma C_single_op_tracks o l st O B :
  world_inv st O → C_op_wf (dom O) (dom (ints st)) o →
  match o with
  | C.Copy _ _ | C.MoveFrom _ _ | C.MoveAssign _ _ => False
  | _ => C.writes o = [l]
  end →
  tracks (C_keeps_nodes o (abs O (ints st)) = true) [l] st O B
    (C.run_op o st) (C_seq_step o (abs O (ints st))).
Proof.
  intros Hw (Hls & Hout & Hidx) Hsingle.
  assert (l ∈ dom O) as Hdom.
  { apply Hls. destruct o; simpl in *; try done; injection Hsingle as ->; left. }
  destruct (owned_list _ _ _ Hw Hdom) as (cs & L & Hcs & Hl & HL & Hrep & Hok).
  apply out_ok_dom in Hout.
  pose proof (seq_at_abs O (ints st) l cs Hcs) as Hseq.
  destruct o as [l'|l'|l'|l'|l' v|l' v|l' out|l' out|l' out|l' i v|l' i| | |];
    simpl in Hsingle, Hout, Hidx; try done; injection Hsingle as ->;
    simpl C.run_op; simpl C_seq_step; rewrite ?Hseq.
  - (* Init *)
    eapply tracks_to.
    { eapply (tracks_single _ _ _ _ _ _ [] _ _ _ []);
        [done..|by eapply ll_init_Ok|done| | | | |];
        [apply rep_list_nil|apply frame_outside_refl|by intros a Ha%elem_of_nil..|].
      intros Hp a Ha _. apply (seq_nil_cells O (ints st) l cs Hcs) in Hp as ->.
      by apply elem_of_nil in Ha. }
    done.
  - (* Clear *)
    eapply tracks_to.
    { eapply (tracks_single _ _ _ _ _ _ [] _ _ _ []);
        [done..|by eapply ll_clear_Ok|done| | | | |];
        [apply rep_list_nil|apply frame_outside_free_all|by intros a Ha%elem_of_nil..|].
      intros _ a Ha _. simpl in Ha. rewrite lookup_free_all. by rewrite decide_True. }
    done.
  - (* Empty *)
    eapply tracks_same; [done| |reflexivity].
    rewrite state_eta. eapply bind_ret_tt. by eapply ll_empty_Ok.
  - (* Size *)
    eapply tracks_same; [done| |reflexivity].
    rewrite state_eta. eapply bind_ret_tt. by eapply ll_size_Ok.
  - (* PushFront *)
    destruct (alloc (nodes st)) as [[p j]|] eqn:Ha; [|left; by apply ll_push_front_Fault].
    destruct (ll_push_front_Ok l v st L cs p j) as (Hrun & Hrep' & Hfr); try done.
    eapply tracks_to.
    { eapply (tracks_single _ _ _ _ _ _ [p]);
        [done..|exact Hrun|done|exact Hrep'|exact Hfr| | |].
      + intros a ->%list_elem_of_singleton.
        split; [by eapply alloc_fresh|by eapply alloc_range].
      + intros a Ha'. simpl in Ha'. apply elem_of_cons in Ha' as [->|?]; [left; left|by right].
      + intros _ a Ha' Hn. by destruct Hn. }
    done.
  - (* PushBack *)
    destruct (alloc (nodes st)) as [[p j]|] eqn:Ha; [|left; by apply ll_push_back_Fault].
    destruct (ll_push_back_Ok l v st L cs p j) as (Hrun & Hrep' & Hfr); try done.
    eapply tracks_to.
    { eapply (tracks_single _ _ _ _ _ _ [p]);
        [done..|exact Hrun|done|exact Hrep'|exact Hfr| | |].
      + intros a ->%list_elem_of_singleton.
        split; [by eapply alloc_fresh|by eapply alloc_range].
      + intros a Ha'. rewrite fmap_app in Ha'.
        apply elem_of_app in Ha' as [?|Hp]; [by right|].
        apply list_elem_of_singleton in Hp as ->. left. left.
      + intros _ a Ha' Hn. destruct Hn. rewrite fmap_app. simpl in Ha'.
        apply elem_of_cons in Ha' as [->|?]; apply elem_of_app; [right; left|by left]. }
    by rewrite fmap_app.
  - (* PopFront *)
    destruct cs as [|[a v] cs]; simpl.
    + eapply tracks_same; [done| |reflexivity].
      rewrite state_eta. eapply bind_ret_tt. by eapply ll_pop_front_empty.
    + destruct (ll_pop_front_Ok l out st L a v cs) as (L' & Hrun & Hrep' & _); try done.
      eapply tracks_to.
      { eapply (tracks_single _ _ _ _ _ _ []);
          [done..|by eapply bind_ret_tt|by apply dom_write_out|exact Hrep'| | | |].
        * apply frame_outside_delete. left.
        * by intros b Hb%elem_of_nil.
        * intros b Hb. right. by right.
        * intros _ b Hb Hn. simpl in Hb.
          apply elem_of_cons in Hb as [->|Hb]; [apply lookup_delete_eq|done]. }
      done.
  - (* Front *)
    destruct cs as [|[a v] cs]; simpl.
    + eapply tracks_same; [done| |reflexivity].
      rewrite state_eta. eapply bind_ret_tt. by eapply ll_front_empty.
    + eapply tracks_to.
      { eapply tracks_same; [done| |by apply (dom_write_out out v)].
        eapply bind_ret_tt. by eapply ll_front_Ok. }
      done.
  - (* Back *)
    destruct cs as [|[t w] cs _] using rev_ind.
    + simpl. eapply tracks_same; [done| |reflexivity].
      rewrite state_eta. eapply bind_ret_tt. by eapply ll_back_empty.
    + rewrite fmap_snoc, last_snoc. simpl.
      eapply tracks_to.
      { eapply tracks_same; [done| |by apply (dom_write_out out w)].
        eapply bind_ret_tt. by eapply ll_back_Ok. }
      done.
  - (* Insert *)
    pose proof Hrep as (_ & _ & Hs).
    destruct (Z_lt_le_dec (size_ L) i) as [Hlt|Hle].
    { rewrite insert_at_reject by (rewrite length_fmap; lia).
      rewrite (set_seq_id O _ l cs) by done.
      eapply tracks_same; [done| |reflexivity].
      rewrite state_eta. eapply bind_ret_tt. by eapply ll_insert_reject. }
    destruct (alloc (nodes st)) as [[p j]|] eqn:Ha.
    2:{ left. apply bind_Fault. eapply ll_insert_Fault; [done..|lia]. }
    destruct (ll_insert_Ok l i v st L cs p j) as (L' & h' & Hrun & Hrep' & Hfr);
      [done..|lia|].
    eapply tracks_to.
    { eapply (tracks_single _ _ _ _ _ _ [p]);
        [done..|by eapply bind_ret_tt|done|exact Hrep'|exact Hfr| | |].
      + intros a ->%list_elem_of_singleton.
        split; [by eapply alloc_fresh|by eapply alloc_range].
      + intros a Ha'. by apply fst_insert_at in Ha'.
      + intros _ a Ha' Hn. destruct Hn. by apply (fst_insert_at_elem cs _ (p, v)). }
    rewrite insert_at_fmap by lia. done.
  - (* Erase *)
    pose proof Hrep as (_ & _ & Hs).
    destruct (Z_lt_le_dec i (size_ L)) as [Hlt|Hle].
    2:{ rewrite erase_at_reject by (rewrite length_fmap; lia).
        rewrite (set_seq_id O _ l cs) by done.
        eapply tracks_same; [done| |reflexivity].
        rewrite state_eta. eapply bind_ret_tt. by eapply ll_erase_reject. }
    destruct (ll_erase_frees l i st L cs) as (L' & h' & Hrun & Hrep' & Hfr & Hfree);
      [done..|lia|].
    eapply tracks_to.
    { eapply (tracks_single _ _ _ _ _ _ []);
        [done..|by eapply bind_ret_tt|done|exact Hrep'|exact Hfr| | |].
      + by intros b Hb%elem_of_nil.
      + intros a Ha'. by apply fst_delete_at in Ha'.
      + intros _ b Hb Hn. simpl in Hb.
        destruct (fst_delete_gone _ _ _ Hb Hn) as [w Hw']. by eapply Hfree. }
    rewrite erase_at_fmap by lia. done.
Qed.

(** *** Copies and moves *)

Lemma C_Copy_tracks dst src st O B :
  world_inv st O → dst ∈ dom O → src ∈ dom O →
  tracks (C_keeps_nodes (C.Copy dst src) (abs O (ints st)) = true) [dst] st O B
    (C.run_op (C.Copy dst src) st) (C_seq_step (C.Copy dst src) (abs O (ints st))).
Proof.
  intros Hw Hdst Hsrc.
  destruct (owned_list _ _ _ Hw Hsrc) as (csS & S & HcsS & Hsnz & HS & HrepS & Hok).
  destruct (owned_list _ _ _ Hw Hdst) as (csD & D & HcsD & Hdnz & HD & HrepD & _).
  simpl C.run_op. simpl C_seq_step. simpl C_keeps_nodes.
  rewrite (seq_at_abs O _ src csS) by done.
  destruct (ll_copy_spec src st S csS) as
    [Hfault|(Lc & h' & cs' & Hrun & Hrep' & Hval & Hfr & Hnew & Hok')]; try done.
  { left. by apply bind_Fault. }
  rewrite <- Hval.
  eapply (tracks_single _ _ _ _ dst csD (cs'.*1) Lc h' (ints st) cs'); try done.
  - erewrite bind_Ok by exact Hrun. by erewrite store_list_Ok.
  - eapply frame_outside_weaken; [exact Hfr|]. intros a Ha.
    apply elem_of_app in Ha as [Ha|Ha]; [|by apply elem_of_nil in Ha].
    apply elem_of_app. by left.
  - intros a Ha. split; [by apply Hnew|].
    destruct Hrep' as (Hc' & _). by apply (lseg_range _ _ _ _ _ Hok' Hc').
  - intros a Ha. by left.
  - intros Hp a Ha Hn. apply (seq_nil_cells O (ints st) dst csD HcsD) in Hp as ->.
    apply elem_of_app in Ha as [?|Ha]; [done|]. by apply elem_of_nil in Ha.
Qed.

Lemma C_MoveFrom_tracks dst src st O B :
  world_inv st O → dst ∈ dom O → src ∈ dom O →
  tracks (C_keeps_nodes (C.MoveFrom dst src) (abs O (ints st)) = true) [dst; src] st O B
    (C.run_op (C.MoveFrom dst src) st)
    (C_seq_step (C.MoveFrom dst src) (abs O (ints st))).
Proof.
  intros Hw Hdst Hsrc. simpl C_seq_step. simpl C_keeps_nodes.
  destruct (Z.eqb_spec dst src) as [->|Hne].
  - destruct (owned_list _ _ _ Hw Hsrc) as (csS & S & HcsS & Hsnz & HS & HrepS & Hok).
    eapply tracks_same; [done| |reflexivity].
    simpl. erewrite bind_Ok by (by eapply ll_move_from_Ok).
    erewrite store_list_Ok; [|done|apply lookup_insert_eq].
    f_equal. unfold with_lists. simpl. f_equal.
    by rewrite insert_insert_eq, insert_id.
  - destruct (owned_list _ _ _ Hw Hdst) as (csD & D & HcsD & Hdnz & HD & HrepD & _).
    apply elem_of_dom in Hsrc as [cs Hcs].
    destruct (C_MoveFrom_spec dst src st O cs Hw Hdst Hcs Hne) as (S & HS & Hrun & Hw1).
    right. eexists _, _. split; [exact Hrun|]. split; [exact Hw1|].
    split; [|split; [done|split; [|split]]].
    + rewrite !dom_insert_live; [done|by apply elem_of_dom|].
      rewrite lookup_insert_ne by done. by eexists.
    + intros l Hl. rewrite !lookup_insert_ne; [done| |].
      * intros ->. apply Hl. left.
      * intros ->. apply Hl. right. left.
    + simpl. unfold transfer. rewrite (seq_at_abs O _ src cs) by done.
      by rewrite !abs_insert.
    + simpl. intros Hp Ht. apply (seq_nil_cells O (ints st) dst csD HcsD) in Hp as ->.
      eapply tight_owned_eq; [exact Ht|done|]. by apply owned_transfer.
Qed.

Lemma C_MoveAssign_tracks dst src st O B :
  world_inv st O → dst ∈ dom O → src ∈ dom O →
  tracks True [dst; src] st O B (C.run_op (C.MoveAssign dst src) st)
    (C_seq_step (C.MoveAssign dst src) (abs O (ints st))).
Proof.
  intros Hw Hdst Hsrc.
  destruct (owned_list _ _ _ Hw Hsrc) as (csS & S & HcsS & Hsnz & HS & HrepS & Hok).
  destruct (owned_list _ _ _ Hw Hdst) as (csD & D & HcsD & Hdnz & HD & HrepD & _).
  simpl C.run_op. simpl C_seq_step. unfold transfer.
  rewrite (seq_at_abs O _ src csS) by done.
  destruct (decide (dst = src)) as [->|Hne].
  - assert (csD = csS) as -> by congruence. assert (D = S) as -> by congruence.
    rewrite set_seq_twice.
    eapply tracks_weaken; [| |done].
    + eapply tracks_to.
      { eapply (tracks_single True _ _ _ src csS [] _ _ _ []);
          [done..|by eapply ll_move_assign_from_self|done| | | | |];
          [apply rep_list_nil|apply frame_outside_free_all|by intros a Ha%elem_of_nil..|].
        intros _ a Ha _. simpl in Ha. rewrite lookup_free_all. by rewrite decide_True. }
      done.
    + intros l Hl. apply elem_of_cons. by right.
  - set (st1 := mkState (<[dst:=mkList NULL NULL 0]> (lists st))
                  (free_all (csD.*1) (nodes st)) (ints st)).
    assert (world_inv st1 (<[dst:=[]]> O)) as Hw1.
    { eapply (world_step st O dst csD []); [done..|apply rep_list_nil| | |].
      - apply frame_outside_free_all.
      - by intros a Ha%elem_of_nil.
      - by intros a Ha%elem_of_nil. }
    assert (tight st O B → tight st1 (<[dst:=[]]> O) B) as Ht1.
    { intros Ht. eapply (tight_step st O B dst csD []); [done..| | | |].
      - apply frame_outside_free_all.
      - by intros a Ha%elem_of_nil.
      - by intros a Ha%elem_of_nil.
      - intros a Ha _. simpl in Ha. rewrite lookup_free_all. by rewrite decide_True. }
    pose proof (world_transfer _ _ dst src csS S Hw1 Hne) as Hw2.
    pose proof (owned_transfer (<[dst:=[]]> O) dst src csS Hne) as Hown.
    simpl in Hw2. rewrite insert_insert_eq in Hw2.
    rewrite (insert_insert_eq O) in Hw2, Hown.
    right. eexists _, _. split; [by eapply ll_move_assign_from_Ok|].
    split; [apply Hw2|].
    + rewrite dom_insert_live; [done|by apply elem_of_dom].
    + by rewrite lookup_insert_ne.
    + by rewrite lookup_insert_ne.
    + split; [|split; [done|split; [|split]]].
      * rewrite !dom_insert_live; [done|by apply elem_of_dom|].
        rewrite !lookup_insert_ne by done. by eexists.
      * intros l Hl. rewrite !lookup_insert_ne; [done| |].
        -- intros ->. apply Hl. left.
        -- intros ->. apply Hl. right. left.
      * simpl. by rewrite !abs_insert.
      * intros _ Ht. eapply tight_owned_eq; [exact (Ht1 Ht)|done|].
        apply Hown; [apply lookup_insert_eq|by rewrite lookup_insert_ne].
Qed.

Lemma C_run_op_tracks o st O B :
  world_inv st O → C_op_wf (dom O) (dom (ints st)) o →
  tracks (C_keeps_nodes o (abs O (ints st)) = true) (C.writes o) st O B
    (C.run_op o st) (C_seq_step o (abs O (ints st))).
Proof.
  intros Hw Hwf. pose proof Hwf as (Hls & _).
  destruct o as [l|l|l|l|l v|l v|l out|l out|l out|l i v|l i|dst src|dst src|dst src];
    try (by apply (C_single_op_tracks _ l)).
  - apply C_Copy_tracks; [done|apply Hls..]; simpl; [left|right; left].
  - apply C_MoveFrom_tracks; [done|apply Hls..]; simpl; [left|right; left].
  - eapply tracks_weaken; [apply C_MoveAssign_tracks|done|done];
      [done|apply Hls..]; simpl; [left|right; left].
Qed.

(** *** Whole programs *)

Lemma tracks_seq P1 P2 ws1 ws2 st O B (c1 c2 : M unit) m1 m2 :
  tracks P1 ws1 st O B (c1 st) m1 →
  (∀ st1 O1, world_inv st1 O1 → dom O1 = dom O → dom (ints st1) = dom (ints st) →
     abs O1 (ints st1) = m1 → tracks P2 ws2 st1 O1 B (c2 st1) m2) →
  tracks (P1 ∧ P2) (ws1 ++ ws2) st O B ((c1;; c2) st) m2.
Proof.
  intros [Hf|(st1 & O1 & Hrun & Hw1 & Hd1 & Hi1 & Hk1 & Hm1 & Ht1)] Hc2.
  { left. by apply bind_Fault. }
  erewrite bind_Ok by exact Hrun.
  destruct (Hc2 st1 O1 Hw1 Hd1 Hi1 Hm1)
    as [Hf|(st2 & O2 & Hrun2 & Hw2 & Hd2 & Hi2 & Hk2 & Hm2 & Ht2)]; [by left|].
  right. exists st2, O2. split; [done|]. split; [done|].
  split; [congruence|]. split; [congruence|]. split; [|split; [done|]].
  - intros l Hl. rewrite Hk2, Hk1; [done| |].
    + intros Hin. apply Hl. apply elem_of_app. by left.
    + intros Hin. apply Hl. apply elem_of_app. by right.
  - intros [HP1 HP2] Ht. by apply Ht2, Ht1.
Qed.

Lemma C_run_tracks os st O B :
  world_inv st O → Forall (C_op_wf (dom O) (dom (ints st))) os →
  tracks (C_leak_free os (abs O (ints st)) = true) (concat (C.writes <$> os)) st O B
    (C.run os st) (C_seq_run os (abs O (ints st))).
Proof.
  revert st O. induction os as [|o os IH]; intros st O Hw Hwf.
  - eapply tracks_same; [done| |reflexivity]. by rewrite state_eta.
  - apply Forall_cons in Hwf as [Ho Hos]. simpl C.run. simpl concat.
    eapply tracks_weaken; [|done|].
    + eapply (tracks_seq _ (C_leak_free os (C_seq_step o (abs O (ints st))) = true));
        [by apply C_run_op_tracks|].
      intros st1 O1 Hw1 Hd1 Hi1 Hm1. unfold C_seq_run. simpl foldl. rewrite <- Hm1.
      apply IH; [done|]. by rewrite Hd1, Hi1.
    + simpl. by intros [? ?]%andb_true_iff.
Qed.

(** *** The C++ steps *)

Lemma copyFrom_tracks this other st O B :
  world_inv st O → this ∈ dom O → other ∈ dom O → this ≠ other →
  O !! this = Some [] →
  tracks True [this] st O B (Cpp.copyFrom this other st)
    (set_seq this (seq_at (abs O (ints st)) other) (abs O (ints st))).
Proof.
  intros Hw Hthis Hother Hne Hempty.
  destruct (owned_list _ _ _ Hw Hother) as (cs & S & Hcs & Honz & HS & HrepS & Hok).
  destruct (owned_list _ _ _ Hw Hthis) as (ts & T & Hts & Htnz & HT & HrepT & _).
  assert (ts = []) as -> by congruence.
  rewrite (seq_at_abs O _ other cs) by done.
  destruct (copyFrom_spec this other st T S [] cs) as
    [Hf|(T' & h' & ts' & Hrun & Hrep' & Hval & Hfr & Hnew & Hok')]; try done.
  { intros a _ Ha. by apply elem_of_nil in Ha. }
  { by left. }
  rewrite <- Hval.
  eapply (tracks_single _ _ _ _ this [] (ts'.*1) T' h' (ints st) ts'); try done.
  - intros a Ha. split; [by apply Hnew|].
    destruct Hrep' as (Hc' & _). by apply (lseg_range _ _ _ _ _ Hok' Hc').
  - intros a Ha. by left.
  - intros _ a Ha Hn. apply elem_of_app in Ha as [?|Ha]; [done|]. by apply elem_of_nil in Ha.
Qed.

Lemma reset_then_copy_tracks P this other st O B (reset : M unit) :
  world_inv st O → this ∈ dom O → other ∈ dom O → this ≠ other →
  tracks P [this] st O B (reset st) (set_seq this [] (abs O (ints st))) →
  tracks P [this] st O B ((reset;; Cpp.copyFrom this other) st)
    (set_seq this (seq_at (abs O (ints st)) other) (abs O (ints st))).
Proof.
  intros Hw Hthis Hother Hne Hreset.
  eapply tracks_weaken.
  - eapply (tracks_seq P True); [exact Hreset|].
    intros st1 O1 Hw1 Hd1 Hi1 Hm1.
    eapply tracks_to.
    { apply copyFrom_tracks; [done|by rewrite Hd1..|done|by eapply abs_nil]. }
    rewrite Hm1, set_seq_twice. by rewrite seq_at_set_ne.
  - intros l Hl. by apply elem_of_app in Hl as [?|?].
  - done.
Qed.

Ltac c_wf :=
  split; [|split];
  [ first [ done | intros ? ?; set_solver ]
  | first [ by left | by right | done ]
  | first [ done | simpl; unfold SIZE_MOD; lia ] ].

Lemma Cpp_run_op_tracks o st O B :
  world_inv st O → Cpp_op_wf (dom O) (dom (ints st)) o →
  tracks_or_lost (Cpp_keeps_nodes o (abs O (ints st)) = true) (Cpp.writes o) st O B
    (Cpp.run_op o st) (Cpp_seq_step o (abs O (ints st))).
Proof.
  intros Hw (Hls & Hout & Hidx).
  assert (∀ l, l ∈ Cpp.lists_of o → ∃ cs L, O !! l = Some cs ∧ l ≠ NULL ∧
            lists st !! l = Some L ∧ rep_list (nodes st) L cs ∧ heap_ok (nodes st)) as Hown.
  { intros l Hl. by apply owned_list, Hls. }
  destruct o as [this|this other|this other|this other|this other|this|this|this|this
                |this v|this v|this out|this|this|this i v|this i|this];
    simpl in Hls, Hout, Hidx, Hown; simpl Cpp.writes; simpl Cpp.run_op;
    simpl Cpp_seq_step; simpl Cpp_keeps_nodes; unfold tracks_or_lost.
  - (* Ctor *)
    apply (C_single_op_tracks (C.Init this) this); [done|c_wf|done].
  - (* CopyCtor *)
    destruct (Hown this) as (ts & T & Hts & Htnz & HT & HrepT & Hok); [left|].
    destruct (Z.eqb_spec this other) as [<-|Hne].
    + eapply tracks_to.
      { eapply (tracks_single _ _ _ _ _ _ [] _ _ _ []);
          [done..|by eapply copy_ctor_self|done| | | | |];
          [apply rep_list_nil|apply frame_outside_refl|by intros a Ha%elem_of_nil..|].
        intros Hp a Ha _. apply (seq_nil_cells O (ints st) this ts Hts) in Hp as ->.
        by apply elem_of_nil in Ha. }
      done.
    + apply reset_then_copy_tracks; [done|apply Hls; left|apply Hls; right; left|done|].
      apply (C_single_op_tracks (C.Init this) this); [done|c_wf|done].
  - (* MoveCtor *)
    destruct (Hown this) as (ts & T & Hts & Htnz & HT & HrepT & Hok); [left|].
    destruct (Hown other) as (cs & S & Hcs & Honz & HS & HrepS & _); [right; left|].
    unfold transfer. rewrite (seq_at_abs O _ other cs) by done.
    destruct (decide (this = other)) as [<-|Hne].
    + rewrite set_seq_twice. eapply tracks_weaken; [| |done].
      * eapply tracks_to.
        { eapply (tracks_single _ _ _ _ this ts [] _ _ _ []);
            [done..|by eapply move_ctor_self|done| | | | |];
            [apply rep_list_nil|apply frame_outside_refl|by intros a Ha%elem_of_nil..|].
          intros Hp a Ha _. apply (seq_nil_cells O (ints st) this ts Hts) in Hp as ->.
          by apply elem_of_nil in Ha. }
        done.
      * intros l Hl. apply elem_of_cons. by right.
    + right. eexists _, (<[other:=[]]> (<[this:=cs]> O)).
      split; [by eapply move_ctor_Ok|]. split; [apply world_transfer; try done|].
      { apply Hls. left. }
      split; [|split; [done|split; [|split]]].
      * rewrite !dom_insert_live; [done|by eexists|].
        rewrite lookup_insert_ne by done. by eexists.
      * intros l Hl. rewrite !lookup_insert_ne; [done| |].
        -- intros ->. apply Hl. left.
        -- intros ->. apply Hl. right. left.
      * simpl. by rewrite !abs_insert.
      * simpl. intros Hp Ht. apply (seq_nil_cells O (ints st) this ts Hts) in Hp as ->.
        eapply tight_owned_eq; [exact Ht|done|]. by apply owned_transfer.
  - (* CopyAssign *)
    destruct (Hown this) as (ts & T & Hts & Htnz & HT & HrepT & Hok); [left|].
    destruct (Z.eqb_spec this other) as [<-|Hne].
    + eapply tracks_same; [done| |reflexivity]. by rewrite state_eta, copy_assign_self.
    + unfold Cpp.copy_assign.
      assert ((this =? other) = false) as -> by (by apply Z.eqb_neq).
      cbv beta iota delta [negb].
      apply reset_then_copy_tracks; [done|apply Hls; left|apply Hls; right; left|done|].
      rewrite clear_eq.
      apply (C_single_op_tracks (C.Clear this) this); [done|c_wf|done].
  - (* MoveAssign *)
    destruct (Hown this) as (ts & T & Hts & Htnz & HT & HrepT & Hok); [left|].
    destruct (Hown other) as (cs & S & Hcs & Honz & HS & HrepS & _); [right; left|].
    destruct (Z.eqb_spec this other) as [<-|Hne].
    + eapply tracks_same; [done| |reflexivity]. by rewrite state_eta, move_assign_self.
    + erewrite move_assign_eq by done.
      eapply tracks_weaken; [apply (C_MoveAssign_tracks this other)|done|done];
        [done|apply Hls..]; [left|right; left].
  - (* Dtor *)
    unfold Cpp.dtor. rewrite clear_eq.
    apply (C_single_op_tracks (C.Clear this) this); [done|c_wf|done].
  - (* Empty *)
    destruct (Hown this) as (ts & T & Hts & Htnz & HT & HrepT & Hok); [left|].
    eapply tracks_same; [done| |reflexivity].
    rewrite state_eta. eapply bind_ret_tt. by eapply empty_Ok.
  - (* Size *)
    apply (C_single_op_tracks (C.Size this) this); [done|c_wf|done].
  - (* Clear *)
    rewrite clear_eq.
    apply (C_single_op_tracks (C.Clear this) this); [done|c_wf|done].
  - (* PushFront *)
    destruct (Hown this) as (ts & T & Hts & Htnz & HT & HrepT & Hok); [left|].
    erewrite push_front_eq by done.
    apply (C_single_op_tracks (C.PushFront this v) this); [done|c_wf|done].
  - (* PushBack *)
    rewrite push_back_eq.
    apply (C_single_op_tracks (C.PushBack this v) this); [done|c_wf|done].
  - (* PopFront *)
    destruct (Hown this) as (ts & T & Hts & Htnz & HT & HrepT & Hok); [left|].
    destruct (Hout out eq_refl) as [Honz Hoin].
    rewrite (bind_eq _ (as_bool (C.ll_pop_front this out)) _ (λ _, ret tt));
      [|eapply pop_front_eq; [done..|by apply elem_of_dom]|done].
    rewrite as_bool_ret_tt.
    apply (C_single_op_tracks (C.PopFront this out) this); [done|c_wf|done].
  - (* Front *)
    destruct (Hown this) as (ts & T & Hts & Htnz & HT & HrepT & Hok); [left|].
    rewrite (seq_at_abs O _ this ts) by done.
    destruct ts as [|[a v] ts]; simpl.
    + right. apply bind_Fault. by eapply front_empty.
    + eapply tracks_same; [done| |reflexivity].
      rewrite state_eta. eapply bind_ret_tt. by eapply front_Ok.
  - (* Back *)
    destruct (Hown this) as (ts & T & Hts & Htnz & HT & HrepT & Hok); [left|].
    rewrite (seq_at_abs O _ this ts) by done.
    destruct ts as [|[t w] ts _] using rev_ind.
    + right. apply bind_Fault. by eapply back_empty.
    + rewrite fmap_snoc. destruct (ts.*2); simpl;
        (eapply tracks_same; [done| |reflexivity];
         rewrite state_eta; eapply bind_ret_tt; by eapply back_Ok).
  - (* Insert *)
    destruct (Hown this) as (ts & T & Hts & Htnz & HT & HrepT & Hok); [left|].
    rewrite (bind_eq _ (as_bool (C.ll_insert this i v)) _ (λ _, ret tt));
      [|eapply insert_eq; [done..|lia]|done].
    rewrite as_bool_ret_tt.
    apply (C_single_op_tracks (C.Insert this i v) this); [done|c_wf|done].
  - (* Erase *)
    destruct (Hown this) as (ts & T & Hts & Htnz & HT & HrepT & Hok); [left|].
    rewrite (bind_eq _ (as_bool (C.ll_erase this i)) _ (λ _, ret tt));
      [|eapply erase_eq; [done..|lia]|done].
    rewrite as_bool_ret_tt.
    apply (C_single_op_tracks (C.Erase this i) this); [done|c_wf|done].
  - (* ToVector *)
    destruct (Hown this) as (ts & T & Hts & Htnz & HT & HrepT & Hok); [left|].
    eapply tracks_same; [done| |reflexivity].
    rewrite state_eta. eapply bind_ret_tt. by eapply toVector_Ok.
Qed.

Lemma Cpp_run_tracks os st O B :
  world_inv st O → Forall (Cpp_op_wf (dom O) (dom (ints st))) os →
  tracks_or_lost (Cpp_leak_free os (abs O (ints st)) = true)
    (concat (Cpp.writes <$> os)) st O B (Cpp.run os st)
    (Cpp_seq_run os (abs O (ints st))).
Proof.
  revert st O. induction os as [|o os IH]; intros st O Hw Hwf.
  - eapply tracks_same; [done| |reflexivity]. by rewrite state_eta.
  - apply Forall_cons in Hwf as [Ho Hos]. simpl Cpp.run. simpl concat.
    pose proof (Cpp_run_op_tracks o st O B Hw Ho) as Hstep.
    simpl Cpp_seq_run. simpl Cpp_leak_free.
    destruct (Cpp_seq_step o (abs O (ints st))) as [m1|]; simpl in Hstep.
    2:{ destruct Hstep as [Hf|Hf]; [left|right]; by apply bind_Fault. }
    destruct Hstep as [Hf|(st1 & O1 & Hrun & Hw1 & Hd1 & Hi1 & Hk1 & Hm1 & Ht1)].
    { assert ((Cpp.run_op o;; Cpp.run os) st = Fault AllocFailure) as Hlost
        by (by apply bind_Fault).
      destruct (Cpp_seq_run os m1); simpl; by left. }
    rewrite <- Hd1, <- Hi1 in Hos.
    pose proof (IH st1 O1 Hw1 Hos) as Hrest. rewrite Hm1 in Hrest.
    erewrite bind_Ok by exact Hrun.
    destruct (Cpp_seq_run os m1) as [m2|]; simpl in *; [|done].
    destruct Hrest as [Hf|(st2 & O2 & Hrun2 & Hw2 & Hd2 & Hi2 & Hk2 & Hm2 & Ht2)]; [by left|].
    right. exists st2, O2. split; [done|]. split; [done|].
    split; [congruence|]. split; [congruence|]. split; [|split; [done|]].
    + intros l Hl. rewrite Hk2, Hk1; [done| |].
      * intros Hin. apply Hl. apply elem_of_app. by left.
      * intros Hin. apply Hl. apply elem_of_app. by right.
    + intros [HP1 HP2]%andb_true_iff Ht. by apply Ht2, Ht1.
Qed.

End Refinement.

(** * Further properties of the two implementations *)

Section Properties.
Context `{Allocator}.
Implicit Types (st : state) (L : LinkedList) (cs : list cell)
  (O : gmap Z (list cell)).


Lemma tight_start st O : tight st O (free_all (owned_addrs O) (nodes st)).
Proof.
  split; intros a Ha; rewrite lookup_free_all; [by rewrite decide_True|by rewrite decide_False].
Qed.

(** What [tight] says at the end of a run that started on [st] and [O]. *)
Lemma tight_end st O st' O' m' :
  tight st' O' (free_all (owned_addrs O) (nodes st)) → abs O' (ints st') = m' →
  dom O' = dom O →
  (∀ a, a ∉ owned_addrs O' →
     nodes st' !! a = if decide (a ∈ owned_addrs O) then None else nodes st !! a) ∧
  ((∀ l, l ∈ dom O → seq_at m' l = []) →
   nodes st' = free_all (owned_addrs O) (nodes st)).
Proof.
  intros [_ Ht] Hm Hd.
  assert (∀ a, a ∉ owned_addrs O' →
     nodes st' !! a = if decide (a ∈ owned_addrs O) then None else nodes st !! a) as Hout.
  { intros a Ha. rewrite Ht by done. apply lookup_free_all. }
  split; [done|]. intros Hempty. apply map_eq. intros a.
  rewrite lookup_free_all. apply Hout.
  intros (l & cs & HO & Ha)%elem_of_owned_addrs.
  assert (l ∈ dom O) as Hl by (rewrite <- Hd; apply elem_of_dom; by eexists).
  specialize (Hempty l Hl). rewrite <- Hm, (seq_at_abs O' _ l cs) in Hempty by done.
  apply fmap_nil_inv in Hempty as ->. by apply elem_of_nil in Ha.
Qed.



(** ** What one call does to one list *)

(** X3. [ll_clear], [clear()] and the destructor release exactly the nodes of
    the list, leave every other node alone, and leave the list empty; a
    second clear changes nothing. *)
Theorem clear_releases_the_nodes l st L cs :
  l ≠ NULL → lists st !! l = Some L → rep_list (nodes st) L cs →
  ∃ st', C.ll_clear l st = Ok tt st' ∧ Cpp.clear l st = Ok tt st' ∧
    Cpp.dtor l st = Ok tt st' ∧
    lists st' = <[l:=mkList NULL NULL 0]> (lists st) ∧ ints st' = ints st ∧
    (∀ a, nodes st' !! a = if decide (a ∈ cs.*1) then None else nodes st !! a) ∧
    C.ll_clear l st' = Ok tt st'.
Proof.
  intros Hl HL Hrep.
  pose proof (ll_clear_Ok l st L cs Hl HL Hrep) as Hrun.
  eexists. split; [exact Hrun|]. split; [by rewrite clear_eq|].
  split; [unfold Cpp.dtor; by rewrite clear_eq|].
  split; [done|]. split; [done|]. split.
  - intros a. apply lookup_free_all.
  - erewrite (ll_clear_Ok l _ (mkList NULL NULL 0) []);
      [|done|apply lookup_insert_eq|apply rep_list_nil].
    simpl. by rewrite insert_insert_eq.
Qed.

(** X4. A [push_front] followed by a [pop_front] hands back the value pushed
    and restores the list and the heap exactly: the popped node is the node
    just allocated, and the size goes up and down without wrapping. *)
Theorem push_front_pop_front_round_trip l out v st L cs p j :
  l ≠ NULL → lists st !! l = Some L → rep_list (nodes st) L cs →
  heap_ok (nodes st) → out ≠ NULL → is_Some (ints st !! out) →
  alloc (nodes st) = Some (p, j) →
  (C.ll_push_front l v;; C.ll_pop_front l out) st =
    Ok 1 (mkState (lists st) (nodes st) (<[out:=v]> (ints st))) ∧
  (Cpp.push_front l v;; Cpp.pop_front l out) st =
    Ok true (mkState (lists st) (nodes st) (<[out:=v]> (ints st))).
Proof.
  intros Hl HL Hrep Hok Hout Hlive Ha.
  destruct (ll_push_front_Ok l v st L cs p j) as (Hrun & Hrep' & Hfr); try done.
  cbv zeta in Hrun, Hrep', Hfr.
  set (L1 := mkList p (if tail_ L =? NULL then p else tail_ L) (wrap (size_ L + 1))) in *.
  set (h1 := <[p:=mkNode v (head_ L)]> (nodes st)) in *.
  set (st1 := mkState (<[l:=L1]> (lists st)) h1 (ints st)) in *.
  assert (heap_ok h1) as Hok1.
  { apply heap_ok_insert; [done|by eapply alloc_range]. }
  destruct (ll_pop_front_Ok l out st1 L1 p v cs) as (L2 & Hpop & Hrep2 & _);
    [done|apply lookup_insert_eq|done|done|by right|].
  assert (delete p h1 = nodes st) as Hheap.
  { unfold h1. apply delete_insert_id. by eapply alloc_fresh. }
  simpl in Hpop, Hrep2. rewrite Hheap in Hpop, Hrep2.
  assert (L2 = L) as -> by (by eapply rep_list_inj).
  rewrite insert_insert_eq, insert_id in Hpop by done.
  unfold write_out in Hpop.
  assert ((out =? NULL) = false) as Hnz by (by apply Z.eqb_neq).
  rewrite Hnz in Hpop.
  assert (C.ll_pop_front l out st1 = Ok 1 (mkState (lists st) (nodes st) (<[out:=v]> (ints st))))
    as Hpop' by exact Hpop.
  split.
  - by erewrite bind_Ok by exact Hrun.
  - erewrite bind_Ok.
    2:{ erewrite push_front_eq by done. exact Hrun. }
    erewrite (pop_front_eq l out st1 L1 ((p, v) :: cs));
      [|done|apply lookup_insert_eq|done|done|done|done].
    by erewrite as_bool_Ok by exact Hpop'.
Qed.

(** X5. On a non-empty list [ll_front] and [ll_back] succeed and write the
    first and the last value to [out], [front()] and [back()] return them,
    and none of the four changes the list or any node. *)
Theorem front_back_on_values l out st L a v cs :
  l ≠ NULL → lists st !! l = Some L → rep_list (nodes st) L ((a, v) :: cs) →
  out ≠ NULL → is_Some (ints st !! out) →
  let w := default v (last (cs.*2)) in
  C.ll_front l out st = Ok 1 (mkState (lists st) (nodes st) (<[out:=v]> (ints st))) ∧
  C.ll_back l out st = Ok 1 (mkState (lists st) (nodes st) (<[out:=w]> (ints st))) ∧
  Cpp.front l st = Ok v st ∧ Cpp.back l st = Ok w st.
Proof.
  intros Hl HL Hrep Hout Hlive w.
  assert ((out =? NULL) = false) as Hnz by (by apply Z.eqb_neq).
  assert (∃ xs t, (a, v) :: cs = xs ++ [(t, w)]) as (xs & t & Hsnoc).
  { unfold w. destruct cs as [|c cs _] using rev_ind.
    - by exists [], a.
    - exists ((a, v) :: cs), c.1. rewrite fmap_snoc, last_snoc. simpl. by destruct c. }
  split; [|split; [|split]].
  - erewrite ll_front_Ok; [|done|done|done|by right]. unfold write_out. by rewrite Hnz.
  - rewrite Hsnoc in Hrep.
    erewrite ll_back_Ok; [|done|done|done|by right]. unfold write_out. by rewrite Hnz.
  - by eapply front_Ok.
  - rewrite Hsnoc in Hrep. by eapply back_Ok.
Qed.

(** X6. The observers agree with the cells of the list and change nothing:
    the size is the number of nodes, the list is empty exactly when it has
    no node, and the harness's [print_list] and [toVector()] give the values
    from head to tail, as many as the size says. *)
Theorem observers_agree l st L cs :
  l ≠ NULL → lists st !! l = Some L → rep_list (nodes st) L cs →
  C.ll_size l st = Ok (Z.of_nat (length cs)) st ∧
  Cpp.size l st = Ok (Z.of_nat (length cs)) st ∧
  C.ll_empty l st = Ok (if decide (cs = []) then 1 else 0) st ∧
  Cpp.empty l st = Ok (bool_decide (cs = [])) st ∧
  C.print_list l st = Ok (cs.*2, Z.of_nat (length (cs.*2))) st ∧
  Cpp.toVector l st = Ok (cs.*2) st.
Proof.
  intros Hl HL Hrep. pose proof Hrep as (_ & _ & Hs).
  assert ((size_ L =? 0) = bool_decide (cs = [])) as Hz.
  { rewrite Hs. by destruct cs. }
  split; [|split; [|split; [|split; [|split]]]].
  - erewrite ll_size_Ok by done. by rewrite Hs.
  - rewrite size_eq. erewrite ll_size_Ok by done. by rewrite Hs.
  - erewrite ll_empty_Ok by done. rewrite Hz. by destruct cs.
  - erewrite empty_Ok by done. by rewrite Hz.
  - erewrite print_list_Ok by done. by rewrite Hs, length_fmap.
  - by eapply toVector_Ok.
Qed.

Lemma length_insert_at (cs : list cell) (n : nat) (c : cell) :
  length (take n cs ++ c :: drop n cs) = S (length cs).
Proof.
  rewrite length_app. cbn [length]. rewrite length_take, length_drop. lia.
Qed.

(** X7. [insert] at any index up to the size puts one new node, the one the
    allocator hands out, at that position; every element keeps its node and
    its value, the size grows by exactly one, no other node changes, and the
    C and C++ functions end in the same state.  Without memory both stop. *)
Theorem insert_places_one_node l i v st L cs :
  l ≠ NULL → lists st !! l = Some L → rep_list (nodes st) L cs → heap_ok (nodes st) →
  0 <= i <= Z.of_nat (length cs) →
  match alloc (nodes st) with
  | None =>
      C.ll_insert l i v st = Fault AllocFailure ∧ Cpp.insert l i v st = Fault AllocFailure
  | Some (p, _) =>
      ∃ L' h',
        C.ll_insert l i v st = Ok 1 (mkState (<[l:=L']> (lists st)) h' (ints st)) ∧
        Cpp.insert l i v st = Ok true (mkState (<[l:=L']> (lists st)) h' (ints st)) ∧
        rep_list h' L' (take (Z.to_nat i) cs ++ (p, v) :: drop (Z.to_nat i) cs) ∧
        size_ L' = size_ L + 1 ∧ nodes st !! p = None ∧
        ∀ a, a ≠ p → a ∉ cs.*1 → h' !! a = nodes st !! a
  end.
Proof.
  intros Hl HL Hrep Hok Hi.
  destruct (alloc (nodes st)) as [[p j]|] eqn:Ha.
  - destruct (ll_insert_Ok l i v st L cs p j) as (L' & h' & Hrun & Hrep' & Hfr); try done.
    exists L', h'. split; [done|]. split.
    { erewrite insert_eq by (done || lia). by erewrite as_bool_Ok by exact Hrun. }
    split; [done|]. split; [|split; [by eapply alloc_fresh|]].
    + destruct Hrep as (_ & _ & ->). destruct Hrep' as (_ & _ & ->).
      rewrite length_insert_at. lia.
    + intros a Hap Hacs. apply Hfr. intros [->|?]%elem_of_cons; done.
  - assert (C.ll_insert l i v st = Fault AllocFailure) as Hf by (by eapply ll_insert_Fault).
    split; [done|].
    erewrite insert_eq by (done || lia). by apply as_bool_Fault.
Qed.

(** X8. [erase] at any index below the size unlinks and releases exactly the
    node at that position; the other elements keep their nodes and values,
    the size drops by exactly one, no node outside the list changes, and the
    C and C++ functions end in the same state. *)
Theorem erase_releases_one_node l i st L cs :
  l ≠ NULL → lists st !! l = Some L → rep_list (nodes st) L cs → heap_ok (nodes st) →
  0 <= i < Z.of_nat (length cs) →
  ∃ a v L' h',
    cs !! Z.to_nat i = Some (a, v) ∧
    C.ll_erase l i st = Ok 1 (mkState (<[l:=L']> (lists st)) h' (ints st)) ∧
    Cpp.erase l i st = Ok true (mkState (<[l:=L']> (lists st)) h' (ints st)) ∧
    rep_list h' L' (delete (Z.to_nat i) cs) ∧
    size_ L' = size_ L - 1 ∧ h' !! a = None ∧
    ∀ b, b ∉ cs.*1 → h' !! b = nodes st !! b.
Proof.
  intros Hl HL Hrep Hok Hi.
  destruct (lookup_lt_is_Some_2 cs (Z.to_nat i)) as [[a v] Hav]; [lia|].
  destruct (ll_erase_frees l i st L cs) as (L' & h' & Hrun & Hrep' & Hfr & Hfree); try done.
  exists a, v, L', h'. split; [done|]. split; [done|]. split.
  { erewrite erase_eq by (done || lia). by erewrite as_bool_Ok by exact Hrun. }
  split; [done|]. split; [|split; [by eapply Hfree|done]].
  destruct Hrep as (_ & _ & ->). destruct Hrep' as (_ & _ & ->).
  rewrite length_delete by (by eexists). lia.
Qed.

Lemma delete_insert_at (cs : list cell) (n : nat) (c : cell) :
  (n ≤ length cs)%nat → delete n (take n cs ++ c :: drop n cs) = cs.
Proof.
  intros Hn. rewrite delete_take_drop.
  rewrite take_app_length' by (rewrite length_take; lia).
  rewrite cons_middle, app_assoc.
  rewrite drop_app_length' by (rewrite length_app, length_take; simpl; lia).
  apply take_drop.
Qed.

(** X9. [erase(i)] undoes [insert(i, v)]: for every index up to the size the
    two calls in a row succeed and leave the whole state, lists, nodes and
    [int] objects, exactly as it was. *)
Theorem insert_erase_round_trip l i v st L cs p j :
  l ≠ NULL → lists st !! l = Some L → rep_list (nodes st) L cs → heap_ok (nodes st) →
  alloc (nodes st) = Some (p, j) → 0 <= i <= Z.of_nat (length cs) →
  (C.ll_insert l i v;; C.ll_erase l i) st = Ok 1 st ∧
  (Cpp.insert l i v;; Cpp.erase l i) st = Ok true st.
Proof.
  intros Hl HL Hrep Hok Ha Hi.
  pose proof (alloc_fresh _ _ _ Ha) as Hfresh.
  pose proof (alloc_range _ _ _ Ha) as Hrange.
  destruct (ll_insert_Ok l i v st L cs p j) as (L1 & h1 & Hrun1 & Hrep1 & Hfr1); try done.
  set (cs1 := take (Z.to_nat i) cs ++ (p, v) :: drop (Z.to_nat i) cs) in *.
  set (st1 := mkState (<[l:=L1]> (lists st)) h1 (ints st)) in *.
  assert (heap_ok h1) as Hok1.
  { intros a n Hn. destruct (decide (a = p)) as [->|Hap]; [done|].
    destruct (decide (a ∈ cs.*1)) as [Hin|Hni].
    - destruct Hrep as (Hc & _). by eapply lseg_range.
    - rewrite Hfr1 in Hn; [by eapply Hok|]. by intros [->|?]%elem_of_cons. }
  assert (cs1 !! Z.to_nat i = Some (p, v)) as Hp.
  { unfold cs1. rewrite lookup_app_r by (rewrite length_take; lia).
    rewrite length_take. by replace (Z.to_nat i - Z.to_nat i `min` length cs)%nat with 0%nat by lia. }
  destruct (ll_erase_frees l i st1 L1 cs1) as (L2 & h2 & Hrun2 & Hrep2 & Hfr2 & Hfree);
    [done|apply lookup_insert_eq|done|done| |].
  { unfold cs1. rewrite length_insert_at. lia. }
  unfold cs1 in Hrep2. rewrite delete_insert_at in Hrep2 by lia. fold cs1 in Hfr2.
  assert (L2 = L) as -> by (by eapply rep_list_inj).
  assert (h2 = nodes st) as ->.
  { apply map_eq. intros a.
    destruct (decide (a = p)) as [->|Hap]; [rewrite Hfresh; by eapply Hfree|].
    destruct (decide (a ∈ cs.*1)) as [Hin|Hni].
    - destruct Hrep as (Hc & _). destruct Hrep2 as (Hc2 & _).
      by eapply lseg_determined.
    - rewrite Hfr2, Hfr1; [done|by intros [->|?]%elem_of_cons|].
      intros Hin%fst_insert_at. destruct Hin as [Hin|Hin]; [|done].
      by apply list_elem_of_singleton in Hin. }
  simpl in Hrun2. rewrite insert_insert_eq, insert_id in Hrun2 by done.
  rewrite (state_eta st) in Hrun2.
  split.
  - by erewrite bind_Ok by exact Hrun1.
  - erewrite bind_Ok.
    2:{ erewrite insert_eq by (done || lia). by erewrite as_bool_Ok by exact Hrun1. }
    erewrite (erase_eq l i st1 L1 cs1); [|done|apply lookup_insert_eq|done|done|lia].
    by erewrite as_bool_Ok by exact Hrun2.
Qed.

(** X10. [push_front] is [insert] at index 0 and [push_back] is [insert] at
    index [size]: the calls end in the same state, in C and in C++, with the
    new node first, respectively last, and the size one larger. *)
Theorem push_is_insert_at_the_ends l v st L cs p j :
  l ≠ NULL → lists st !! l = Some L → rep_list (nodes st) L cs → heap_ok (nodes st) →
  alloc (nodes st) = Some (p, j) →
  (∃ L' h', let st' := mkState (<[l:=L']> (lists st)) h' (ints st) in
     C.ll_push_front l v st = Ok tt st' ∧ Cpp.push_front l v st = Ok tt st' ∧
     C.ll_insert l 0 v st = Ok 1 st' ∧ Cpp.insert l 0 v st = Ok true st' ∧
     rep_list h' L' ((p, v) :: cs) ∧ size_ L' = size_ L + 1) ∧
  (∃ L' h', let st' := mkState (<[l:=L']> (lists st)) h' (ints st) in
     C.ll_push_back l v st = Ok tt st' ∧ Cpp.push_back l v st = Ok tt st' ∧
     C.ll_insert l (size_ L) v st = Ok 1 st' ∧ Cpp.insert l (size_ L) v st = Ok true st' ∧
     rep_list h' L' (cs ++ [(p, v)]) ∧ size_ L' = size_ L + 1).
Proof.
  intros Hl HL Hrep Hok Ha.
  pose proof Hrep as (Hc & _ & Hs).
  pose proof (chain_length_lt _ _ _ Hok Hc) as Hlen.
  split.
  - destruct (ll_push_front_Ok l v st L cs p j) as (Hrun & Hrep' & _); try done.
    cbv zeta in Hrun, Hrep'. eexists _, _. cbv zeta.
    split; [exact Hrun|]. split; [by erewrite push_front_eq|].
    assert (C.ll_insert l 0 v st = Ok 1 (mkState
      (<[l:=mkList p (if tail_ L =? NULL then p else tail_ L) (wrap (size_ L + 1))]> (lists st))
      (<[p:=mkNode v (head_ L)]> (nodes st)) (ints st))) as Hins.
    { unfold C.ll_insert. step.
      assert ((0 >? size_ L) = false) as -> by lia. simpl (0 =? 0).
      cbv beta iota. erewrite bind_Ok by exact Hrun. by step. }
    split; [exact Hins|]. split.
    { erewrite insert_eq by (done || lia). by erewrite as_bool_Ok by exact Hins. }
    split; [done|]. destruct Hrep' as (_ & _ & ->). simpl length. lia.
  - destruct (ll_push_back_Ok l v st L cs p j) as (Hrun & Hrep' & _); try done.
    cbv zeta in Hrun, Hrep'. eexists _, _. cbv zeta.
    split; [exact Hrun|]. split; [by rewrite push_back_eq|].
    assert (C.ll_insert l (size_ L) v st = Ok 1 (mkState
      (<[l:=mkList (if tail_ L =? NULL then p else head_ L) p (wrap (size_ L + 1))]> (lists st))
      (alter (set_next p) (tail_ L) (<[p:=mkNode v NULL]> (nodes st))) (ints st))) as Hins.
    { destruct (Z.eqb_spec (size_ L) 0) as [Hz|Hnz].
      - (* on an empty list index 0 takes the [push_front] branch *)
        assert (cs = []) as -> by (destruct cs; [done|simpl in Hs; lia]).
        destruct Hrep as (Hh & Ht & _). simpl in Hh. unfold last_addr in Ht. simpl in Ht.
        destruct (ll_push_front_Ok l v st L [] p j) as (Hrun' & _); try done.
        cbv zeta in Hrun'. unfold C.ll_insert. step.
        assert ((size_ L >? size_ L) = false) as -> by lia.
        assert ((size_ L =? 0) = true) as -> by lia.
        cbv beta iota. erewrite bind_Ok by exact Hrun'. step.
        rewrite Ht, Hh. rewrite Z.eqb_refl. f_equal. f_equal.
        rewrite alter_not_live; [done|].
        rewrite lookup_insert_ne; [|pose proof (alloc_range _ _ _ Ha); unfold NULL; lia].
        destruct (nodes st !! NULL) eqn:E; [|done]. apply Hok in E. unfold NULL in E. lia.
      - unfold C.ll_insert. step.
        assert ((size_ L >? size_ L) = false) as -> by lia.
        assert ((size_ L =? 0) = false) as -> by lia. step.
        rewrite Z.eqb_refl. cbv beta iota. erewrite bind_Ok by exact Hrun. by step. }
    split; [exact Hins|]. split.
    { erewrite insert_eq by (done || lia). by erewrite as_bool_Ok by exact Hins. }
    split; [done|]. destruct Hrep' as (_ & _ & ->). rewrite length_app. simpl length. lia.
Qed.

(** ** Copies and moves *)

(** X11. C++ copy assignment [a = b] between two different lists releases
    the nodes [a] held and, when the allocator then delivers a node per
    element of [b], runs to its end and gives [a] the values of [b] on nodes
    of its own; [b] and every other list keep their nodes.  Assigning a list
    to itself changes nothing. *)
Theorem copy_assign_replaces this other st O ts cs :
  world_inv st O → O !! this = Some ts → O !! other = Some cs → this ≠ other →
  can_alloc (length cs) (free_all (ts.*1) (nodes st)) →
  Cpp.copy_assign this this st = Ok tt st ∧
  ∃ st' ts', Cpp.copy_assign this other st = Ok tt st' ∧ ts'.*2 = cs.*2 ∧
    Cpp_seq this st' = Some (cs.*2) ∧ Cpp_seq other st' = Some (cs.*2) ∧
    world_inv st' (<[this:=ts']> O) ∧ ints st' = ints st ∧
    (∀ a, a ∈ ts.*1 → a ∉ ts'.*1 → nodes st' !! a = None) ∧
    (∀ a, a ∉ ts.*1 → a ∉ ts'.*1 → nodes st' !! a = nodes st !! a).
Proof.
  intros Hw Hts Hcs Hne Hcan. split; [apply copy_assign_self|].
  assert (this ∈ dom O) as Hthis by (apply elem_of_dom; by eexists).
  assert (other ∈ dom O) as Hother by (apply elem_of_dom; by eexists).
  destruct (owned_list _ _ _ Hw Hother) as (cs0 & S & Hcs0 & Honz & HS & HrepS & Hok).
  assert (cs0 = cs) as -> by congruence.
  destruct (owned_list _ _ _ Hw Hthis) as (ts0 & T & Hts0 & Htnz & HT & HrepT & _).
  assert (ts0 = ts) as -> by congruence.
  set (st0 := mkState (<[this:=mkList NULL NULL 0]> (lists st))
                (free_all (ts.*1) (nodes st)) (ints st)).
  assert (world_inv st0 (<[this:=[]]> O)) as Hw0.
  { eapply (world_step st O this ts []); [done..|apply rep_list_nil| | |];
      [apply frame_outside_free_all|by intros a Ha%elem_of_nil..]. }
  assert (Cpp.clear this st = Ok tt st0) as Hclear.
  { rewrite clear_eq. by eapply ll_clear_Ok. }
  destruct (owned_list st0 (<[this:=[]]> O) other Hw0) as (cs1 & S1 & Hcs1 & _ & HS1 & HrepS1 & Hok0).
  { rewrite dom_insert_live; [done|by eexists]. }
  rewrite lookup_insert_ne in Hcs1 by done.
  assert (cs1 = cs) as -> by congruence.
  unfold Cpp.copy_assign.
  assert ((this =? other) = false) as -> by (by apply Z.eqb_neq).
  cbv beta iota delta [negb]. erewrite bind_Ok by exact Hclear.
  destruct (copyFrom_exact this other st0 (mkList NULL NULL 0) S1 [] cs) as
    [[_ Hf]|(T' & h' & ts' & Hrun & Hrep' & Hval & Hfr & Hnew & Hok')]; try done.
  { simpl. apply lookup_insert_eq. }
  { intros a _ Ha. by apply elem_of_nil in Ha. }
  assert (world_inv (mkState (<[this:=T']> (lists st0)) h' (ints st0)) (<[this:=ts']> O)) as Hw'.
  { rewrite <- (insert_insert_eq O this ts' []).
    eapply (world_step st0 _ this [] (ts'.*1)); try done.
    + apply lookup_insert_eq.
    + intros a Ha. split; [by apply Hnew|].
      destruct Hrep' as (Hc' & _). by apply (lseg_range _ _ _ _ _ Hok' Hc').
    + intros a Ha. by left. }
  exists (mkState (<[this:=T']> (lists st0)) h' (ints st0)), ts'.
  split; [done|]. split; [done|].
  split; [rewrite <- Hval; by apply (world_seq _ _ this ts' Hw'), lookup_insert_eq|].
  split; [apply (world_seq _ _ other cs Hw'); by rewrite lookup_insert_ne|].
  split; [done|]. split; [done|]. split.
  - intros a Hold Hnew'. simpl. rewrite Hfr.
    + simpl. rewrite lookup_free_all. by rewrite decide_True.
    + rewrite app_nil_r. done.
  - intros a Hold Hnew'. simpl. rewrite Hfr.
    + simpl. rewrite lookup_free_all. by rewrite decide_False.
    + rewrite app_nil_r. done.
Qed.

(** X12. Move assignment between two different lists, in C and in C++:
    the receiver's nodes are released, the receiver takes over the source's
    very nodes (nothing is allocated or copied), and the source is left a
    valid empty list. *)
Theorem move_assign_hands_over dst src st O ds cs :
  world_inv st O → O !! dst = Some ds → O !! src = Some cs → dst ≠ src →
  ∃ S, lists st !! src = Some S ∧ rep_list (nodes st) S cs ∧
    let st' := mkState (<[src:=mkList NULL NULL 0]> (<[dst:=S]> (lists st)))
                 (free_all (ds.*1) (nodes st)) (ints st) in
    C.ll_move_assign_from dst src st = Ok tt st' ∧
    Cpp.move_assign dst src st = Ok tt st' ∧
    world_inv st' (<[src:=[]]> (<[dst:=cs]> O)) ∧
    C_seq dst st' = Some (cs.*2) ∧ C_seq src st' = Some [].
Proof.
  intros Hw Hds Hcs Hne.
  assert (dst ∈ dom O) as Hdst by (apply elem_of_dom; by eexists).
  assert (src ∈ dom O) as Hsrc by (apply elem_of_dom; by eexists).
  destruct (owned_list _ _ _ Hw Hsrc) as (cs0 & S & Hcs0 & Hsnz & HS & HrepS & Hok).
  assert (cs0 = cs) as -> by congruence.
  destruct (owned_list _ _ _ Hw Hdst) as (ds0 & D & Hds0 & Hdnz & HD & HrepD & _).
  assert (ds0 = ds) as -> by congruence.
  exists S. split; [done|]. split; [done|]. cbv zeta.
  assert (C.ll_move_assign_from dst src st =
          Ok tt (mkState (<[src:=mkList NULL NULL 0]> (<[dst:=S]> (lists st)))
                   (free_all (ds.*1) (nodes st)) (ints st))) as Hrun
    by (by eapply ll_move_assign_from_Ok).
  split; [done|]. split; [by erewrite move_assign_eq|].
  assert (world_inv (mkState (<[dst:=mkList NULL NULL 0]> (lists st))
                       (free_all (ds.*1) (nodes st)) (ints st))
                    (<[dst:=[]]> O)) as Hw1.
  { eapply (world_step st O dst ds []); [done..|apply rep_list_nil| | |].
    - apply frame_outside_free_all.
    - by intros a Ha%elem_of_nil.
    - by intros a Ha%elem_of_nil. }
  pose proof (world_transfer _ _ dst src cs S Hw1 Hne) as Hw2.
  simpl in Hw2. rewrite insert_insert_eq in Hw2. rewrite (insert_insert_eq O) in Hw2.
  assert (world_inv (mkState (<[src:=mkList NULL NULL 0]> (<[dst:=S]> (lists st)))
                       (free_all (ds.*1) (nodes st)) (ints st))
                    (<[src:=[]]> (<[dst:=cs]> O))) as Hw3.
  { apply Hw2.
    - rewrite dom_insert_live; [done|by eexists].
    - by rewrite lookup_insert_ne.
    - by rewrite lookup_insert_ne. }
  split; [done|]. split.
  - eapply world_seq; [exact Hw3|]. rewrite lookup_insert_ne by done. apply lookup_insert_eq.
  - apply (world_seq _ _ src [] Hw3). apply lookup_insert_eq.
Qed.


(** ** No node is lost *)

(** X16. A C program whose steps leave no node behind (it sets up, or
    stores a returned list into, only list objects that hold nothing) loses
    no node: unless memory runs out, at the end every node that is in no
    list is as it was at the start if it was in no list then, and released
    if it was.  So a program that ends with all its lists empty leaves in
    the heap exactly the nodes it did not own at the start. *)
Theorem C_program_loses_no_node os st O :
  world_inv st O → Forall (C_op_wf (dom O) (dom (ints st))) os →
  C_leak_free os (abs O (ints st)) = true →
  C.run os st = Fault AllocFailure ∨
  ∃ st' O', C.run os st = Ok tt st' ∧ world_inv st' O' ∧ dom O' = dom O ∧
    abs O' (ints st') = C_seq_run os (abs O (ints st)) ∧
    (∀ a, a ∉ owned_addrs O' →
       nodes st' !! a = if decide (a ∈ owned_addrs O) then None else nodes st !! a) ∧
    ((∀ l, l ∈ dom O → seq_at (C_seq_run os (abs O (ints st))) l = []) →
     nodes st' = free_all (owned_addrs O) (nodes st)).
Proof.
  intros Hw Hwf Hfree.
  destruct (C_run_tracks os st O (free_all (owned_addrs O) (nodes st)) Hw Hwf)
    as [Hf|(st' & O' & Hrun & Hw' & Hd & Hi & Hk & Hm & Ht)]; [by left|].
  right. exists st', O'. split; [done|]. split; [done|]. split; [done|]. split; [done|].
  eapply tight_end; [|done..]. apply Ht; [done|]. apply tight_start.
Qed.

(** X17. The same for a C++ program: when no constructor runs on an object
    that still holds nodes, no node is lost; assignments, [clear()] and the
    destructor release what they drop.  So a program that ends with all its
    lists empty or destroyed leaves in the heap exactly the nodes it did not
    own at the start. *)
Theorem Cpp_program_loses_no_node os st O :
  world_inv st O → Forall (Cpp_op_wf (dom O) (dom (ints st))) os →
  Cpp_leak_free os (abs O (ints st)) = true →
  match Cpp_seq_run os (abs O (ints st)) with
  | None => Cpp.run os st = Fault AllocFailure ∨ Cpp.run os st = Fault NullDeref
  | Some m' =>
      Cpp.run os st = Fault AllocFailure ∨
      ∃ st' O', Cpp.run os st = Ok tt st' ∧ world_inv st' O' ∧ dom O' = dom O ∧
        abs O' (ints st') = m' ∧
        (∀ a, a ∉ owned_addrs O' →
           nodes st' !! a = if decide (a ∈ owned_addrs O) then None else nodes st !! a) ∧
        ((∀ l, l ∈ dom O → seq_at m' l = []) →
         nodes st' = free_all (owned_addrs O) (nodes st))
  end.
Proof.
  intros Hw Hwf Hfree.
  pose proof (Cpp_run_tracks os st O (free_all (owned_addrs O) (nodes st)) Hw Hwf) as Hr.
  destruct (Cpp_seq_run os (abs O (ints st))) as [m'|]; simpl in Hr; [|done].
  destruct Hr as [Hf|(st' & O' & Hrun & Hw' & Hd & Hi & Hk & Hm & Ht)]; [by left|].
  right. exists st', O'. split; [done|]. split; [done|]. split; [done|]. split; [done|].
  eapply tight_end; [|done..]. apply Ht; [done|]. apply tight_start.
Qed.

(** ** The harness entry points *)

(** X14. How the two [main] functions dispatch, for every argument vector:
    with a selector that is none of the three task names the C++ harness
    returns 2 and runs nothing while the C harness runs all three groups;
    otherwise (a task name, or no selector) the two do the same, and the C
    harness never returns anything but 0. *)
Theorem main_dispatch (t1 t2 t3 : M unit) (argv : list string) st :
  (if decide (2 <= argc argv ∧ argv1 argv ∉ ["task1"; "task2"; "task3"]%string)
   then Cpp_main t1 t2 t3 argv st = Ok 2 st ∧
        C_main t1 t2 t3 argv st = (t1;; t2;; t3;; ret 0) st
   else C_main t1 t2 t3 argv st = Cpp_main t1 t2 t3 argv st) ∧
  ∀ r st', C_main t1 t2 t3 argv st = Ok r st' → r = 0.
Proof.
  assert (∀ (c : M unit) r st', (c;; ret 0) st = Ok r st' → r = 0) as Hret.
  { intros c r st' Hrun. unfold mbind, M_bind, bind in Hrun.
    destruct (c st); [|done]. by injection Hrun as <- _. }
  split.
  - unfold C_main, Cpp_main. case_decide as Hsel.
    + destruct Hsel as [Hargc Hsel].
      assert ((argc argv >=? 2) = true) as -> by lia.
      destruct (String.eqb_spec (argv1 argv) "task1") as [E|_]; [rewrite E in Hsel; set_solver|].
      destruct (String.eqb_spec (argv1 argv) "task2") as [E|_]; [rewrite E in Hsel; set_solver|].
      destruct (String.eqb_spec (argv1 argv) "task3") as [E|_]; [rewrite E in Hsel; set_solver|].
      done.
    + destruct (Z.geb_spec (argc argv) 2) as [Hge|Hlt]; [|done].
      destruct (String.eqb_spec (argv1 argv) "task1") as [E|N1]; [done|].
      destruct (String.eqb_spec (argv1 argv) "task2") as [E|N2]; [done|].
      destruct (String.eqb_spec (argv1 argv) "task3") as [E|N3]; [done|].
      exfalso. apply Hsel. split; [lia|]. set_solver.
  - intros r st'. unfold C_main.
    repeat case_match; try apply Hret.
    all: intros Hrun; rewrite <- !bind_assoc in Hrun; by eapply Hret.
Qed.

(** ** The student skeleton *)

Lemma Skel_ll_init_reset l st :
  l ≠ NULL → lists st !! l = Some (mkList NULL NULL 0) → Skel.ll_init l st = Ok tt st.
Proof.
  intros Hl HL. unfold Skel.ll_init. do 3 step.
  rewrite <- (state_eta st) at 2. f_equal. unfold with_lists. simpl.
  rewrite !insert_insert_eq. f_equal. by apply insert_id.
Qed.

Lemma Skel_ll_copy_reset src st : Skel.ll_copy src st = Ok (mkList NULL NULL 0) st.
Proof.
  unfold Skel.ll_copy, with_local_list.
  pose proof (fresh_key_pos (lists st)) as Hpos.
  pose proof (fresh_key_fresh (lists st)) as Hfresh.
  set (d := fresh_key (lists st)) in *.
  assert (d ≠ NULL) as Hd by (unfold NULL; lia).
  assert ((Skel.ll_init d;; load_list d)
            (with_lists (insert d uninit_list) st) =
          Ok (mkList NULL NULL 0)
             (mkState (<[d:=mkList NULL NULL 0]> (lists st)) (nodes st) (ints st))) as ->.
  { unfold Skel.ll_init. do 4 step. f_equal. state_eq. }
  unfold with_lists. simpl. rewrite delete_insert_id by done. by rewrite state_eta.
Qed.

(** X15. On the student skeleton nothing happens: started on initialised
    (empty) lists, every program over the interface runs to the end and
    leaves the whole state as it was, and [ll_pop_front], [ll_front],
    [ll_back], [ll_insert] and [ll_erase] always answer 0, so no pushed
    value can ever be observed. *)
Theorem skeleton_does_nothing (Ls : list Z) (os : list C.op) st :
  (∀ l, l ∈ Ls → l ≠ NULL ∧ lists st !! l = Some (mkList NULL NULL 0)) →
  Forall (λ o, ∀ l, l ∈ C.lists_of o → l ∈ Ls) os →
  Skel.run os st = Ok tt st ∧
  ∀ l i v out, Skel.ll_pop_front l out st = Ok 0 st ∧ Skel.ll_front l out st = Ok 0 st ∧
    Skel.ll_back l out st = Ok 0 st ∧ Skel.ll_insert l i v st = Ok 0 st ∧
    Skel.ll_erase l i st = Ok 0 st.
Proof.
  intros HLs Hwf. split; [|done].
  induction os as [|o os IH]; [done|].
  apply Forall_cons in Hwf as [Ho Hos]. simpl Skel.run.
  assert (Skel.run_op o st = Ok tt st) as Hstep.
  { destruct o as [l|l|l|l|l v|l v|l out|l out|l out|l i v|l i|dst src|dst src|dst src];
      simpl in Ho; simpl Skel.run_op; try done.
    - destruct (HLs l) as [Hl HL]; [apply Ho; left|]. by apply Skel_ll_init_reset.
    - destruct (HLs l) as [Hl HL]; [apply Ho; left|].
      unfold Skel.ll_empty. by do 3 step.
    - destruct (HLs l) as [Hl HL]; [apply Ho; left|].
      unfold Skel.ll_size. by do 2 step.
    - destruct (HLs dst) as [Hd HD]; [apply Ho; left|].
      erewrite bind_Ok by apply Skel_ll_copy_reset.
      erewrite store_list_Ok by done.
      unfold with_lists. simpl. rewrite insert_id by done. by rewrite state_eta.
    - destruct (HLs dst) as [Hd HD]; [apply Ho; left|].
      destruct (HLs src) as [Hs HS]; [apply Ho; right; left|].
      unfold Skel.ll_move_from. step. rewrite bind_assoc.
      erewrite bind_Ok by (by apply Skel_ll_init_reset). step.
      erewrite store_list_Ok by done.
      unfold with_lists. simpl. rewrite insert_id by done. by rewrite state_eta. }
  erewrite bind_Ok by exact Hstep. by apply IH.
Qed.

End Properties.

Section PropertyWitnesses.
#[local] Existing Instance bump_allocator.



Lemma clear_releases_the_nodes_witness :
  ∃ st', C.ll_clear 100 ex_state = Ok tt st' ∧ Cpp.clear 100 ex_state = Ok tt st' ∧
    Cpp.dtor 100 ex_state = Ok tt st' ∧
    lists st' = <[100:=mkList NULL NULL 0]> (lists ex_state) ∧ ints st' = ints ex_state ∧
    (∀ a, nodes st' !! a =
          if decide (a ∈ [(1, 10); (2, 20)].*1) then None else nodes ex_state !! a) ∧
    C.ll_clear 100 st' = Ok tt st'.
Proof.
  apply (clear_releases_the_nodes 100 ex_state (mkList 1 2 2) [(1, 10); (2, 20)]).
  - done.
  - reflexivity.
  - exact ex_state_rep.
Defined.

Lemma push_front_pop_front_round_trip_witness :
  (C.ll_push_front 100 7;; C.ll_pop_front 100 200) ex_state =
    Ok 1 (mkState (lists ex_state) (nodes ex_state) (<[200:=7]> (ints ex_state))) ∧
  (Cpp.push_front 100 7;; Cpp.pop_front 100 200) ex_state =
    Ok true (mkState (lists ex_state) (nodes ex_state) (<[200:=7]> (ints ex_state))).
Proof.
  apply (push_front_pop_front_round_trip 100 200 7 ex_state (mkList 1 2 2)
           [(1, 10); (2, 20)] 3 (mkNode (-1) (-1))).
  - done.
  - reflexivity.
  - exact ex_state_rep.
  - exact ex_state_heap_ok.
  - done.
  - by exists 0.
  - reflexivity.
Defined.

Lemma front_back_on_values_witness :
  C.ll_front 100 200 ex_state =
    Ok 1 (mkState (lists ex_state) (nodes ex_state) (<[200:=10]> (ints ex_state))) ∧
  C.ll_back 100 200 ex_state =
    Ok 1 (mkState (lists ex_state) (nodes ex_state) (<[200:=20]> (ints ex_state))) ∧
  Cpp.front 100 ex_state = Ok 10 ex_state ∧ Cpp.back 100 ex_state = Ok 20 ex_state.
Proof.
  apply (front_back_on_values 100 200 ex_state (mkList 1 2 2) 1 10 [(2, 20)]).
  - done.
  - reflexivity.
  - exact ex_state_rep.
  - done.
  - by exists 0.
Defined.

Lemma observers_agree_witness :
  C.ll_size 100 ex_state = Ok 2 ex_state ∧
  Cpp.size 100 ex_state = Ok 2 ex_state ∧
  C.ll_empty 100 ex_state = Ok 0 ex_state ∧
  Cpp.empty 100 ex_state = Ok false ex_state ∧
  C.print_list 100 ex_state = Ok ([10; 20], 2) ex_state ∧
  Cpp.toVector 100 ex_state = Ok [10; 20] ex_state.
Proof.
  apply (observers_agree 100 ex_state (mkList 1 2 2) [(1, 10); (2, 20)]).
  - done.
  - reflexivity.
  - exact ex_state_rep.
Defined.

Lemma insert_places_one_node_witness :
  ∃ L' h',
    C.ll_insert 100 1 9 ex_state =
      Ok 1 (mkState (<[100:=L']> (lists ex_state)) h' (ints ex_state)) ∧
    Cpp.insert 100 1 9 ex_state =
      Ok true (mkState (<[100:=L']> (lists ex_state)) h' (ints ex_state)) ∧
    rep_list h' L' [(1, 10); (3, 9); (2, 20)] ∧
    size_ L' = 2 + 1 ∧ nodes ex_state !! 3 = None ∧
    ∀ a, a ≠ 3 → a ∉ [(1, 10); (2, 20)].*1 → h' !! a = nodes ex_state !! a.
Proof.
  assert (alloc (nodes ex_state) = Some (3, mkNode (-1) (-1))) as Ha by reflexivity.
  pose proof (insert_places_one_node 100 1 9 ex_state (mkList 1 2 2) [(1, 10); (2, 20)])
    as Hw.
  rewrite Ha in Hw. apply Hw.
  - done.
  - reflexivity.
  - exact ex_state_rep.
  - exact ex_state_heap_ok.
  - simpl. lia.
Defined.

Lemma erase_releases_one_node_witness :
  ∃ a v L' h',
    [(1, 10); (2, 20)] !! Z.to_nat 1 = Some (a, v) ∧
    C.ll_erase 100 1 ex_state =
      Ok 1 (mkState (<[100:=L']> (lists ex_state)) h' (ints ex_state)) ∧
    Cpp.erase 100 1 ex_state =
      Ok true (mkState (<[100:=L']> (lists ex_state)) h' (ints ex_state)) ∧
    rep_list h' L' (delete (Z.to_nat 1) [(1, 10); (2, 20)]) ∧
    size_ L' = 2 - 1 ∧ h' !! a = None ∧
    ∀ b, b ∉ [(1, 10); (2, 20)].*1 → h' !! b = nodes ex_state !! b.
Proof.
  apply (erase_releases_one_node 100 1 ex_state (mkList 1 2 2) [(1, 10); (2, 20)]).
  - done.
  - reflexivity.
  - exact ex_state_rep.
  - exact ex_state_heap_ok.
  - simpl. lia.
Defined.

Lemma insert_erase_round_trip_witness :
  (C.ll_insert 100 1 9;; C.ll_erase 100 1) ex_state = Ok 1 ex_state ∧
  (Cpp.insert 100 1 9;; Cpp.erase 100 1) ex_state = Ok true ex_state.
Proof.
  apply (insert_erase_round_trip 100 1 9 ex_state (mkList 1 2 2) [(1, 10); (2, 20)]
           3 (mkNode (-1) (-1))).
  - done.
  - reflexivity.
  - exact ex_state_rep.
  - exact ex_state_heap_ok.
  - reflexivity.
  - simpl. lia.
Defined.

Lemma push_is_insert_at_the_ends_witness :
  (∃ L' h', let st' := mkState (<[100:=L']> (lists ex_state)) h' (ints ex_state) in
     C.ll_push_front 100 7 ex_state = Ok tt st' ∧ Cpp.push_front 100 7 ex_state = Ok tt st' ∧
     C.ll_insert 100 0 7 ex_state = Ok 1 st' ∧ Cpp.insert 100 0 7 ex_state = Ok true st' ∧
     rep_list h' L' [(3, 7); (1, 10); (2, 20)] ∧ size_ L' = 2 + 1) ∧
  (∃ L' h', let st' := mkState (<[100:=L']> (lists ex_state)) h' (ints ex_state) in
     C.ll_push_back 100 7 ex_state = Ok tt st' ∧ Cpp.push_back 100 7 ex_state = Ok tt st' ∧
     C.ll_insert 100 2 7 ex_state = Ok 1 st' ∧ Cpp.insert 100 2 7 ex_state = Ok true st' ∧
     rep_list h' L' [(1, 10); (2, 20); (3, 7)] ∧ size_ L' = 2 + 1).
Proof.
  apply (push_is_insert_at_the_ends 100 7 ex_state (mkList 1 2 2) [(1, 10); (2, 20)]
           3 (mkNode (-1) (-1))).
  - done.
  - reflexivity.
  - exact ex_state_rep.
  - exact ex_state_heap_ok.
  - reflexivity.
Defined.

Lemma copy_assign_replaces_witness :
  Cpp.copy_assign 101 101 ex_two = Ok tt ex_two ∧
  ∃ st' ts', Cpp.copy_assign 101 100 ex_two = Ok tt st' ∧ ts'.*2 = [10; 20] ∧
    Cpp_seq 101 st' = Some [10; 20] ∧ Cpp_seq 100 st' = Some [10; 20] ∧
    world_inv st' (<[101:=ts']> ex_two_owner) ∧ ints st' = ints ex_two ∧
    (∀ a, a ∈ [5] → a ∉ ts'.*1 → nodes st' !! a = None) ∧
    (∀ a, a ∉ [5] → a ∉ ts'.*1 → nodes st' !! a = nodes ex_two !! a).
Proof.
  apply (copy_assign_replaces 101 100 ex_two ex_two_owner [(5, 30)] [(1, 10); (2, 20)]).
  - exact ex_two_world.
  - reflexivity.
  - reflexivity.
  - done.
  - by apply ex_two_can_alloc.
Defined.

Lemma move_assign_hands_over_witness :
  ∃ S, lists ex_state !! 100 = Some S ∧ rep_list (nodes ex_state) S [(1, 10); (2, 20)] ∧
    let st' := mkState (<[100:=mkList NULL NULL 0]> (<[101:=S]> (lists ex_state)))
                 (free_all (([] : list cell).*1) (nodes ex_state)) (ints ex_state) in
    C.ll_move_assign_from 101 100 ex_state = Ok tt st' ∧
    Cpp.move_assign 101 100 ex_state = Ok tt st' ∧
    world_inv st' (<[100:=[]]> (<[101:=[(1, 10); (2, 20)]]> ex_owner)) ∧
    C_seq 101 st' = Some [10; 20] ∧ C_seq 100 st' = Some [].
Proof.
  apply (move_assign_hands_over 101 100 ex_state ex_owner [] [(1, 10); (2, 20)]).
  - exact ex_state_world.
  - reflexivity.
  - reflexivity.
  - done.
Defined.


Lemma skeleton_does_nothing_witness :
  Skel.run [C.Init 101; C.PushBack 101 5; C.PushFront 101 1; C.PopFront 101 200;
            C.Copy 101 101; C.MoveFrom 101 101; C.Size 101] ex_state = Ok tt ex_state ∧
  ∀ l i v out,
    Skel.ll_pop_front l out ex_state = Ok 0 ex_state ∧
    Skel.ll_front l out ex_state = Ok 0 ex_state ∧
    Skel.ll_back l out ex_state = Ok 0 ex_state ∧
    Skel.ll_insert l i v ex_state = Ok 0 ex_state ∧
    Skel.ll_erase l i ex_state = Ok 0 ex_state.
Proof.
  apply (skeleton_does_nothing [101]).
  - intros l ->%list_elem_of_singleton. by split.
  - repeat (apply Forall_cons; split; [intros ? ?; set_solver|]). by apply Forall_nil.
Defined.

Lemma C_program_loses_no_node_witness :
  C.run ex_prog_C ex_state = Fault AllocFailure ∨
  ∃ st' O', C.run ex_prog_C ex_state = Ok tt st' ∧ world_inv st' O' ∧
    dom O' = dom ex_owner ∧
    abs O' (ints st') = C_seq_run ex_prog_C (abs ex_owner (ints ex_state)) ∧
    (∀ a, a ∉ owned_addrs O' →
       nodes st' !! a =
       if decide (a ∈ owned_addrs ex_owner) then None else nodes ex_state !! a) ∧
    ((∀ l, l ∈ dom ex_owner →
        seq_at (C_seq_run ex_prog_C (abs ex_owner (ints ex_state))) l = []) →
     nodes st' = free_all (owned_addrs ex_owner) (nodes ex_state)).
Proof.
  apply (C_program_loses_no_node ex_prog_C ex_state ex_owner).
  - exact ex_state_world.
  - repeat (apply Forall_cons; split; [wf_step|]). by apply Forall_nil.
  - by vm_compute.
Defined.

Lemma Cpp_program_loses_no_node_witness :
  match Cpp_seq_run ex_prog_Cpp (abs ex_owner (ints ex_state)) with
  | None => Cpp.run ex_prog_Cpp ex_state = Fault AllocFailure ∨
            Cpp.run ex_prog_Cpp ex_state = Fault NullDeref
  | Some m' =>
      Cpp.run ex_prog_Cpp ex_state = Fault AllocFailure ∨
      ∃ st' O', Cpp.run ex_prog_Cpp ex_state = Ok tt st' ∧ world_inv st' O' ∧
        dom O' = dom ex_owner ∧ abs O' (ints st') = m' ∧
        (∀ a, a ∉ owned_addrs O' →
           nodes st' !! a =
           if decide (a ∈ owned_addrs ex_owner) then None else nodes ex_state !! a) ∧
        ((∀ l, l ∈ dom ex_owner → seq_at m' l = []) →
         nodes st' = free_all (owned_addrs ex_owner) (nodes ex_state))
  end.
Proof.
  apply (Cpp_program_loses_no_node ex_prog_Cpp ex_state ex_owner).
  - exact ex_state_world.
  - repeat (apply Forall_cons; split; [wf_step|]). by apply Forall_nil.
  - by vm_compute.
Defined.

(** The sequence machine on the example programs, and the code run on the
    same state. *)
Example ex_prog_C_seqs :
  let m' := C_seq_run ex_prog_C (abs ex_owner (ints ex_state)) in
  seq_at m' 100 = [] ∧ seq_at m' 101 = [2; 9; 20; 5] ∧ vals m' !! 200 = Some 1.
Proof. by vm_compute. Qed.

Example ex_prog_Cpp_seqs :
  (λ m', (seq_at m' 100, seq_at m' 101, vals m' !! 200)) <$>
    Cpp_seq_run ex_prog_Cpp (abs ex_owner (ints ex_state)) =
  Some ([], [2; 9; 20; 5], Some 1).
Proof. by vm_compute. Qed.

Example ex_prog_from_ex_state :
  final_seqs (C.run ex_prog_C ex_state) = (Some [], Some [2; 9; 20; 5]) ∧
  final_seqs (Cpp.run ex_prog_Cpp ex_state) = (Some [], Some [2; 9; 20; 5]).
Proof. split; by vm_compute. Qed.

(** The example programs, then every list cleared: no node is left. *)
Example ex_prog_then_clear :
  (match C.run (ex_prog_C ++ [C.Clear 100; C.Clear 101]) ex_state with
   | Ok _ st' => Some (map_to_list (nodes st'))
   | Fault _ => None
   end = Some []) ∧
  (match Cpp.run (ex_prog_Cpp ++ [Cpp.Dtor 100; Cpp.Dtor 101]) ex_state with
   | Ok _ st' => Some (map_to_list (nodes st'))
   | Fault _ => None
   end = Some []).
Proof. split; by vm_compute. Qed.

End PropertyWitnesses.
